(** * OpenPNM: ordinary percolation, relative permeability and label queries

    A shallow embedding of
      - [openpnm/algorithms/OrdinaryPercolation.py]  (module [OrdinaryPercolation]),
      - [openpnm/algorithms/RelativePermeability.py] (module [RelativePermeability]),
      - [OpenPNM/Utilities/__Tools__.py]             (module [Tools]),
    together with the part of numpy/scipy these files call (module [Np]).

    Numbers.  A numpy [float64] is modelled by [Np.float]: the three IEEE
    special values plus the finite values, which are taken to be real
    numbers (rounding is idealised, there is one zero).  Comparisons and
    arithmetic follow IEEE-754 on the special values.  Comparisons of
    finite values are decided by [Rle_dec] and friends; on numerals they
    are evaluated with the rewriting lemmas [Rleb_IZR], [Rltb_IZR] and
    [Reqb_IZR].

    Objects.  A method of a Python object is a function in the monad
    [M S A = S -> result A * S]: it returns a value or raises, and it
    hands back the object as it is at that moment, so mutations made
    before an exception stay visible. *)

From Stdlib Require Import String Ascii.
From Stdlib Require Import Reals Lra Lia ZArith Bool Arith List.
From Stdlib Require Import Sorted Permutation.
Import ListNotations.

Open Scope string_scope.
Open Scope list_scope.

Set Implicit Arguments.

(* ================================================================== *)
(** * Python: exceptions and the state-and-exception monad             *)
(* ================================================================== *)

Module Py.

Inductive exn : Type :=
| Exception (msg : string)
| KeyError (key : string)
| IndexError (msg : string)
| ValueError (msg : string)
| UnboundLocalError (name : string).

Inductive result (A : Type) : Type :=
| Ok (a : A)
| Raise (e : exn).

Arguments Ok {A} a.
Arguments Raise {A} e.

Definition is_ok {A} (r : result A) : bool :=
  match r with Ok _ => true | Raise _ => false end.

Definition rbind {A B} (r : result A) (k : A -> result B) : result B :=
  match r with
  | Ok a => k a
  | Raise e => Raise e
  end.

Definition M (S A : Type) : Type := S -> result A * S.

Definition ret {S A} (a : A) : M S A := fun s => (Ok a, s).

Definition raise {S A} (e : exn) : M S A := fun s => (Raise e, s).

Definition bind {S A B} (m : M S A) (k : A -> M S B) : M S B :=
  fun s =>
    match m s with
    | (Ok a, s') => k a s'
    | (Raise e, s') => (Raise e, s')
    end.

Definition get {S} : M S S := fun s => (Ok s, s).

Definition put {S} (s : S) : M S unit := fun _ => (Ok tt, s).

Definition modify {S} (f : S -> S) : M S unit := fun s => (Ok tt, f s).

Definition lift {S A} (r : result A) : M S A := fun s => (r, s).

(** [for x in xs: body x] *)
Fixpoint for_each {S A} (xs : list A) (body : A -> M S unit) : M S unit :=
  match xs with
  | [] => ret tt
  | x :: xs' => bind (body x) (fun _ => for_each xs' body)
  end.

(** A loop that carries its local variables in [acc]. *)
Fixpoint fold_m {S A B} (xs : list A) (body : B -> A -> M S B) (acc : B)
  : M S B :=
  match xs with
  | [] => ret acc
  | x :: xs' => bind (body acc x) (fun acc' => fold_m xs' body acc')
  end.

(** A Python [dict] with insertion order: [d[k] = v] overwrites in place
    or appends. *)
Definition dict (V : Type) : Type := list (string * V).

Fixpoint dict_get {V} (d : dict V) (k : string) : option V :=
  match d with
  | [] => None
  | (k', v) :: d' => if String.eqb k k' then Some v else dict_get d' k
  end.

Fixpoint dict_set {V} (d : dict V) (k : string) (v : V) : dict V :=
  match d with
  | [] => [(k, v)]
  | (k', v') :: d' =>
      if String.eqb k k' then (k', v) :: d' else (k', v') :: dict_set d' k v
  end.

Definition dict_keys {V} (d : dict V) : list string := map fst d.

(** [d[k]], raising [KeyError] *)
Definition dict_item {V} (d : dict V) (k : string) : result V :=
  match dict_get d k with
  | Some v => Ok v
  | None => Raise (KeyError k)
  end.

(** [[f(x) for x in xs]] where [f] may raise: the first exception ends
    the loop. *)
Fixpoint map_r {A B} (f : A -> result B) (xs : list A) : result (list B) :=
  match xs with
  | [] => Ok []
  | x :: xs' =>
      match f x with
      | Ok y =>
          match map_r f xs' with
          | Ok ys => Ok (y :: ys)
          | Raise e => Raise e
          end
      | Raise e => Raise e
      end
  end.

End Py.

Export Py.

Declare Scope py_scope.
Delimit Scope py_scope with py.
Notation "x <- m ;; k" := (bind m (fun x => k))
  (at level 100, m at next level, right associativity) : py_scope.
Notation "m ;;; k" := (bind m (fun _ => k))
  (at level 100, right associativity) : py_scope.
Notation "x <~ r ;; k" := (rbind r (fun x => k))
  (at level 100, r at next level, right associativity) : py_scope.

(* ================================================================== *)
(** * numpy / scipy                                                   *)
(* ================================================================== *)

Module Np.

Local Open Scope py_scope.

(** ** float64 *)

Inductive float : Type :=
| NaN
| NInf
| Fin (x : R)
| PInf.

Definition Rleb (x y : R) : bool := if Rle_dec x y then true else false.
Definition Rltb (x y : R) : bool := if Rlt_dec x y then true else false.
Definition Reqb (x y : R) : bool := if Req_dec_T x y then true else false.

Definition isnan (a : float) : bool :=
  match a with NaN => true | _ => false end.

Definition isfinite (a : float) : bool :=
  match a with Fin _ => true | _ => false end.

(** [a <= b] *)
Definition fle (a b : float) : bool :=
  match a, b with
  | NaN, _ | _, NaN => false
  | NInf, _ => true
  | _, PInf => true
  | Fin x, Fin y => Rleb x y
  | _, _ => false
  end.

(** [a < b] *)
Definition flt (a b : float) : bool :=
  match a, b with
  | NaN, _ | _, NaN => false
  | NInf, NInf => false
  | NInf, _ => true
  | PInf, _ => false
  | Fin x, Fin y => Rltb x y
  | Fin _, PInf => true
  | Fin _, NInf => false
  end.

(** [a == b] *)
Definition feq (a b : float) : bool :=
  match a, b with
  | NInf, NInf => true
  | PInf, PInf => true
  | Fin x, Fin y => Reqb x y
  | _, _ => false
  end.

(** [a != b] *)
Definition fne (a b : float) : bool := negb (feq a b).

(** [a > b] *)
Definition fgt (a b : float) : bool := flt b a.

Definition fneg (a : float) : float :=
  match a with
  | NaN => NaN
  | NInf => PInf
  | Fin x => Fin (- x)
  | PInf => NInf
  end.

Definition fadd (a b : float) : float :=
  match a, b with
  | NaN, _ | _, NaN => NaN
  | Fin x, Fin y => Fin (x + y)
  | PInf, NInf | NInf, PInf => NaN
  | PInf, _ | _, PInf => PInf
  | NInf, _ | _, NInf => NInf
  end.

Definition fsub (a b : float) : float := fadd a (fneg b).

(** The product of an infinity of sign [pos] with the finite [x]. *)
Definition inf_times (pos : bool) (x : R) : float :=
  if Rltb 0 x then (if pos then PInf else NInf)
  else if Rltb x 0 then (if pos then NInf else PInf)
  else NaN.

Definition fmul (a b : float) : float :=
  match a, b with
  | NaN, _ | _, NaN => NaN
  | Fin x, Fin y => Fin (x * y)
  | Fin x, PInf | PInf, Fin x => inf_times true x
  | Fin x, NInf | NInf, Fin x => inf_times false x
  | PInf, PInf | NInf, NInf => PInf
  | PInf, NInf | NInf, PInf => NInf
  end.

(** numpy division: a finite value over zero is an infinity (the zero is
    taken as [+0.0]), zero over zero is nan. *)
Definition fdiv (a b : float) : float :=
  match a, b with
  | NaN, _ | _, NaN => NaN
  | Fin x, Fin y =>
      if Reqb y 0
      then (if Rltb 0 x then PInf else if Rltb x 0 then NInf else NaN)
      else Fin (x / y)
  | Fin _, PInf | Fin _, NInf => Fin 0
  | PInf, Fin y => if Rltb y 0 then NInf else PInf
  | NInf, Fin y => if Rltb y 0 then PInf else NInf
  | _, _ => NaN
  end.

(** [np.log10] *)
Definition log10 (a : float) : float :=
  match a with
  | NaN => NaN
  | NInf => NaN
  | Fin x =>
      if Rltb 0 x then Fin (ln x / ln 10)
      else if Reqb x 0 then NInf
      else NaN
  | PInf => PInf
  end.

(** [np.power(10.0, a)] *)
Definition power10 (a : float) : float :=
  match a with
  | NaN => NaN
  | NInf => Fin 0
  | Fin x => Fin (Rpower 10 x)
  | PInf => PInf
  end.

(** Python's builtin [max(a, b)]: the first argument is kept unless the
    second is greater. *)
Definition py_max (a b : float) : float := if fgt b a then b else a.

(** [np.minimum] and [np.maximum] propagate nan. *)
Definition minimum (a b : float) : float :=
  if isnan a then a else if isnan b then b else if fle a b then a else b.

Definition maximum (a b : float) : float :=
  if isnan a then a else if isnan b then b else if fle b a then a else b.

(** ** arrays *)

(** [np.amin(a)]; a reduction of an empty array raises. *)
Definition amin (a : list float) : result float :=
  match a with
  | [] => Raise (ValueError "zero-size array to reduction operation minimum which has no identity")
  | x :: t => Ok (fold_left minimum t x)
  end.

Definition amax (a : list float) : result float :=
  match a with
  | [] => Raise (ValueError "zero-size array to reduction operation maximum which has no identity")
  | x :: t => Ok (fold_left maximum t x)
  end.

(** [np.sum] of a boolean array *)
Definition sum_bool (a : list bool) : Z :=
  Z.of_nat (count_occ bool_dec a true).

(** [np.where(a == True)[0]] *)
Fixpoint where_from (i : nat) (a : list bool) : list nat :=
  match a with
  | [] => []
  | b :: t => if b then i :: where_from (S i) t else where_from (S i) t
  end.

Definition where_true (a : list bool) : list nat := where_from 0 a.

(** An elementwise binary operation; the two arrays are columns of one
    network object, so they must have the same shape (broadcasting of a
    length-one array is not modelled: it raises here). *)
Fixpoint map2 {A B C} (f : A -> B -> C) (a : list A) (b : list B) : list C :=
  match a, b with
  | x :: a', y :: b' => f x y :: map2 f a' b'
  | _, _ => []
  end.

Definition elementwise {A B C} (f : A -> B -> C) (a : list A) (b : list B)
  : result (list C) :=
  if Nat.eqb (length a) (length b) then Ok (map2 f a b)
  else Raise (ValueError "operands could not be broadcast together").

(** [a[mask]] for a boolean mask *)
Fixpoint compress {A} (a : list A) (mask : list bool) : list A :=
  match a, mask with
  | x :: a', m :: mask' => if m then x :: compress a' mask' else compress a' mask'
  | _, _ => []
  end.

Definition getmask {A} (a : list A) (mask : list bool) : result (list A) :=
  if Nat.eqb (length a) (length mask) then Ok (compress a mask)
  else Raise (IndexError "boolean index did not match indexed array").

(** [a[mask] = v] for a boolean mask and a scalar *)
Definition setmask {A} (a : list A) (mask : list bool) (v : A) : result (list A) :=
  if Nat.eqb (length a) (length mask)
  then Ok (map2 (fun x (m : bool) => if m then v else x) a mask)
  else Raise (IndexError "boolean index did not match indexed array").

(** ** sorting, [np.unique], [np.searchsorted] *)

(** The order numpy sorts by: nan is placed after every other value. *)
Definition sort_le (a b : float) : bool := fle a b || isnan b.

Definition sort_lt (a b : float) : bool := flt a b || (isnan b && negb (isnan a)).

Fixpoint insert (x : float) (l : list float) : list float :=
  match l with
  | [] => [x]
  | y :: t => if sort_le x y then x :: l else y :: insert x t
  end.

Definition sort (l : list float) : list float := fold_right insert [] l.

(** Ascending in the order numpy sorts by. *)
Definition sorted (l : list float) : Prop :=
  StronglySorted (fun a b => sort_le a b = true) l.

(** numpy's [unique]: sort, then keep every element that differs ([!=])
    from its predecessor. *)
Fixpoint dedup (l : list float) : list float :=
  match l with
  | [] => []
  | x :: t =>
      match t with
      | [] => [x]
      | y :: _ => if fne x y then x :: dedup t else dedup t
      end
  end.

Definition unique (l : list float) : list float := dedup (sort l).

(** [np.searchsorted(a, v)] for a scalar [v], side 'left': the first
    index [i] with [v <= a[i]], found here by a scan from the left (numpy
    bisects; on a sorted [a] the index is the same). *)
Fixpoint searchsorted1 (a : list float) (v : float) : nat :=
  match a with
  | [] => 0
  | x :: t => if sort_lt x v then S (searchsorted1 t v) else 0
  end.

Definition searchsorted (a : list float) (vs : list float) : list Z :=
  map (fun v => Z.of_nat (searchsorted1 a v)) vs.

(** ** [np.linspace] and [np.logspace] *)

Definition arange (num : nat) : list float :=
  map (fun i => Fin (INR i)) (seq 0 num).

Definition set_last {A} (y : list A) (v : A) : list A :=
  match y with
  | [] => []
  | _ => removelast y ++ [v]
  end.

Definition linspace (start stop : float) (num : Z) : result (list float) :=
  if (num <? 0)%Z
  then Raise (ValueError "Number of samples must be non-negative")
  else
    let div := (num - 1)%Z in
    let delta := fsub stop start in
    let y := arange (Z.to_nat num) in
    let y :=
      if (0 <? div)%Z then
        let step := fdiv delta (Fin (IZR div)) in
        if feq step (Fin 0)
        then map (fun v => fmul (fdiv v (Fin (IZR div))) delta) y
        else map (fun v => fmul v step) y
      else map (fun v => fmul v delta) y in
    let y := map (fun v => fadd v start) y in
    Ok (if (1 <? num)%Z then set_last y stop else y).

Definition logspace (start stop : float) (num : Z) : result (list float) :=
  y <~ linspace start stop num ;;
  Ok (map power10 y).

(** [np.any] of a float array: some entry is not zero. *)
Definition any_nonzero (a : list float) : bool :=
  existsb (fun x => fne x (Fin 0)) a.

(** [np.sum] of a float array; the sum of the empty array is 0. *)
Definition fsum (a : list float) : float := fold_left fadd a (Fin 0).

End Np.

(* ================================================================== *)
(** * openpnm.topotools and the network: collaborators of the engine   *)
(* ================================================================== *)

Module Topotools.

(** The named tuple [cluster_labels(sites, bonds)]; label [-1] marks an
    element outside every invaded cluster. *)
Record cluster_labels : Type := mk_labels {
  sites : list Z;
  bonds : list Z
}.

(** What [OrdinaryPercolation.py] imports and calls but does not define:
    the two cluster labellers, the isolated-cluster filter, the network's
    [create_adjacency_matrix(weights=mask, fmt='coo')] and the inherited
    [_is_percolating(am, mode, inlets, outlets)].  The engine is written
    against this interface. *)
Class Interface : Type := {
  bond_percolation : list (nat * nat) -> list bool -> cluster_labels;
  site_percolation : list (nat * nat) -> list bool -> cluster_labels;
  remove_isolated_clusters : cluster_labels -> list bool -> cluster_labels;
  adjacency : Type;
  create_adjacency_matrix : list (nat * nat) -> list bool -> adjacency;
  _is_percolating : adjacency -> string -> list bool -> list bool -> bool
}.

(** ** A reference implementation *)

Fixpoint set_nth {A} (i : nat) (v : A) (l : list A) : list A :=
  match l, i with
  | [], _ => []
  | _ :: t, O => v :: t
  | x :: t, S j => x :: set_nth j v t
  end.

(** One pass over the bonds: the two ends of an open bond take the
    smaller of their labels. *)
Fixpoint relax (conns : list (nat * nat)) (open : list bool) (l : list nat)
  : list nat :=
  match conns, open with
  | (a, b) :: cs, o :: os =>
      let l' :=
        if o then
          let m := Nat.min (nth a l a) (nth b l b) in
          set_nth a m (set_nth b m l)
        else l in
      relax cs os l'
  | _, _ => l
  end.

Fixpoint iterate {A} (n : nat) (f : A -> A) (x : A) : A :=
  match n with
  | O => x
  | S k => iterate k f (f x)
  end.

(** Modelled from the spec: the connected components of the open bonds
    (section 4.1, transitive closure over open bonds); a component is
    named by its smallest site.  [openpnm.topotools] is not among the
    sources. *)
Definition components (n : nat) (conns : list (nat * nat)) (open : list bool)
  : list nat :=
  iterate n (relax conns open) (seq 0 n).

Definition num_sites (conns : list (nat * nat)) : nat :=
  fold_right (fun ab m => Nat.max m (S (Nat.max (fst ab) (snd ab)))) 0 conns.

Definition touched (conns : list (nat * nat)) (open : list bool) (i : nat) : bool :=
  existsb (fun x => x)
    (Np.map2 (fun (ab : nat * nat) (o : bool) =>
                o && (Nat.eqb (fst ab) i || Nat.eqb (snd ab) i)) conns open).

(** Modelled from the spec: the Cluster Labeler in bond mode (section
    4.1): a site is labelled by the cluster of any open bond touching it,
    sites touching no open bond get -1; an open bond carries the label of
    its cluster, a closed bond -1. *)
Definition ref_bond_percolation (conns : list (nat * nat)) (open : list bool)
  : cluster_labels :=
  let n := num_sites conns in
  let c := components n conns open in
  {| sites := map (fun i => if touched conns open i
                            then Z.of_nat (nth i c i) else (-1)%Z) (seq 0 n);
     bonds := Np.map2 (fun (ab : nat * nat) (o : bool) =>
                         if o then Z.of_nat (nth (fst ab) c (fst ab)) else (-1)%Z)
                      conns open |}.

(** Modelled from the spec: the Cluster Labeler in site mode (section
    4.1): closed sites are always -1; a bond is labelled only if both its
    ends are open (they are then in one cluster). *)
Definition ref_site_percolation (conns : list (nat * nat)) (open : list bool)
  : cluster_labels :=
  let n := length open in
  let both := map (fun ab : nat * nat =>
                     nth (fst ab) open false && nth (snd ab) open false) conns in
  let c := components n conns both in
  {| sites := map (fun i => if nth i open false
                            then Z.of_nat (nth i c i) else (-1)%Z) (seq 0 n);
     bonds := Np.map2 (fun (ab : nat * nat) (o : bool) =>
                         if o then Z.of_nat (nth (fst ab) c (fst ab)) else (-1)%Z)
                      conns both |}.

(** Modelled from the spec: the Isolated-Cluster Filter (section 4.2):
    a cluster id not carried by any inlet site is reset to -1 on both
    label arrays; -1 stays -1. *)
Definition ref_remove_isolated_clusters (labels : cluster_labels)
  (inlets : list bool) : cluster_labels :=
  let keep := filter (fun l => (0 <=? l)%Z) (Np.compress (sites labels) inlets) in
  let f := fun l : Z => if existsb (Z.eqb l) keep then l else (-1)%Z in
  {| sites := map f (sites labels); bonds := map f (bonds labels) |}.

(** Modelled from the spec: the Percolation Tester (section 4.3): some
    inlet site and some outlet site share a cluster of the open bonds. *)
Definition ref_is_percolating (am : list (nat * nat) * list bool)
  (mode : string) (inlets outlets : list bool) : bool :=
  let n := length inlets in
  let c := components n (fst am) (snd am) in
  existsb (fun i =>
    existsb (fun j => Nat.eqb (nth i c i) (nth j c j))
            (Np.where_true outlets))
    (Np.where_true inlets).

Definition Reference : Interface := {|
  bond_percolation := ref_bond_percolation;
  site_percolation := ref_site_percolation;
  remove_isolated_clusters := ref_remove_isolated_clusters;
  adjacency := list (nat * nat) * list bool;
  create_adjacency_matrix := fun conns mask => (conns, mask);
  _is_percolating := ref_is_percolating
|}.

End Topotools.

(* ================================================================== *)
(** * openpnm/algorithms/OrdinaryPercolation.py                        *)
(* ================================================================== *)

Module OrdinaryPercolation.

Import Np Topotools.
Local Open Scope py_scope.

(** [self.settings]; the two [..._key] fields are the settings
    ['pore_entry_pressure'] and ['throat_entry_pressure'], which hold
    dictionary keys of the phase. *)
Record Settings : Type := mk_settings {
  access_limited : bool;
  mode : string;
  pore_entry_pressure_key : string;
  throat_entry_pressure_key : string;
  pore_volume : string;
  throat_volume : string
}.

Definition default_settings : Settings := {|
  access_limited := true;
  mode := "bond";
  pore_entry_pressure_key := "pore.capillary_pressure";
  throat_entry_pressure_key := "throat.capillary_pressure";
  pore_volume := "";
  throat_volume := ""
|}.

(** The arrays held by the algorithm object, [self['pore.inlets']] and so
    on.  The two entry-pressure arrays exist only once they were set. *)
Record t : Type := mk {
  settings : Settings;
  pore_invasion_pressure : list float;
  throat_invasion_pressure : list float;
  pore_invasion_sequence : list Z;
  throat_invasion_sequence : list Z;
  pore_inlets : list bool;
  pore_outlets : list bool;
  pore_residual : list bool;
  throat_residual : list bool;
  pore_entry_pressure : option (list float);
  throat_entry_pressure : option (list float)
}.

(** The project the algorithm belongs to: the network's size and
    ['throat.conns'], and the phase found by [find_phase]. *)
Record Project : Type := mk_project {
  num_pores : nat;
  num_throats : nat;
  conns : list (nat * nat);
  phase : dict (list float)
}.

(** The part of the object the spec calls the invasion state. *)
Definition invasion_state (o : t) :=
  (pore_invasion_pressure o, throat_invasion_pressure o,
   pore_invasion_sequence o, throat_invasion_sequence o,
   (pore_inlets o, pore_outlets o, pore_residual o, throat_residual o)).

(** A connectivity computation requested from the collaborators, with
    the throat mask it was restricted to. *)
Inductive call : Type :=
| ConnectivityCheck (mask : list bool).

(** The state the methods run in: the object, and the record of the
    connectivity computations made so far. *)
Record state : Type := mk_state {
  self : t;
  calls : list call
}.

Definition update_self (f : t -> t) : M state unit :=
  modify (fun w => {| self := f (self w); calls := calls w |}).

Definition log_call (c : call) : M state unit :=
  modify (fun w => {| self := self w; calls := calls w ++ [c] |}).

Definition set_pore_invasion_pressure (v : list float) (o : t) : t :=
  mk (settings o) v (throat_invasion_pressure o) (pore_invasion_sequence o)
     (throat_invasion_sequence o) (pore_inlets o) (pore_outlets o)
     (pore_residual o) (throat_residual o) (pore_entry_pressure o)
     (throat_entry_pressure o).

Definition set_throat_invasion_pressure (v : list float) (o : t) : t :=
  mk (settings o) (pore_invasion_pressure o) v (pore_invasion_sequence o)
     (throat_invasion_sequence o) (pore_inlets o) (pore_outlets o)
     (pore_residual o) (throat_residual o) (pore_entry_pressure o)
     (throat_entry_pressure o).

Definition set_pore_invasion_sequence (v : list Z) (o : t) : t :=
  mk (settings o) (pore_invasion_pressure o) (throat_invasion_pressure o) v
     (throat_invasion_sequence o) (pore_inlets o) (pore_outlets o)
     (pore_residual o) (throat_residual o) (pore_entry_pressure o)
     (throat_entry_pressure o).

Definition set_throat_invasion_sequence (v : list Z) (o : t) : t :=
  mk (settings o) (pore_invasion_pressure o) (throat_invasion_pressure o)
     (pore_invasion_sequence o) v (pore_inlets o) (pore_outlets o)
     (pore_residual o) (throat_residual o) (pore_entry_pressure o)
     (throat_entry_pressure o).

Definition set_pore_entry_pressure (v : list float) (o : t) : t :=
  mk (settings o) (pore_invasion_pressure o) (throat_invasion_pressure o)
     (pore_invasion_sequence o) (throat_invasion_sequence o) (pore_inlets o)
     (pore_outlets o) (pore_residual o) (throat_residual o) (Some v)
     (throat_entry_pressure o).

Definition set_throat_entry_pressure (v : list float) (o : t) : t :=
  mk (settings o) (pore_invasion_pressure o) (throat_invasion_pressure o)
     (pore_invasion_sequence o) (throat_invasion_sequence o) (pore_inlets o)
     (pore_outlets o) (pore_residual o) (throat_residual o)
     (pore_entry_pressure o) (Some v).

(** [self[key]] for an array that may not have been set *)
Definition self_item {A} (key : string) (v : option A) : result A :=
  match v with
  | Some a => Ok a
  | None => Raise (KeyError key)
  end.

(** [reset]: every array back to its initial value, over the whole
    network. *)
Definition reset (proj : Project) : M state unit :=
  update_self (fun o =>
    mk (settings o)
       (repeat PInf (num_pores proj)) (repeat PInf (num_throats proj))
       (repeat (-1)%Z (num_pores proj)) (repeat (-1)%Z (num_throats proj))
       (repeat false (num_pores proj)) (repeat false (num_pores proj))
       (repeat false (num_pores proj)) (repeat false (num_throats proj))
       (pore_entry_pressure o) (throat_entry_pressure o)).

(** ** [run] *)

(** The [points] argument: [type(points) is int], or an array. *)
Inductive Points : Type :=
| PInt (n : Z)
| PArray (a : list float).

(** Lines 143-149 (and 154-160): the pressure points generated from a
    count. *)
Definition auto_points (entry : list float) (points : Z)
  (start stop : option float) : result (list float) :=
  start <~ match start with
           | None => (m <~ amin entry ;; Ok (fmul m (Fin 0.95)))
           | Some s => Ok s
           end ;;
  stop <~ match stop with
          | None => (m <~ amax entry ;; Ok (fmul m (Fin 1.05)))
          | Some s => Ok s
          end ;;
  logspace (log10 (py_max (Fin 1) start)) (log10 stop) points.

(** Lines 137-162: parse inputs and generate the list of invasion points
    if necessary. *)
Definition parse_points (proj : Project) (points : Points)
  (start stop : option float) : M state (list float) :=
  w <- get ;;
  let s := settings (self w) in
  if String.eqb (mode s) "bond" then
    e <- lift (dict_item (phase proj) (throat_entry_pressure_key s)) ;;
    update_self (set_throat_entry_pressure e) ;;;
    match points with
    | PInt n => lift (auto_points e n start stop)
    | PArray a => ret a
    end
  else if String.eqb (mode s) "site" then
    e <- lift (dict_item (phase proj) (pore_entry_pressure_key s)) ;;
    update_self (set_pore_entry_pressure e) ;;;
    match points with
    | PInt n => lift (auto_points e n start stop)
    | PArray a => ret a
    end
  else raise (Exception "Percolation type has not been set").

(** Lines 163-168: [Pin] is bound only under access limitation. *)
Definition check_inlets : M state (option (list bool)) :=
  w <- get ;;
  if access_limited (settings (self w)) then
    if (sum_bool (pore_inlets (self w)) =? 0)%Z
    then raise (Exception "Inlet pores must be specified first")
    else ret (Some (pore_inlets (self w)))
  else ret None.

Section Engine.

Context {topo : Interface}.

(** Lines 173-178 *)
Definition label_clusters (proj : Project) (inv_val : float)
  : M state cluster_labels :=
  w <- get ;;
  let s := settings (self w) in
  if String.eqb (mode s) "bond" then
    e <- lift (self_item "throat.entry_pressure" (throat_entry_pressure (self w))) ;;
    let t_invaded := map (fun x => fle x inv_val) e in
    ret (bond_percolation (conns proj) t_invaded)
  else if String.eqb (mode s) "site" then
    e <- lift (self_item "pore.entry_pressure" (pore_entry_pressure (self w))) ;;
    let p_invaded := map (fun x => fle x inv_val) e in
    ret (site_percolation (conns proj) p_invaded)
  else raise (UnboundLocalError "labels").

(** Lines 180-183 *)
Definition filter_clusters (Pin : option (list bool)) (labels : cluster_labels)
  : M state cluster_labels :=
  w <- get ;;
  if access_limited (settings (self w)) then
    match Pin with
    | Some inlets => ret (remove_isolated_clusters labels inlets)
    | None => raise (UnboundLocalError "Pin")
    end
  else ret labels.

(** [(invasion_pressure == inf) * (labels >= 0)] *)
Definition newly_invaded (invasion_pressure : list float) (labels : list Z)
  : result (list bool) :=
  elementwise andb (map (fun p => feq p PInf) invasion_pressure)
                   (map (fun l => (0 <=? l)%Z) labels).

(** Lines 185-192: store the applied pressure in the newly invaded pores,
    then in the newly invaded throats. *)
Definition record_invasion (labels : cluster_labels) (inv_val : float)
  : M state unit :=
  w <- get ;;
  pinds <- lift (newly_invaded (pore_invasion_pressure (self w)) (sites labels)) ;;
  p <- lift (setmask (pore_invasion_pressure (self w)) pinds inv_val) ;;
  update_self (set_pore_invasion_pressure p) ;;;
  w <- get ;;
  tinds <- lift (newly_invaded (throat_invasion_pressure (self w)) (bonds labels)) ;;
  q <- lift (setmask (throat_invasion_pressure (self w)) tinds inv_val) ;;
  update_self (set_throat_invasion_pressure q).

(** The body of the loop over the points, lines 172-192. *)
Definition sweep_step (proj : Project) (Pin : option (list bool))
  (inv_val : float) : M state unit :=
  labels <- label_clusters proj inv_val ;;
  labels <- filter_clusters Pin labels ;;
  record_invasion labels inv_val.

(** Lines 194-200: convert invasion pressures in sequence values. *)
Definition convert_sequences : M state unit :=
  w <- get ;;
  let Pinv := pore_invasion_pressure (self w) in
  let Tinv := throat_invasion_pressure (self w) in
  let Pseq := searchsorted (unique Pinv) Pinv in
  let Tseq := searchsorted (unique Tinv) Tinv in
  update_self (set_pore_invasion_sequence Pseq) ;;;
  update_self (set_throat_invasion_sequence Tseq).

Definition run (proj : Project) (points : Points) (start stop : option float)
  : M state unit :=
  points <- parse_points proj points start stop ;;
  Pin <- check_inlets ;;
  for_each points (sweep_step proj Pin) ;;;
  convert_sequences.

(** ** [get_percolation_threshold], [is_percolating], [results] *)

Definition get_percolation_threshold : M state float :=
  w <- get ;;
  if (sum_bool (pore_inlets (self w)) =? 0)%Z
  then raise (Exception "Inlet pores must be specified first")
  else if (sum_bool (pore_outlets (self w)) =? 0)%Z
  then raise (Exception "Outlet pores must be specified first")
  else
    let Pout := pore_outlets (self w) in
    if access_limited (settings (self w)) then
      sel <- lift (getmask (pore_invasion_pressure (self w)) Pout) ;;
      lift (amin sel)
    else raise (Exception "This is currently only implemented for access limited simulations").

Definition is_percolating (proj : Project) (applied_pressure : float)
  : M state bool :=
  w <- get ;;
  if (sum_bool (pore_inlets (self w)) =? 0)%Z
  then raise (Exception "Inlet pores must be specified first")
  else
    let Pin := pore_inlets (self w) in
    if (sum_bool (pore_outlets (self w)) =? 0)%Z
    then raise (Exception "Outlet pores must be specified first")
    else
      let Pout := pore_outlets (self w) in
      sel <- lift (getmask (pore_invasion_pressure (self w)) Pout) ;;
      lowest <- lift (amin sel) ;;
      if fgt lowest applied_pressure then ret false
      else
        let mask := map (fun p => flt p applied_pressure)
                        (throat_invasion_pressure (self w)) in
        log_call (ConnectivityCheck mask) ;;;
        let am := create_adjacency_matrix (conns proj) mask in
        ret (_is_percolating am (mode (settings (self w))) Pin Pout).

End Engine.

(** The dictionary [inv_phase] returned by [results]. *)
Record inv_phase : Type := mk_inv_phase {
  pore_occupancy : list float;
  throat_occupancy : list float
}.

(** [sp.array(mask, dtype=float)] *)
Definition as_float (mask : list bool) : list float :=
  map (fun b : bool => if b then Fin 1 else Fin 0) mask.

Definition results (Pc : float) : M state inv_phase :=
  w <- get ;;
  let Psatn := map (fun p => fle p Pc) (pore_invasion_pressure (self w)) in
  let Tsatn := map (fun p => fle p Pc) (throat_invasion_pressure (self w)) in
  ret {| pore_occupancy := as_float Psatn; throat_occupancy := as_float Tsatn |}.

(** ** Vocabulary of the properties *)

Section Vocabulary.

Context {topo : Interface}.

(** The labels the body of the loop records from at the threshold
    [inv_val]: those of the labeller, after the optional filter. *)
Definition labels_at (proj : Project) (Pin : option (list bool)) (w : state)
  (inv_val : float) : result cluster_labels :=
  fst ((labels <- label_clusters proj inv_val ;; filter_clusters Pin labels) w).

(** Element [i] carries a non-negative label. *)
Definition labelled (labels : list Z) (i : nat) : bool :=
  match nth_error labels i with
  | Some l => (0 <=? l)%Z
  | None => false
  end.

Definition pore_labelled (proj : Project) (Pin : option (list bool))
  (w : state) (i : nat) (inv_val : float) : bool :=
  match labels_at proj Pin w inv_val with
  | Ok labels => labelled (sites labels) i
  | Raise _ => false
  end.

Definition throat_labelled (proj : Project) (Pin : option (list bool))
  (w : state) (i : nat) (inv_val : float) : bool :=
  match labels_at proj Pin w inv_val with
  | Ok labels => labelled (bonds labels) i
  | Raise _ => false
  end.

(** The first point other than [+inf] at which [invaded] holds, and
    [+inf] when there is none. *)
Fixpoint first_invaded (invaded : float -> bool) (points : list float) : float :=
  match points with
  | [] => PInf
  | p :: rest =>
      if invaded p && fne p PInf then p else first_invaded invaded rest
  end.

(** [p] is the first of the [points] at which [invaded] holds. *)
Definition first_at (invaded : float -> bool) (points : list float)
  (p : float) : Prop :=
  exists before after,
    points = before ++ p :: after /\
    invaded p = true /\
    forall v, In v before -> invaded v = false.

(** A sweep of increasing pressures: no point is below its
    predecessor. *)
Definition ascending (points : list float) : Prop :=
  Sorted (fun a b => fle a b = true) points.

End Vocabulary.

(** What the sweep over the points leaves untouched. *)
Definition frame (w : state) :=
  (settings (self w), pore_entry_pressure (self w),
   throat_entry_pressure (self w), pore_inlets (self w),
   (pore_outlets (self w), pore_residual (self w), throat_residual (self w),
    pore_invasion_sequence (self w), throat_invasion_sequence (self w), calls w)).

(** The array that [a[(a == inf) * (labels >= 0)] = v] leaves behind. *)
Definition recorded (a : list float) (labels : list Z) (v : float) : list float :=
  map2 (fun x (m : bool) => if m then v else x) a
       (map2 andb (map (fun p => feq p PInf) a) (map (fun l => (0 <=? l)%Z) labels)).

(** [entry] is the entry-pressure array of the active mode: the throat
    entry pressures of the phase in bond mode, the pore entry pressures
    in site mode. *)
Definition active_entry_pressure (proj : Project) (w : state) (entry : list float)
  : Prop :=
  (mode (settings (self w)) = "bond" /\
   dict_item (phase proj) (throat_entry_pressure_key (settings (self w)))
     = Ok entry) \/
  (mode (settings (self w)) = "site" /\
   dict_item (phase proj) (pore_entry_pressure_key (settings (self w)))
     = Ok entry).

(** The number of entries of the sorted unique pressures that lie below
    [+inf]. *)
Definition distinct_below_inf (invasion_pressure : list float) : Z :=
  Z.of_nat (length (filter (fun x => flt x PInf) (unique invasion_pressure))).

(** What [run] has no business with: the settings, the inlets and
    outlets, the residual masks and the record of the connectivity
    computations. *)
Definition configuration (w : state) :=
  (settings (self w), pore_inlets (self w), pore_outlets (self w),
   pore_residual (self w), throat_residual (self w), calls w).

(** ** [get_percolation_data] *)

(** An array of volumes: every entry is finite and not negative. *)
Definition volumes (vol : list float) : Prop :=
  Forall (fun v => exists x, v = Fin x /\ (0 <= x)%R) vol.

(** An array of whole volumes: every entry is a whole number that is not
    negative.  Sums of such entries that stay below 2^53 are exact in
    double precision, in whatever order they are added. *)
Definition whole_volumes (vol : list float) : Prop :=
  Forall (fun v => exists z, v = Fin (IZR z) /\ (0 <= z)%Z) vol.

(** The named tuple [pc_curve(Pcap, Snwp)]. *)
Record pc_curve : Type := mk_pc_curve {
  Pcap : list float;
  Snwp : list float
}.

(** Lines 309-316: the volume array named by the setting, or the default
    when the setting is the empty string. *)
Definition volume_array (network : dict (list float)) (key : string)
  (default : list float) : result (list float) :=
  if String.eqb key "" then Ok default else dict_item network key.

(** [np.sum(vol[invasion_pressure <= p])] *)
Definition filled_volume (vol : list float) (invasion_pressure : list float)
  (p : float) : result float :=
  sel <~ getmask vol (map (fun x => fle x p) invasion_pressure) ;;
  Ok (fsum sel).

(** [get_percolation_data]; [network] holds the arrays of
    [self.project.network], and [self.Np], [self.Nt] are the numbers of
    pores and throats of the project. *)
Definition get_percolation_data (proj : Project) (network : dict (list float))
  : M state pc_curve :=
  w <- get ;;
  let points := unique (throat_invasion_pressure (self w)) in
  let points := Fin 0 :: points in
  let points :=
    if feq (last points NaN) PInf then removelast points else points in
  Pvol <- lift (volume_array network (pore_volume (settings (self w)))
                             (repeat (Fin 1) (num_pores proj))) ;;
  Tvol <- lift (volume_array network (throat_volume (settings (self w)))
                             (repeat (Fin 0) (num_throats proj))) ;;
  let Total_vol := fadd (fsum Pvol) (fsum Tvol) in
  Vnwp_all <- lift (map_r (fun p =>
                      Vp <~ filled_volume Pvol (pore_invasion_pressure (self w)) p ;;
                      Vt <~ filled_volume Tvol (throat_invasion_pressure (self w)) p ;;
                      Ok (fadd Vp Vt)) points) ;;
  let Snwp_all := map (fun V => fdiv V Total_vol) Vnwp_all in
  ret {| Pcap := points; Snwp := Snwp_all |}.

End OrdinaryPercolation.

(* ================================================================== *)
(** * OpenPNM/Utilities/__Tools__.py: label queries                    *)
(* ================================================================== *)

Module Tools.

Import Np.
Local Open Scope py_scope.

Inductive element : Type := pore | throat.

(** [self._pore_info] and [self._throat_info]: a boolean array per
    label. *)
Record t : Type := mk {
  _pore_info : dict (list bool);
  _throat_info : dict (list bool)
}.

(** [getattr(self, '_' + element + '_info')] *)
Definition info_of (self : t) (e : element) : dict (list bool) :=
  match e with
  | pore => _pore_info self
  | throat => _throat_info self
  end.

(** What an index query returns: a boolean mask, or the indices where
    the mask holds. *)
Inductive ind : Type :=
| Mask (m : list bool)
| Indices (i : list nat).

(** [_get_info(element, label)] with [return_indices=False], the form
    [_get_indices] calls. *)
Definition _get_info (self : t) (e : element) (label : string)
  : result (list bool) :=
  dict_item (info_of self e) label.

(** [for item in labels: acc = step acc info[item]] *)
Fixpoint over_labels {A} (self : t) (e : element)
  (step : A -> list bool -> result A) (labels : list string) (acc : A)
  : result A :=
  match labels with
  | [] => Ok acc
  | item :: rest =>
      info <~ _get_info self e item ;;
      acc' <~ step acc info ;;
      over_labels self e step rest acc'
  end.

(** [sp.int8(info)] *)
Definition int8 (info : list bool) : list Z :=
  map (fun b : bool => if b then 1%Z else 0%Z) info.

(** [_get_indices]; [labels] is a list of label names (an object with a
    [name] attribute is not modelled).  The counters of the modes
    'not_intersection' and 'none' are integer arrays; a counter is
    bounded by the number of labels, far below the range of the integer
    type, and is kept in [Z]. *)
Definition _get_indices (self : t) (e : element) (labels : list string)
  (return_indices : bool) (mode : string) : result ind :=
  ind <~
    (if String.eqb mode "union" then
       all <~ _get_info self e "all" ;;
       over_labels self e (fun union info => elementwise orb union info)
                   labels (map (fun _ => false) all)
     else if String.eqb mode "intersection" then
       all <~ _get_info self e "all" ;;
       over_labels self e (fun intersect info => elementwise andb intersect info)
                   labels (map (fun _ => true) all)
     else if String.eqb mode "not_intersection" then
       all <~ _get_info self e "all" ;;
       not_intersect <~
         over_labels self e
           (fun not_intersect info => elementwise Z.add not_intersect (int8 info))
           labels (map (fun _ => 0%Z) all) ;;
       Ok (map (fun c => (c =? 1)%Z) not_intersect)
     else if String.eqb mode "none" then
       all <~ _get_info self e "all" ;;
       none <~
         over_labels self e
           (fun none info => elementwise Z.sub none (int8 info))
           labels (map (fun _ => 0%Z) all) ;;
       Ok (map (fun c => (c =? 0)%Z) none)
     else Raise (UnboundLocalError "ind")) ;;
  if return_indices then Ok (Indices (where_true ind)) else Ok (Mask ind).

(** The [labels] argument of the public methods: a string or a list. *)
Inductive Labels : Type :=
| LStr (s : string)
| LList (l : list string).

(** [if type(labels) == str: labels = [labels]] *)
Definition as_list (labels : Labels) : list string :=
  match labels with
  | LStr s => [s]
  | LList l => l
  end.

Definition pores (self : t) (labels : Labels) (return_indices : bool)
  (mode : string) : result ind :=
  _get_indices self pore (as_list labels) return_indices mode.

Definition throats (self : t) (labels : Labels) (return_indices : bool)
  (mode : string) : result ind :=
  _get_indices self throat (as_list labels) return_indices mode.

Definition get_pore_indices (self : t) (labels : Labels)
  (return_indices : bool) (mode : string) : result ind :=
  pores self labels return_indices mode.

Definition get_throat_indices (self : t) (labels : Labels)
  (return_indices : bool) (mode : string) : result ind :=
  throats self labels return_indices mode.

(** [sp.sum(temp)]: the number of Trues of a mask (the sum of the
    entries of an index array). *)
Definition sum_ind (temp : ind) : Z :=
  match temp with
  | Mask m => sum_bool m
  | Indices i => fold_right (fun k acc => (Z.of_nat k + acc)%Z) 0%Z i
  end.

Definition num_pores (self : t) (labels : Labels) (mode : string) : result Z :=
  temp <~ get_pore_indices self (LList (as_list labels)) false mode ;;
  Ok (sum_ind temp).

Definition num_throats (self : t) (labels : Labels) (mode : string) : result Z :=
  temp <~ get_throat_indices self (LList (as_list labels)) false mode ;;
  Ok (sum_ind temp).

(** ** Vocabulary of the properties *)

(** The index query and the count, by kind of element. *)
Definition query (self : t) (e : element) :=
  match e with
  | pore => pores self
  | throat => throats self
  end.

Definition count (self : t) (e : element) :=
  match e with
  | pore => num_pores self
  | throat => num_throats self
  end.

(** Element [i] carries the label. *)
Definition carries (self : t) (e : element) (label : string) (i : nat) : Prop :=
  exists m, dict_get (info_of self e) label = Some m /\ nth_error m i = Some true.

(** Element [i] carries exactly one of the labels of [L]. *)
Definition carries_exactly_one (self : t) (e : element) (L : list string)
  (i : nat) : Prop :=
  exists l, In l L /\ carries self e l i /\
            forall l', In l' L -> carries self e l' i -> l' = l.

(** The label is defined, over [N] elements. *)
Definition defined_label (self : t) (e : element) (N : nat) (label : string)
  : Prop :=
  exists m, dict_get (info_of self e) label = Some m /\ length m = N.

Definition carriesb (self : t) (e : element) (label : string) (i : nat) : bool :=
  match dict_get (info_of self e) label with
  | Some m => nth i m false
  | None => false
  end.

(** How many entries of [L] label the element [i]. *)
Fixpoint carried (self : t) (e : element) (L : list string) (i : nat) : Z :=
  match L with
  | [] => 0%Z
  | l :: rest =>
      ((if carriesb self e l i then 1 else 0) + carried self e rest i)%Z
  end.

End Tools.

(* ================================================================== *)
(** * openpnm/algorithms/RelativePermeability.py                       *)
(* ================================================================== *)

Module RelativePermeability.

Import Np.
Local Open Scope py_scope.

(** ** Python lists of strings, by reference *)

(** The address of a list object, and the store of list objects.  The
    caller of [setup] and [self.settings['input_vect']] hold the same
    address. *)
Definition loc : Type := nat.

Definition heap : Type := loc -> list string.

Definition heap_set (h : heap) (l : loc) (v : list string) : heap :=
  fun l' => if Nat.eqb l' l then v else h l'.

(** [list.sort()] on strings: ascending in the order of [str], which is
    lexicographic. *)
Fixpoint insert_str (x : string) (l : list string) : list string :=
  match l with
  | [] => [x]
  | y :: t => if String.leb x y then x :: l else y :: insert_str x t
  end.

Definition py_sort (l : list string) : list string :=
  fold_right insert_str [] l.

(** [s[i]], a string of one character *)
Definition char_at (s : string) (i : nat) : result string :=
  match String.get i s with
  | Some c => Ok (String c EmptyString)
  | None => Raise (IndexError "string index out of range")
  end.

(** ** The phases and the collaborators *)

Inductive phase_name : Type := water | oil.

(** What the orchestrator writes on a phase object: the two occupancy
    arrays, and the mode of the model
    ['throat.conduit_hydraulic_conductance'] once it was added. *)
Record phase : Type := mk_phase {
  name : phase_name;
  pore_occupancy : option (list float);
  throat_occupancy : option (list float);
  conduit_mode : option string
}.

Definition new_phase (n : phase_name) : phase :=
  {| name := n; pore_occupancy := None; throat_occupancy := None;
     conduit_mode := None |}.

(** The dictionary returned by [inv.results(Snwp=...)]. *)
Record inv_results : Type := mk_results {
  res_pore_occupancy : list float;
  res_throat_occupancy : list float
}.

(** The network, the invasion percolation algorithm and the flow solver.
    [calc_effective_permeability ph conduit bc1 bc2 inlets outlets] stands
    for a [StokesFlow] on the phase [ph] (with the conduit conductance if
    [conduit]), fixed values 1 on [bc1] and 0 on [bc2], after [run()]. *)
Class Collaborators : Type := {
  network_pores : string -> list nat;
  invasion : Type;
  new_invasion : invasion;
  set_inlets : list nat -> invasion -> invasion;
  invasion_run : invasion -> invasion;
  invasion_results : float -> invasion -> inv_results;
  calc_effective_permeability :
    phase -> bool -> list nat -> list nat -> list nat -> list nat -> float
}.

(** The calls the orchestrator makes on its collaborators. *)
Inductive event : Type :=
| FlowSolve (ph : phase_name) (conduit : bool) (dim : string)
| Purge (ph : phase_name)
| InvasionRun (pair : string).

(** ** The object *)

(** [self.settings] *)
Record t : Type := mk {
  inv_inlets : dict string;
  flow_inlets : dict string;
  flow_outlets : dict string;
  mode : string;
  sat : dict (list float);
  relperm_wp : dict (list float);
  relperm_nwp : dict (list float);
  perm_wp : dict float;
  perm_nwp : dict float;
  wp : option phase;
  nwp : option phase;
  BP_1 : dict string;
  BP_2 : dict string;
  input_vect : option loc
}.

Definition default_settings : t := {|
  inv_inlets := []; flow_inlets := []; flow_outlets := [];
  mode := "strict";
  sat := []; relperm_wp := []; relperm_nwp := [];
  perm_wp := []; perm_nwp := [];
  wp := None; nwp := None;
  BP_1 := []; BP_2 := [];
  input_vect := None
|}.

Record state : Type := mk_state {
  self : t;
  lists : heap;
  log : list event
}.

Definition update_self (f : t -> t) : M state unit :=
  modify (fun w => {| self := f (self w); lists := lists w; log := log w |}).

Definition emit (e : event) : M state unit :=
  modify (fun w => {| self := self w; lists := lists w; log := log w ++ [e] |}).

Definition set_inv_inlets (f : dict string -> dict string) (o : t) : t :=
  mk (f (inv_inlets o)) (flow_inlets o) (flow_outlets o) (mode o) (sat o)
     (relperm_wp o) (relperm_nwp o) (perm_wp o) (perm_nwp o) (wp o) (nwp o)
     (BP_1 o) (BP_2 o) (input_vect o).

Definition set_flow_inlets (f : dict string -> dict string) (o : t) : t :=
  mk (inv_inlets o) (f (flow_inlets o)) (flow_outlets o) (mode o) (sat o)
     (relperm_wp o) (relperm_nwp o) (perm_wp o) (perm_nwp o) (wp o) (nwp o)
     (BP_1 o) (BP_2 o) (input_vect o).

Definition set_flow_outlets (f : dict string -> dict string) (o : t) : t :=
  mk (inv_inlets o) (flow_inlets o) (f (flow_outlets o)) (mode o) (sat o)
     (relperm_wp o) (relperm_nwp o) (perm_wp o) (perm_nwp o) (wp o) (nwp o)
     (BP_1 o) (BP_2 o) (input_vect o).

Definition set_sat (f : dict (list float) -> dict (list float)) (o : t) : t :=
  mk (inv_inlets o) (flow_inlets o) (flow_outlets o) (mode o) (f (sat o))
     (relperm_wp o) (relperm_nwp o) (perm_wp o) (perm_nwp o) (wp o) (nwp o)
     (BP_1 o) (BP_2 o) (input_vect o).

Definition set_relperm_wp (f : dict (list float) -> dict (list float)) (o : t) : t :=
  mk (inv_inlets o) (flow_inlets o) (flow_outlets o) (mode o) (sat o)
     (f (relperm_wp o)) (relperm_nwp o) (perm_wp o) (perm_nwp o) (wp o) (nwp o)
     (BP_1 o) (BP_2 o) (input_vect o).

Definition set_relperm_nwp (f : dict (list float) -> dict (list float)) (o : t) : t :=
  mk (inv_inlets o) (flow_inlets o) (flow_outlets o) (mode o) (sat o)
     (relperm_wp o) (f (relperm_nwp o)) (perm_wp o) (perm_nwp o) (wp o) (nwp o)
     (BP_1 o) (BP_2 o) (input_vect o).

Definition set_perm_wp (f : dict float -> dict float) (o : t) : t :=
  mk (inv_inlets o) (flow_inlets o) (flow_outlets o) (mode o) (sat o)
     (relperm_wp o) (relperm_nwp o) (f (perm_wp o)) (perm_nwp o) (wp o) (nwp o)
     (BP_1 o) (BP_2 o) (input_vect o).

Definition set_perm_nwp (f : dict float -> dict float) (o : t) : t :=
  mk (inv_inlets o) (flow_inlets o) (flow_outlets o) (mode o) (sat o)
     (relperm_wp o) (relperm_nwp o) (perm_wp o) (f (perm_nwp o)) (wp o) (nwp o)
     (BP_1 o) (BP_2 o) (input_vect o).

Definition set_wp (v : option phase) (o : t) : t :=
  mk (inv_inlets o) (flow_inlets o) (flow_outlets o) (mode o) (sat o)
     (relperm_wp o) (relperm_nwp o) (perm_wp o) (perm_nwp o) v (nwp o)
     (BP_1 o) (BP_2 o) (input_vect o).

Definition set_nwp (v : option phase) (o : t) : t :=
  mk (inv_inlets o) (flow_inlets o) (flow_outlets o) (mode o) (sat o)
     (relperm_wp o) (relperm_nwp o) (perm_wp o) (perm_nwp o) (wp o) v
     (BP_1 o) (BP_2 o) (input_vect o).

Definition set_BP_1 (f : dict string -> dict string) (o : t) : t :=
  mk (inv_inlets o) (flow_inlets o) (flow_outlets o) (mode o) (sat o)
     (relperm_wp o) (relperm_nwp o) (perm_wp o) (perm_nwp o) (wp o) (nwp o)
     (f (BP_1 o)) (BP_2 o) (input_vect o).

Definition set_BP_2 (f : dict string -> dict string) (o : t) : t :=
  mk (inv_inlets o) (flow_inlets o) (flow_outlets o) (mode o) (sat o)
     (relperm_wp o) (relperm_nwp o) (perm_wp o) (perm_nwp o) (wp o) (nwp o)
     (BP_1 o) (f (BP_2 o)) (input_vect o).

Definition set_input_vect (v : loc) (o : t) : t :=
  mk (inv_inlets o) (flow_inlets o) (flow_outlets o) (mode o) (sat o)
     (relperm_wp o) (relperm_nwp o) (perm_wp o) (perm_nwp o) (wp o) (nwp o)
     (BP_1 o) (BP_2 o) (Some v).

(** [self.settings['wp']] and ['nwp'] hold the empty list until
    [setup_ip_algs] stores the phases there. *)
Definition the_phase (key : string) (v : option phase) : result phase :=
  match v with
  | Some ph => Ok ph
  | None => Raise (Exception ("settings['" ++ key ++ "'] is not a phase"))
  end.

Definition set_occupancy (pore_occ throat_occ : list float) (ph : phase) : phase :=
  {| name := name ph; pore_occupancy := Some pore_occ;
     throat_occupancy := Some throat_occ; conduit_mode := conduit_mode ph |}.

(** [add_model(model=conduit_conductance, ..., mode=mode)] *)
Definition add_conduit_model (m : string) (ph : phase) : phase :=
  {| name := name ph; pore_occupancy := pore_occupancy ph;
     throat_occupancy := throat_occupancy ph; conduit_mode := Some m |}.

(** [1 - a] *)
Definition one_minus (a : list float) : list float :=
  map (fun x => fsub (Fin 1) x) a.

(** [[l[x] for x in range(0, len(l), 2)]] *)
Fixpoint every_other {A} (l : list A) : list A :=
  match l with
  | [] => []
  | x :: t => x :: match t with
                   | [] => []
                   | _ :: t' => every_other t'
                   end
  end.

Definition inlet_dict : dict string := [("x", "left"); ("y", "front"); ("z", "top")].
Definition outlet_dict : dict string := [("x", "right"); ("y", "back"); ("z", "bottom")].

(** The local variables of the sweep over the saturations of one axis
    pair. *)
Record curves : Type := mk_curves {
  relperm_wp_list : list float;
  relperm_nwp_list : list float;
  Snwparr : list float
}.

Section Orchestrator.

Context {collab : Collaborators}.

(** [for dim in d: out.update({dim: network.pores(d[dim])})] *)
Definition pores_by_dim (d : dict string) : dict (list nat) :=
  fold_left (fun out kv => dict_set out (fst kv) (network_pores (snd kv))) d [].

(** [for key in d.keys(): out.update({key: every other entry of d[key]})] *)
Definition subsample (d : dict (list nat)) : dict (list nat) :=
  fold_left (fun out kv => dict_set out (fst kv) (every_other (snd kv))) d [].

(** One single-phase flow solve of lines 123-129 (and 130-136). *)
Definition baseline_solve (which : string) (v : t -> option phase)
  (store : string -> float -> t -> t)
  (Finlets_init Foutlets_init : dict (list nat)) (dim : string) : M state unit :=
  w <- get ;;
  ph <- lift (the_phase which (v (self w))) ;;
  bp1 <- lift (dict_item (BP_1 (self w)) dim) ;;
  bp2 <- lift (dict_item (BP_2 (self w)) dim) ;;
  emit (FlowSolve (name ph) false dim) ;;;
  inlets <- lift (dict_item Finlets_init dim) ;;
  outlets <- lift (dict_item Foutlets_init dim) ;;
  let val := calc_effective_permeability ph false (network_pores bp1)
               (network_pores bp2) inlets outlets in
  update_self (store dim val) ;;;
  emit (Purge (name ph)).

(** Lines 121-136: the body of [for dim in K_dir]. *)
Definition baseline (Finlets_init Foutlets_init : dict (list nat)) (dim : string)
  : M state unit :=
  baseline_solve "wp" wp (fun d val => set_perm_wp (fun p => dict_set p d val))
                 Finlets_init Foutlets_init dim ;;;
  baseline_solve "nwp" nwp (fun d val => set_perm_nwp (fun p => dict_set p d val))
                 Finlets_init Foutlets_init dim.

(** Lines 151-182: the branch taken when some throat is invaded. *)
Definition solve_point (flow : string)
  (Finlets_init Foutlets_init : dict (list nat)) (res1 : inv_results)
  (Snw : float) (c : curves) : M state curves :=
  let Snwparr' := Snwparr c ++ [Snw] in
  w <- get ;;
  oil_ph <- lift (the_phase "nwp" (nwp (self w))) ;;
  water_ph <- lift (the_phase "wp" (wp (self w))) ;;
  let oil_ph := set_occupancy (res_pore_occupancy res1)
                              (res_throat_occupancy res1) oil_ph in
  let water_ph := set_occupancy (one_minus (res_pore_occupancy res1))
                                (one_minus (res_throat_occupancy res1)) water_ph in
  let m := mode (self w) in
  let water_ph := add_conduit_model m water_ph in
  let oil_ph := add_conduit_model m oil_ph in
  update_self (set_nwp (Some oil_ph)) ;;;
  update_self (set_wp (Some water_ph)) ;;;
  bp1 <- lift (dict_item (BP_1 (self w)) flow) ;;
  bp2 <- lift (dict_item (BP_2 (self w)) flow) ;;
  emit (FlowSolve (name water_ph) true flow) ;;;
  emit (FlowSolve (name oil_ph) true flow) ;;;
  inlets <- lift (dict_item Finlets_init flow) ;;
  outlets <- lift (dict_item Foutlets_init flow) ;;
  let Keff_mp_wp := calc_effective_permeability water_ph true
                      (network_pores bp1) (network_pores bp2) inlets outlets in
  let Keff_mp_nwp := calc_effective_permeability oil_ph true
                       (network_pores bp1) (network_pores bp2) inlets outlets in
  k_wp <- lift (dict_item (perm_wp (self w)) flow) ;;
  let relperm_wp' := relperm_wp_list c ++ [fdiv Keff_mp_wp k_wp] in
  k_nwp <- lift (dict_item (perm_nwp (self w)) flow) ;;
  let relperm_nwp' := relperm_nwp_list c ++ [fdiv Keff_mp_nwp k_nwp] in
  emit (Purge (name water_ph)) ;;;
  emit (Purge (name oil_ph)) ;;;
  ret {| relperm_wp_list := relperm_wp';
         relperm_nwp_list := relperm_nwp';
         Snwparr := Snwparr' |}.

(** Lines 185-187: the three lists are stored under the axis pair. *)
Definition store_curves (pair : string) (c : curves) : M state unit :=
  update_self (set_relperm_wp (fun d => dict_set d pair (relperm_wp_list c))) ;;;
  update_self (set_relperm_nwp (fun d => dict_set d pair (relperm_nwp_list c))) ;;;
  update_self (set_sat (fun d => dict_set d pair (Snwparr c))).

(** Lines 146-187: the body of [for Snw in Sarr]. *)
Definition saturation_point (pair flow : string)
  (Finlets_init Foutlets_init : dict (list nat)) (inv : invasion)
  (c : curves) (Snw : float) : M state curves :=
  let res1 := invasion_results Snw inv in
  let occ_ts := res_throat_occupancy res1 in
  c' <- (if any_nonzero occ_ts
         then solve_point flow Finlets_init Foutlets_init res1 Snw c
         else ret c) ;;
  store_curves pair c' ;;;
  ret c'.

(** Lines 138-187: the body of the loop over the axis pairs; the
    invasion algorithm object is carried from one pair to the next. *)
Definition axis_pair (Sarr : list float)
  (Iinlets Finlets_init Foutlets_init : dict (list nat))
  (inv : invasion) (pair : string) : M state invasion :=
  invasion_dim <- lift (char_at pair 0) ;;
  flow <- lift (char_at pair 1) ;;
  inlets <- lift (dict_item Iinlets invasion_dim) ;;
  let inv := set_inlets inlets inv in
  let inv := invasion_run inv in
  emit (InvasionRun pair) ;;;
  fold_m Sarr (saturation_point pair flow Finlets_init Foutlets_init inv)
         {| relperm_wp_list := []; relperm_nwp_list := []; Snwparr := [] |} ;;;
  ret inv.

(** [setup_ip_algs].  [K_dir] is a set; it is walked here in the order of
    the keys of ['flow_inlets']. *)
Definition setup_ip_algs : M state unit :=
  update_self (set_nwp (Some (new_phase oil))) ;;;
  update_self (set_wp (Some (new_phase water))) ;;;
  w <- get ;;
  let Iinlets_init := pores_by_dim (inv_inlets (self w)) in
  let Iinlets := subsample Iinlets_init in
  let Foutlets_init := pores_by_dim (flow_outlets (self w)) in
  let Finlets_init := pores_by_dim (flow_inlets (self w)) in
  let inv := new_invasion in
  let K_dir := dict_keys (flow_inlets (self w)) in
  for_each K_dir (baseline Finlets_init Foutlets_init) ;;;
  Sarr <- lift (linspace (Fin 0) (Fin 1) 10) ;;
  w <- get ;;
  match input_vect (self w) with
  | None => raise (KeyError "input_vect")
  | Some l =>
      fold_m (lists w l) (axis_pair Sarr Iinlets Finlets_init Foutlets_init) inv ;;;
      ret tt
  end.

(** Lines 51-58: the body of the loop of [setup]. *)
Definition register_pair (pair : string) : M state unit :=
  inv <- lift (char_at pair 0) ;;
  flow <- lift (char_at pair 1) ;;
  v <- lift (dict_item inlet_dict flow) ;;
  update_self (set_BP_1 (fun d => dict_set d flow v)) ;;;
  v <- lift (dict_item outlet_dict flow) ;;
  update_self (set_BP_2 (fun d => dict_set d flow v)) ;;;
  v <- lift (dict_item inlet_dict inv) ;;
  update_self (set_inv_inlets (fun d => dict_set d inv v)) ;;;
  v <- lift (dict_item inlet_dict flow) ;;
  update_self (set_flow_inlets (fun d => dict_set d flow v)) ;;;
  v <- lift (dict_item outlet_dict flow) ;;
  update_self (set_flow_outlets (fun d => dict_set d flow v)).

(** [setup(input_vect)]: the argument is the address of the caller's
    list. *)
Definition setup (input_vect : loc) : M state unit :=
  modify (fun w => {| self := self w;
                      lists := heap_set (lists w) input_vect
                                        (py_sort (lists w input_vect));
                      log := log w |}) ;;;
  update_self (set_input_vect input_vect) ;;;
  w <- get ;;
  for_each (lists w input_vect) register_pair ;;;
  setup_ip_algs.

End Orchestrator.

(** ** Vocabulary of the properties *)

(** The axis pairs for which the invasion was run, in the order of the
    runs. *)
Definition pairs_swept (l : list event) : list string :=
  flat_map (fun ev => match ev with
                      | InvasionRun p => [p]
                      | _ => []
                      end) l.

(** Ten evenly spaced values from 0 to 1. *)
Definition ten_saturations : list float :=
  [Fin (0 / 9); Fin (1 / 9); Fin (2 / 9); Fin (3 / 9); Fin (4 / 9);
   Fin (5 / 9); Fin (6 / 9); Fin (7 / 9); Fin (8 / 9); Fin 1].

(** Every entry of the occupancy array is zero. *)
Definition all_zero (a : list float) : Prop :=
  Forall (fun x => x = Fin 0) a.

(** A step that leaves the list objects and the reference held in
    ['input_vect'] alone and, when it returns, has run the invasion for
    the axis pairs [ps], in this order. *)
Definition sweeps {A} (ps : list string) (m : M state A) : Prop :=
  forall w r w',
    m w = (r, w') ->
    lists w' = lists w /\
    input_vect (self w') = input_vect (self w) /\
    (forall a, r = Ok a -> pairs_swept (log w') = pairs_swept (log w) ++ ps).

(** A step that leaves the list objects and the reference held in
    ['input_vect'] alone and, when it returns, has run the invasion for
    the entries of the list that ['input_vect'] refers to, in the order
    of that list. *)
Definition sweeps_input_vect {A} (m : M state A) : Prop :=
  forall w r w',
    m w = (r, w') ->
    lists w' = lists w /\
    input_vect (self w') = input_vect (self w) /\
    (forall a, r = Ok a ->
       exists l, input_vect (self w) = Some l /\
                 pairs_swept (log w') = pairs_swept (log w) ++ lists w l).

(** The state of [setup_ip_algs] once the two phases are stored in the
    settings. *)
Definition with_phases (w : state) : state :=
  {| self := set_wp (Some (new_phase water))
               (set_nwp (Some (new_phase oil)) (self w));
     lists := lists w;
     log := log w |}.

(** The dictionary has the key. *)
Definition has {V} (d : dict V) (k : string) : Prop :=
  exists v, dict_get d k = Some v.

(** One of the three axes. *)
Definition axis (a : string) : Prop := a = "x" \/ a = "y" \/ a = "z".

(** An axis pair: an invasion axis followed by a flow axis. *)
Definition axis_pair_string (p : string) : Prop :=
  exists a b, char_at p 0 = Ok a /\ char_at p 1 = Ok b /\ axis a /\ axis b.

(** Every flow axis registered in ['flow_inlets'] is registered in
    ['BP_1'], ['BP_2'] and ['flow_outlets'] as well; so it is in a new
    object, and [setup] keeps it so. *)
Definition consistent (o : t) : Prop :=
  forall k, has (flow_inlets o) k ->
            has (BP_1 o) k /\ has (BP_2 o) k /\ has (flow_outlets o) k.

(** What the baseline solves need, and what they leave unchanged. *)
Definition solver_ready (Fi Fo : dict (list nat)) (w : state) (dim : string) : Prop :=
  (exists ph, wp (self w) = Some ph) /\
  (exists ph, nwp (self w) = Some ph) /\
  has (BP_1 (self w)) dim /\ has (BP_2 (self w)) dim /\
  has Fi dim /\ has Fo dim.

Definition same_setup (w w' : state) : Prop :=
  wp (self w') = wp (self w) /\ nwp (self w') = nwp (self w) /\
  BP_1 (self w') = BP_1 (self w) /\ BP_2 (self w') = BP_2 (self w).

(** The flow along [flow] can be solved in the state [w]: the two phases
    exist, and the boundary labels, the baseline permeabilities and the
    inlet and outlet pores of [flow] are known. *)
Definition solvable (Finlets_init Foutlets_init : dict (list nat))
  (w : state) (flow : string) : Prop :=
  (exists ph, wp (self w) = Some ph) /\
  (exists ph, nwp (self w) = Some ph) /\
  (exists v, dict_get (BP_1 (self w)) flow = Some v) /\
  (exists v, dict_get (BP_2 (self w)) flow = Some v) /\
  (exists v, dict_get (perm_wp (self w)) flow = Some v) /\
  (exists v, dict_get (perm_nwp (self w)) flow = Some v) /\
  (exists v, dict_get Finlets_init flow = Some v) /\
  (exists v, dict_get Foutlets_init flow = Some v).

(** Ascending in the order of [str]. *)
Definition leb_sorted (l : list string) : Prop :=
  Sorted (fun a b => String.leb a b = true) l.

(** The state [setup] works in once the caller's list is sorted and its
    address is stored. *)
Definition after_sort (input_vect : loc) (w : state) : state :=
  {| self := set_input_vect input_vect (self w);
     lists := heap_set (lists w) input_vect (py_sort (lists w input_vect));
     log := log w |}.

(** A step that, when it returns, has kept the property [I] of the
    settings. *)
Definition keeps {A} (I : t -> Prop) (m : M state A) : Prop :=
  forall w a w', m w = (Ok a, w') -> I (self w) -> I (self w').

(** The flow solves of the record that have been run and not yet purged
    from the project. *)
Definition unpurged (l : list event) : Z :=
  fold_right (fun ev n =>
                match ev with
                | FlowSolve _ _ _ => (n + 1)%Z
                | Purge _ => (n - 1)%Z
                | InvasionRun _ => n
                end) 0%Z l.

(** A step that, when it returns, has changed the number of unpurged
    flow solves by [n]. *)
Definition shifts {A} (n : Z) (m : M state A) : Prop :=
  forall w a w', m w = (Ok a, w') ->
                 unpurged (log w') = (unpurged (log w) + n)%Z.

(** The three lists of an axis pair have one entry per recorded
    saturation. *)
Definition aligned (c : curves) : Prop :=
  length (relperm_wp_list c) = length (Snwparr c) /\
  length (relperm_nwp_list c) = length (Snwparr c).

(** The three lists stored in the settings under an axis pair. *)
Definition curves_of (o : t) (pair : string) : option curves :=
  match dict_get (relperm_wp o) pair, dict_get (relperm_nwp o) pair,
        dict_get (sat o) pair with
  | Some kw, Some kn, Some s => Some (mk_curves kw kn s)
  | _, _, _ => None
  end.

(** Under the axis pair the settings hold three lists of one length,
    and the saturations among them are entries of [Sarr], in the order
    of [Sarr]. *)
Definition recorded_from (Sarr : list float) (o : t) (pair : string) : Prop :=
  exists c keep,
    curves_of o pair = Some c /\ aligned c /\
    length keep = length Sarr /\ Snwparr c = compress Sarr keep.

(** The two phases are water (wetting) and oil (non-wetting); water's
    occupancies are one minus oil's, and the two carry the conduit
    model in the same mode. *)
Definition complementary (o : t) : Prop :=
  exists pw pn,
    wp o = Some pw /\ nwp o = Some pn /\
    name pw = water /\ name pn = oil /\
    pore_occupancy pw = option_map one_minus (pore_occupancy pn) /\
    throat_occupancy pw = option_map one_minus (throat_occupancy pn) /\
    conduit_mode pw = conduit_mode pn.

End RelativePermeability.

(* ================================================================== *)
(** * OpenPNM/Utilities/__Tools__.py: [get_info] and the label listings *)
(* ================================================================== *)

Module Labels.

Import Np Tools.
Local Open Scope py_scope.

(** The [pores] or [throats] argument of [get_info] and [get_labels]:
    the string ['all'] or a list of indices (the default is the empty
    list). *)
Inductive Locations : Type :=
| All
| At (indices : list nat).

(** [locations != []] *)
Definition given (locations : Locations) : bool :=
  match locations with
  | All => true
  | At [] => false
  | At _ => true
  end.

(** [a[indices]] for a list of indices; an index past the end raises. *)
Definition take {A} (a : list A) (indices : list nat) : result (list A) :=
  map_r (fun i => match nth_error a i with
                  | Some x => Ok x
                  | None => Raise (IndexError "index is out of bounds")
                  end) indices.

(** [sp.in1d(a, b)] *)
Definition in1d (a b : list nat) : list bool :=
  map (fun x => existsb (Nat.eqb x) b) a.

(** An index array as the list of its entries. *)
Definition index_array (r : ind) : list nat :=
  match r with
  | Indices i => i
  | Mask m => where_true m
  end.

(** One branch of [get_info], lines 390-396 (and 398-404). *)
Definition get_info_of (self : t) (e : element) (label : string)
  (locations : Locations) (return_indices : bool) : result ind :=
  locations <~ match locations with
               | All => (r <~ query self e (LStr "all") true "union" ;;
                         Ok (index_array r))
               | At l => Ok l
               end ;;
  info <~ dict_item (info_of self e) label ;;
  if return_indices then
    let temp := where_true info in
    Ok (Indices (compress temp (in1d temp locations)))
  else
    sel <~ take info locations ;;
    Ok (Mask sel).

(** [get_info]; without pores and throats nothing is returned. *)
Definition get_info (self : t) (label : string) (pores throats : Locations)
  (return_indices : bool) : result (option ind) :=
  if given pores then
    r <~ get_info_of self pore label pores return_indices ;; Ok (Some r)
  else if given throats then
    r <~ get_info_of self throat label throats return_indices ;; Ok (Some r)
  else Ok None.

(** [list_pore_labels] and [list_throat_labels]: the names of the
    labels, sorted. *)
Definition list_labels (self : t) (e : element) : list string :=
  RelativePermeability.py_sort (dict_keys (info_of self e)).

Definition list_pore_labels (self : t) : list string := list_labels self pore.

Definition list_throat_labels (self : t) : list string := list_labels self throat.

(** What [_get_labels] returns, by [flatten] and [mode]. *)
Inductive labels_result : Type :=
| Counts (per_location : list Z)
| Names (labels : list string)
| Raw (rows : list (list bool))
| Lists (per_location : list (list string))
| Nothing.

(** [sp.sum(col)] of a boolean column *)
Definition column_sum (col : list bool) : Z := sum_bool col.

(** Row [i] of the array whose columns are [cols]. *)
Definition row (cols : list (list bool)) (i : nat) : list bool :=
  map (fun col => nth i col false) cols.

(** [labels[mask]] *)
Definition select (labels : list string) (mask : list bool) : list string :=
  compress labels mask.

(** [_get_labels]; the array [arr] is held by its columns, one per
    label. *)
Definition _get_labels (self : t) (e : element) (locations : list nat)
  (mode : string) (flatten : bool) : result labels_result :=
  let element_info := info_of self e in
  let labels := list_labels self e in
  cols <~ map_r (fun item =>
                   info <~ dict_item element_info item ;;
                   take info locations) labels ;;
  let n := length locations in
  let rows := map (row cols) (seq 0 n) in
  if flatten then
    if String.eqb mode "count" then
      Ok (Counts (map sum_bool rows))
    else if String.eqb mode "union" then
      Ok (Names (select labels (map (fun col => (0 <? column_sum col)%Z) cols)))
    else if String.eqb mode "intersection" then
      Ok (Names (select labels
                   (map (fun col => (column_sum col =? Z.of_nat n)%Z) cols)))
    else Ok Nothing
  else
    if String.eqb mode "raw" then Ok (Raw rows)
    else Ok (Lists (map (fun r => select labels r) rows)).

(** [get_labels]; the locations are lists of indices. *)
Definition get_labels (self : t) (pores throats : list nat) (mode : string)
  (flatten : bool) : result labels_result :=
  match pores, throats with
  | _ :: _, _ => _get_labels self pore pores mode flatten
  | [], _ :: _ => _get_labels self throat throats mode flatten
  | [], [] => Ok Nothing
  end.

End Labels.

(* ================================================================== *)
(** * Concrete networks and objects                                    *)
(* ================================================================== *)

Module Examples.

Import Np Topotools.

(** Three pores in a line, 0 - 1 - 2, joined by two throats whose entry
    pressures are 1 and 3. *)
Definition line3 : OrdinaryPercolation.Project := {|
  OrdinaryPercolation.num_pores := 3;
  OrdinaryPercolation.num_throats := 2;
  OrdinaryPercolation.conns := [(0, 1); (1, 2)]%nat;
  OrdinaryPercolation.phase :=
    [("throat.capillary_pressure", [Fin 1; Fin 3]);
     ("pore.capillary_pressure", [Fin 1; Fin 1; Fin 3])]
|}.

(** The algorithm object after [reset] and [set_inlets(pores=[0])],
    [set_outlets(pores=[2])], with the given settings. *)
Definition op_object (s : OrdinaryPercolation.Settings) : OrdinaryPercolation.t := {|
  OrdinaryPercolation.settings := s;
  OrdinaryPercolation.pore_invasion_pressure := [PInf; PInf; PInf];
  OrdinaryPercolation.throat_invasion_pressure := [PInf; PInf];
  OrdinaryPercolation.pore_invasion_sequence := [-1; -1; -1]%Z;
  OrdinaryPercolation.throat_invasion_sequence := [-1; -1]%Z;
  OrdinaryPercolation.pore_inlets := [true; false; false];
  OrdinaryPercolation.pore_outlets := [false; false; true];
  OrdinaryPercolation.pore_residual := [false; false; false];
  OrdinaryPercolation.throat_residual := [false; false];
  OrdinaryPercolation.pore_entry_pressure := None;
  OrdinaryPercolation.throat_entry_pressure := None
|}.

Definition fresh : OrdinaryPercolation.state := {|
  OrdinaryPercolation.self := op_object OrdinaryPercolation.default_settings;
  OrdinaryPercolation.calls := []
|}.

(** The same object with the mode set to 'vertex', which is neither
    'bond' nor 'site'. *)
Definition unconfigured : OrdinaryPercolation.state := {|
  OrdinaryPercolation.self :=
    op_object (OrdinaryPercolation.mk_settings true "vertex"
                 "pore.capillary_pressure" "throat.capillary_pressure" "" "");
  OrdinaryPercolation.calls := []
|}.

(** The object [fresh] after [run(points=[2])]: the first throat and its
    two pores are invaded at 2, the rest is not invaded. *)
Definition after_run_2 : OrdinaryPercolation.state := {|
  OrdinaryPercolation.self := {|
    OrdinaryPercolation.settings := OrdinaryPercolation.default_settings;
    OrdinaryPercolation.pore_invasion_pressure := [Fin 2; Fin 2; PInf];
    OrdinaryPercolation.throat_invasion_pressure := [Fin 2; PInf];
    OrdinaryPercolation.pore_invasion_sequence := [0; 0; 1]%Z;
    OrdinaryPercolation.throat_invasion_sequence := [0; 1]%Z;
    OrdinaryPercolation.pore_inlets := [true; false; false];
    OrdinaryPercolation.pore_outlets := [false; false; true];
    OrdinaryPercolation.pore_residual := [false; false; false];
    OrdinaryPercolation.throat_residual := [false; false];
    OrdinaryPercolation.pore_entry_pressure := None;
    OrdinaryPercolation.throat_entry_pressure := Some [Fin 1; Fin 3]
  |};
  OrdinaryPercolation.calls := []
|}.

(** The object [fresh] after [run(points=[2, 4])]. *)
Definition after_run_2_4 : OrdinaryPercolation.state := {|
  OrdinaryPercolation.self := {|
    OrdinaryPercolation.settings := OrdinaryPercolation.default_settings;
    OrdinaryPercolation.pore_invasion_pressure := [Fin 2; Fin 2; Fin 4];
    OrdinaryPercolation.throat_invasion_pressure := [Fin 2; Fin 4];
    OrdinaryPercolation.pore_invasion_sequence := [0; 0; 1]%Z;
    OrdinaryPercolation.throat_invasion_sequence := [0; 1]%Z;
    OrdinaryPercolation.pore_inlets := [true; false; false];
    OrdinaryPercolation.pore_outlets := [false; false; true];
    OrdinaryPercolation.pore_residual := [false; false; false];
    OrdinaryPercolation.throat_residual := [false; false];
    OrdinaryPercolation.pore_entry_pressure := None;
    OrdinaryPercolation.throat_entry_pressure := Some [Fin 1; Fin 3]
  |};
  OrdinaryPercolation.calls := []
|}.

(** The object [fresh] after [run(points=[5])], and after a second
    [run(points=[4])] without a [reset] in between: in both every pore
    and throat holds the pressure 5. *)
Definition after_run_5 : OrdinaryPercolation.state := {|
  OrdinaryPercolation.self := {|
    OrdinaryPercolation.settings := OrdinaryPercolation.default_settings;
    OrdinaryPercolation.pore_invasion_pressure := [Fin 5; Fin 5; Fin 5];
    OrdinaryPercolation.throat_invasion_pressure := [Fin 5; Fin 5];
    OrdinaryPercolation.pore_invasion_sequence := [0; 0; 0]%Z;
    OrdinaryPercolation.throat_invasion_sequence := [0; 0]%Z;
    OrdinaryPercolation.pore_inlets := [true; false; false];
    OrdinaryPercolation.pore_outlets := [false; false; true];
    OrdinaryPercolation.pore_residual := [false; false; false];
    OrdinaryPercolation.throat_residual := [false; false];
    OrdinaryPercolation.pore_entry_pressure := None;
    OrdinaryPercolation.throat_entry_pressure := Some [Fin 1; Fin 3]
  |};
  OrdinaryPercolation.calls := []
|}.

(** Four pores; the first two are labelled 'top', the second and the
    third 'front'. *)
Definition labelled_net : Tools.t := {|
  Tools._pore_info :=
    [("all", [true; true; true; true]);
     ("top", [true; true; false; false]);
     ("front", [false; true; true; false])];
  Tools._throat_info := [("all", [])]
|}.

(** Collaborators for a network of four pores in a row along x: the
    invasion algorithm remembers its inlets, fills the first two pores
    and the first throat for every positive target saturation and
    nothing for the target 0, and every flow solve reports the
    permeability 1. *)
Definition toy : RelativePermeability.Collaborators := {|
  RelativePermeability.network_pores := fun label =>
    if String.eqb label "left" then [0; 1]%nat
    else if String.eqb label "right" then [2; 3]%nat
    else [];
  RelativePermeability.invasion := list nat;
  RelativePermeability.new_invasion := [];
  RelativePermeability.set_inlets := fun pores _ => pores;
  RelativePermeability.invasion_run := fun inv => inv;
  RelativePermeability.invasion_results := fun Snw _ =>
    if flt (Fin 0) Snw
    then RelativePermeability.mk_results [Fin 1; Fin 1; Fin 0; Fin 0]
                                         [Fin 1; Fin 0; Fin 0]
    else RelativePermeability.mk_results [Fin 0; Fin 0; Fin 0; Fin 0]
                                         [Fin 0; Fin 0; Fin 0];
  RelativePermeability.calc_effective_permeability :=
    fun _ _ _ _ _ _ => Fin 1
|}.

(** A new orchestrator; the caller's list lives at address 0. *)
Definition orchestrator (input_vect : list string) : RelativePermeability.state := {|
  RelativePermeability.self := RelativePermeability.default_settings;
  RelativePermeability.lists := fun l => if Nat.eqb l 0 then input_vect else [];
  RelativePermeability.log := []
|}.

End Examples.

(* ================================================================== *)
(** * Facts about the numpy model                                      *)
(* ================================================================== *)

Module NpFacts.

Import Np.

(** ** Comparisons of reals *)

Lemma Rleb_true x y : Rleb x y = true <-> (x <= y)%R.
Proof. unfold Rleb; destruct (Rle_dec x y); split; intros; try easy; lra. Qed.

Lemma Rltb_true x y : Rltb x y = true <-> (x < y)%R.
Proof. unfold Rltb; destruct (Rlt_dec x y); split; intros; try easy; lra. Qed.

Lemma Reqb_true x y : Reqb x y = true <-> x = y.
Proof. unfold Reqb; destruct (Req_dec_T x y); split; intros; try easy. Qed.

Lemma Rleb_false x y : Rleb x y = false <-> (y < x)%R.
Proof. unfold Rleb; destruct (Rle_dec x y); split; intros; try easy; lra. Qed.

Lemma Rltb_false x y : Rltb x y = false <-> (y <= x)%R.
Proof. unfold Rltb; destruct (Rlt_dec x y); split; intros; try easy; lra. Qed.

Lemma Reqb_false x y : Reqb x y = false <-> x <> y.
Proof. unfold Reqb; destruct (Req_dec_T x y); split; intros; try easy. Qed.

(** On numerals the comparisons compute. *)

Lemma Rleb_IZR a b : Rleb (IZR a) (IZR b) = (a <=? b)%Z.
Proof.
  destruct (a <=? b)%Z eqn:E.
  - apply Rleb_true, IZR_le, Z.leb_le, E.
  - apply Rleb_false, IZR_lt, Z.leb_gt, E.
Qed.

Lemma Rltb_IZR a b : Rltb (IZR a) (IZR b) = (a <? b)%Z.
Proof.
  destruct (a <? b)%Z eqn:E.
  - apply Rltb_true, IZR_lt, Z.ltb_lt, E.
  - apply Rltb_false, IZR_le, Z.ltb_ge, E.
Qed.

Lemma Reqb_IZR a b : Reqb (IZR a) (IZR b) = (a =? b)%Z.
Proof.
  destruct (a =? b)%Z eqn:E.
  - apply Reqb_true. f_equal. apply Z.eqb_eq, E.
  - apply Reqb_false. intros H. apply eq_IZR in H. apply Z.eqb_neq in E. easy.
Qed.

(** Turn the boolean comparisons of the context and the goal into
    propositions over the reals. *)
Ltac bools_to_props :=
  repeat match goal with
  | H : Rleb _ _ = true |- _ => apply Rleb_true in H
  | H : Rltb _ _ = true |- _ => apply Rltb_true in H
  | H : Reqb _ _ = true |- _ => apply Reqb_true in H
  | H : Rleb _ _ = false |- _ => apply Rleb_false in H
  | H : Rltb _ _ = false |- _ => apply Rltb_false in H
  | H : Reqb _ _ = false |- _ => apply Reqb_false in H
  | |- Rleb _ _ = true => apply Rleb_true
  | |- Rltb _ _ = true => apply Rltb_true
  | |- Reqb _ _ = true => apply Reqb_true
  | |- Rleb _ _ = false => apply Rleb_false
  | |- Rltb _ _ = false => apply Rltb_false
  | |- Reqb _ _ = false => apply Reqb_false
  end.

Ltac float_order :=
  intros;
  repeat match goal with
  | a : float |- _ => destruct a
  end;
  cbn in *;
  rewrite ?orb_false_r, ?orb_true_r, ?andb_false_r, ?andb_true_r in *;
  try discriminate; try reflexivity;
  bools_to_props; try lra; try congruence.

(** ** The order of [float] *)

Lemma flt_fle_trans a b c : flt a b = true -> fle b c = true -> flt a c = true.
Proof. float_order. Qed.

Lemma flt_trans a b c : flt a b = true -> flt b c = true -> flt a c = true.
Proof. float_order. Qed.

Lemma fle_trans a b c : fle a b = true -> fle b c = true -> fle a c = true.
Proof. float_order. Qed.

Lemma fle_flt_trans a b c : fle a b = true -> flt b c = true -> fle a c = true.
Proof. float_order. Qed.

Lemma feq_Fin x y : feq (Fin x) (Fin y) = true <-> x = y.
Proof. cbn. apply Reqb_true. Qed.

Lemma feq_PInf a : feq a PInf = true <-> a = PInf.
Proof. destruct a; cbn; split; intros; congruence. Qed.

Lemma flt_PInf_not_inf a : flt a PInf = true -> feq a PInf = false.
Proof. float_order. Qed.

(** ** The order numpy sorts by *)

Lemma sort_le_total a b : sort_le a b = true \/ sort_le b a = true.
Proof.
  unfold sort_le; destruct a, b; cbn; auto.
  destruct (Rle_dec x x0) as [H|H].
  - left. rewrite (proj2 (Rleb_true _ _)); auto.
  - right. rewrite (proj2 (Rleb_true _ _)); auto. lra.
Qed.

Lemma sort_le_trans a b c :
  sort_le a b = true -> sort_le b c = true -> sort_le a c = true.
Proof. unfold sort_le. float_order. Qed.

Lemma sort_lt_below a v w :
  flt v w = true -> sort_lt a v = true -> sort_lt a w = true.
Proof. unfold sort_lt. float_order. Qed.

Lemma sort_lt_PInf a : sort_lt a PInf = flt a PInf.
Proof. unfold sort_lt. destruct a; reflexivity. Qed.

Lemma above_PInf a b :
  flt a PInf = false -> sort_le a b = true -> flt b PInf = false.
Proof. unfold sort_le. float_order. Qed.

(** ** [sort], [dedup], [unique] *)

Lemma insert_In x y l : In y (insert x l) <-> y = x \/ In y l.
Proof.
  induction l as [|z t IH]; cbn.
  - intuition.
  - destruct (sort_le x z); cbn; rewrite ?IH; intuition.
Qed.

Lemma insert_sorted x l : sorted l -> sorted (insert x l).
Proof.
  unfold sorted. induction 1 as [|z t Ht IH Hz]; cbn.
  - constructor; constructor.
  - destruct (sort_le x z) eqn:E.
    + constructor.
      * constructor; assumption.
      * constructor; [assumption|].
        rewrite Forall_forall in *. intros y Hy.
        eapply sort_le_trans; eauto.
    + constructor; [assumption|].
      rewrite Forall_forall in *. intros y Hy.
      apply insert_In in Hy. destruct Hy as [->|Hy]; auto.
      destruct (sort_le_total x z); congruence.
Qed.

Lemma sort_sorted l : sorted (sort l).
Proof.
  induction l; cbn.
  - constructor.
  - apply insert_sorted; assumption.
Qed.

Lemma sort_In x l : In x (sort l) <-> In x l.
Proof.
  induction l; cbn; [tauto|].
  rewrite insert_In, IHl. intuition.
Qed.

Lemma dedup_In x l : In x (dedup l) -> In x l.
Proof.
  induction l as [|a t IH]; cbn; [tauto|].
  destruct t as [|b t'].
  - cbn; tauto.
  - destruct (fne a b).
    + intros [->|H]; [left; reflexivity | right; apply IH, H].
    + intros H. right. apply IH, H.
Qed.

Lemma dedup_sorted l : sorted l -> sorted (dedup l).
Proof.
  unfold sorted. induction 1 as [|a t Ht IH Ha]; cbn.
  - constructor.
  - destruct t as [|b t'].
    + constructor; constructor.
    + destruct (fne a b); [|assumption].
      constructor; [assumption|].
      rewrite Forall_forall in *. intros y Hy.
      apply Ha, dedup_In, Hy.
Qed.

Lemma unique_sorted l : sorted (unique l).
Proof. apply dedup_sorted, sort_sorted. Qed.

(** ** [searchsorted] *)

(** In a sorted array the insertion index of [+inf] is the number of
    entries below [+inf]. *)
Lemma searchsorted1_PInf l :
  sorted l ->
  searchsorted1 l PInf = length (filter (fun x => flt x PInf) l).
Proof.
  unfold sorted. induction 1 as [|a t Ht IH Ha]; cbn; [reflexivity|].
  rewrite sort_lt_PInf. destruct (flt a PInf) eqn:E; cbn.
  - f_equal. exact IH.
  - assert (filter (fun x => flt x PInf) t = []) as ->; [|reflexivity].
    clear IH Ht. induction t as [|y t IHt]; cbn; [reflexivity|].
    inversion Ha as [|? ? Hy Ht]; subst.
    rewrite (above_PInf a y E Hy). apply IHt, Ht.
Qed.

(** The insertion index grows with the value. *)
Lemma searchsorted1_monotone l v w :
  flt v w = true -> searchsorted1 l v <= searchsorted1 l w.
Proof.
  intros H. induction l as [|a t IH]; cbn; [lia|].
  destruct (sort_lt a v) eqn:E.
  - rewrite (sort_lt_below a v w H E). lia.
  - lia.
Qed.

Lemma searchsorted_nth_error a vs i v :
  nth_error vs i = Some v ->
  nth_error (searchsorted a vs) i = Some (Z.of_nat (searchsorted1 a v)).
Proof.
  intros H. unfold searchsorted.
  rewrite nth_error_map, H. reflexivity.
Qed.

Lemma searchsorted_length a vs : length (searchsorted a vs) = length vs.
Proof. unfold searchsorted. apply length_map. Qed.

End NpFacts.

(* ================================================================== *)
(** * Properties of the ordinary percolation engine                    *)
(* ================================================================== *)

Module OrdinaryPercolationFacts.

Import Np NpFacts Topotools OrdinaryPercolation.
Local Open Scope py_scope.

(** ** The monad *)

Lemma bind_ok {S A B} (m : M S A) (k : A -> M S B) s b s' :
  bind m k s = (Ok b, s') ->
  exists a s1, m s = (Ok a, s1) /\ k a s1 = (Ok b, s').
Proof.
  unfold bind. destruct (m s) as [[a|e] s1]; intros H.
  - exists a, s1. split; [reflexivity | exact H].
  - discriminate.
Qed.

Lemma lift_ok {S A} (r : result A) (s s' : S) a :
  lift r s = (Ok a, s') -> r = Ok a /\ s' = s.
Proof. unfold lift. intros H. inversion H. split; reflexivity. Qed.

Lemma map2_nth_error {A B C} (f : A -> B -> C) a b i :
  nth_error (map2 f a b) i =
  match nth_error a i, nth_error b i with
  | Some x, Some y => Some (f x y)
  | _, _ => None
  end.
Proof.
  revert b i. induction a as [|x a IH]; intros [|y b] [|i]; cbn; try reflexivity.
  - destruct (nth_error a i); reflexivity.
  - apply IH.
Qed.

Lemma map2_length {A B C} (f : A -> B -> C) a b :
  length a = length b -> length (map2 f a b) = length a.
Proof.
  revert b. induction a as [|x a IH]; intros [|y b]; cbn; intros H;
    try reflexivity; try discriminate.
  f_equal. apply IH. lia.
Qed.

Section Engine.

Context {topo : Interface}.

(** ** One iteration of the sweep *)

Lemma label_clusters_pure proj v w r w' :
  label_clusters proj v w = (r, w') -> w' = w.
Proof.
  unfold label_clusters, bind, get, lift, ret, raise, self_item.
  destruct (mode (settings (self w)) =? "bond")%string.
  - destruct (throat_entry_pressure (self w)); intros H; inversion H; reflexivity.
  - destruct (mode (settings (self w)) =? "site")%string.
    + destruct (pore_entry_pressure (self w)); intros H; inversion H; reflexivity.
    + intros H; inversion H; reflexivity.
Qed.

Lemma filter_clusters_pure Pin labels w r w' :
  filter_clusters Pin labels w = (r, w') -> w' = w.
Proof.
  unfold filter_clusters, bind, get, ret, raise.
  destruct (access_limited (settings (self w))); [destruct Pin|];
    intros H; inversion H; reflexivity.
Qed.

Lemma labels_at_frame proj Pin w1 w2 v :
  frame w1 = frame w2 -> labels_at proj Pin w1 v = labels_at proj Pin w2 v.
Proof.
  unfold frame. intros H. inversion H as [[Hs Hp Ht Hi Ho]].
  unfold labels_at, label_clusters, filter_clusters, bind, get, lift, ret,
    raise, self_item. cbn.
  rewrite Hs, Hp, Ht.
  destruct (mode (settings (self w2)) =? "bond")%string.
  - destruct (throat_entry_pressure (self w2)); cbn; [|reflexivity].
    rewrite Hs. destruct (access_limited (settings (self w2))); [destruct Pin|];
      reflexivity.
  - destruct (mode (settings (self w2)) =? "site")%string; [|reflexivity].
    destruct (pore_entry_pressure (self w2)); cbn; [|reflexivity].
    rewrite Hs. destruct (access_limited (settings (self w2))); [destruct Pin|];
      reflexivity.
Qed.

Lemma recorded_nth_error a labels v i p :
  length labels = length a ->
  nth_error a i = Some p ->
  nth_error (recorded a labels v) i =
    Some (if feq p PInf && labelled labels i then v else p).
Proof.
  intros Hlen Hp. unfold recorded, labelled.
  rewrite !map2_nth_error, !nth_error_map, Hp. cbn.
  destruct (nth_error labels i) as [l|] eqn:El; cbn.
  - reflexivity.
  - apply nth_error_None in El.
    assert (i < length a) by (apply nth_error_Some; congruence). lia.
Qed.

Lemma recorded_length a labels v :
  length labels = length a -> length (recorded a labels v) = length a.
Proof.
  intros H. unfold recorded.
  rewrite map2_length; [reflexivity|].
  rewrite map2_length; rewrite !length_map; auto.
Qed.

Lemma newly_invaded_setmask a labels v r :
  (inds <~ newly_invaded a labels ;; setmask a inds v) = Ok r ->
  length labels = length a /\ r = recorded a labels v.
Proof.
  unfold newly_invaded, elementwise, setmask, rbind.
  rewrite !length_map.
  destruct (Nat.eqb (length a) (length labels)) eqn:E; [|discriminate].
  apply Nat.eqb_eq in E.
  rewrite map2_length by (rewrite !length_map; exact E).
  rewrite length_map, Nat.eqb_refl.
  intros H. inversion H. split; [symmetry; exact E | reflexivity].
Qed.

Lemma record_invasion_ok labels v w w' :
  record_invasion labels v w = (Ok tt, w') ->
  length (sites labels) = length (pore_invasion_pressure (self w)) /\
  length (bonds labels) = length (throat_invasion_pressure (self w)) /\
  pore_invasion_pressure (self w') =
    recorded (pore_invasion_pressure (self w)) (sites labels) v /\
  throat_invasion_pressure (self w') =
    recorded (throat_invasion_pressure (self w)) (bonds labels) v /\
  frame w' = frame w.
Proof.
  unfold record_invasion. intros H.
  pose proof (newly_invaded_setmask (pore_invasion_pressure (self w)) (sites labels) v) as HP.
  pose proof (newly_invaded_setmask (throat_invasion_pressure (self w)) (bonds labels) v) as HT.
  unfold bind, get, lift, update_self, modify, rbind in *.
  destruct (newly_invaded (pore_invasion_pressure (self w)) (sites labels)) as [pinds|]; [|discriminate].
  destruct (setmask (pore_invasion_pressure (self w)) pinds v) as [p|]; [|discriminate].
  cbn in H.
  destruct (newly_invaded (throat_invasion_pressure (self w)) (bonds labels)) as [tinds|]; [|discriminate].
  destruct (setmask (throat_invasion_pressure (self w)) tinds v) as [q|]; [|discriminate].
  inversion H; subst w'; clear H. cbn.
  destruct (HP p eq_refl) as [HP1 HP2]. destruct (HT q eq_refl) as [HT1 HT2].
  subst. repeat split; assumption.
Qed.

Lemma sweep_step_ok proj Pin v w w' :
  sweep_step proj Pin v w = (Ok tt, w') ->
  exists labels,
    labels_at proj Pin w v = Ok labels /\
    length (sites labels) = length (pore_invasion_pressure (self w)) /\
    length (bonds labels) = length (throat_invasion_pressure (self w)) /\
    pore_invasion_pressure (self w') =
      recorded (pore_invasion_pressure (self w)) (sites labels) v /\
    throat_invasion_pressure (self w') =
      recorded (throat_invasion_pressure (self w)) (bonds labels) v /\
    frame w' = frame w.
Proof.
  unfold sweep_step. intros H.
  apply bind_ok in H. destruct H as (l1 & w1 & H1 & H).
  apply bind_ok in H. destruct H as (l2 & w2 & H2 & H).
  assert (w1 = w) as -> by (eapply label_clusters_pure; eassumption).
  assert (w2 = w) as -> by (eapply filter_clusters_pure; eassumption).
  exists l2. split.
  - unfold labels_at, bind. rewrite H1, H2. reflexivity.
  - apply record_invasion_ok, H.
Qed.

(** In one iteration the applied pressure is stored exactly in the
    elements that are still at [+inf] and carry a label. *)
Lemma sweep_step_pore proj Pin v w w' i p :
  sweep_step proj Pin v w = (Ok tt, w') ->
  nth_error (pore_invasion_pressure (self w)) i = Some p ->
  nth_error (pore_invasion_pressure (self w')) i =
    Some (if feq p PInf && pore_labelled proj Pin w i v then v else p).
Proof.
  intros H Hp. apply sweep_step_ok in H.
  destruct H as (labels & HL & Hs & _ & -> & _).
  unfold pore_labelled. rewrite HL.
  apply recorded_nth_error; assumption.
Qed.

Lemma sweep_step_throat proj Pin v w w' i p :
  sweep_step proj Pin v w = (Ok tt, w') ->
  nth_error (throat_invasion_pressure (self w)) i = Some p ->
  nth_error (throat_invasion_pressure (self w')) i =
    Some (if feq p PInf && throat_labelled proj Pin w i v then v else p).
Proof.
  intros H Hp. apply sweep_step_ok in H.
  destruct H as (labels & HL & _ & Hb & _ & -> & _).
  unfold throat_labelled. rewrite HL.
  apply recorded_nth_error; assumption.
Qed.

Lemma sweep_step_frame proj Pin v w w' :
  sweep_step proj Pin v w = (Ok tt, w') -> frame w' = frame w.
Proof.
  intros H. apply sweep_step_ok in H.
  destruct H as (labels & _ & _ & _ & _ & _ & Hf). exact Hf.
Qed.

Lemma pore_labelled_frame proj Pin w1 w2 i v :
  frame w1 = frame w2 ->
  pore_labelled proj Pin w1 i v = pore_labelled proj Pin w2 i v.
Proof. intros H. unfold pore_labelled. rewrite (@labels_at_frame proj Pin w1 w2 v H). reflexivity. Qed.

Lemma throat_labelled_frame proj Pin w1 w2 i v :
  frame w1 = frame w2 ->
  throat_labelled proj Pin w1 i v = throat_labelled proj Pin w2 i v.
Proof. intros H. unfold throat_labelled. rewrite (@labels_at_frame proj Pin w1 w2 v H). reflexivity. Qed.

Lemma first_invaded_ext f g points :
  (forall v, f v = g v) -> first_invaded f points = first_invaded g points.
Proof.
  intros H. induction points as [|p rest IH]; cbn; [reflexivity|].
  rewrite H, IH. reflexivity.
Qed.

Lemma first_invaded_In f points x :
  first_invaded f points = Fin x -> In (Fin x) points.
Proof.
  induction points as [|p rest IH]; cbn; [discriminate|].
  destruct (f p && fne p PInf).
  - intros ->. left; reflexivity.
  - intros H. right. apply IH, H.
Qed.

(** ** The whole sweep *)

Lemma sweep_frame proj Pin points w w' :
  for_each points (sweep_step proj Pin) w = (Ok tt, w') -> frame w' = frame w.
Proof.
  revert w. induction points as [|v rest IH]; intros w H; cbn in H.
  - inversion H. reflexivity.
  - apply bind_ok in H. destruct H as ([] & w1 & H1 & H).
    rewrite (IH _ H). apply sweep_step_frame in H1. exact H1.
Qed.

(** The general step of the two inductions below. *)
Lemma first_invaded_step (lab : float -> bool) v rest p :
  (let p1 := if feq p PInf && lab v then v else p in
   if feq p1 PInf then first_invaded lab rest else p1) =
  (if feq p PInf then first_invaded lab (v :: rest) else p).
Proof.
  cbn. destruct (feq p PInf) eqn:Ep; cbn.
  - destruct (lab v); cbn.
    + unfold fne. destruct (feq v PInf); reflexivity.
    + rewrite Ep. reflexivity.
  - rewrite Ep. reflexivity.
Qed.

Lemma sweep_pore proj Pin points w w' i p :
  for_each points (sweep_step proj Pin) w = (Ok tt, w') ->
  nth_error (pore_invasion_pressure (self w)) i = Some p ->
  nth_error (pore_invasion_pressure (self w')) i =
    Some (if feq p PInf
          then first_invaded (pore_labelled proj Pin w i) points else p).
Proof.
  revert w p. induction points as [|v rest IH]; intros w p H Hp; cbn in H.
  - inversion H; subst. rewrite Hp. cbn.
    destruct (feq p PInf) eqn:E; [apply feq_PInf in E; subst|]; reflexivity.
  - apply bind_ok in H. destruct H as ([] & w1 & H1 & H).
    pose proof (@sweep_step_pore proj Pin v w w1 i p H1 Hp) as Hp1.
    rewrite (IH _ _ H Hp1).
    rewrite (first_invaded_ext _ (pore_labelled proj Pin w i))
      by (intros; apply pore_labelled_frame; eapply sweep_step_frame; eassumption).
    f_equal. apply (first_invaded_step (pore_labelled proj Pin w i)).
Qed.

Lemma sweep_throat proj Pin points w w' i p :
  for_each points (sweep_step proj Pin) w = (Ok tt, w') ->
  nth_error (throat_invasion_pressure (self w)) i = Some p ->
  nth_error (throat_invasion_pressure (self w')) i =
    Some (if feq p PInf
          then first_invaded (throat_labelled proj Pin w i) points else p).
Proof.
  revert w p. induction points as [|v rest IH]; intros w p H Hp; cbn in H.
  - inversion H; subst. rewrite Hp. cbn.
    destruct (feq p PInf) eqn:E; [apply feq_PInf in E; subst|]; reflexivity.
  - apply bind_ok in H. destruct H as ([] & w1 & H1 & H).
    pose proof (@sweep_step_throat proj Pin v w w1 i p H1 Hp) as Hp1.
    rewrite (IH _ _ H Hp1).
    rewrite (first_invaded_ext _ (throat_labelled proj Pin w i))
      by (intros; apply throat_labelled_frame; eapply sweep_step_frame; eassumption).
    f_equal. apply (first_invaded_step (throat_labelled proj Pin w i)).
Qed.

End Engine.

End OrdinaryPercolationFacts.

(* ================================================================== *)
(** * [OrdinaryPercolation.run] and the queries                        *)
(* ================================================================== *)

Module RunFacts.

Import Np NpFacts Topotools OrdinaryPercolation OrdinaryPercolationFacts.
Local Open Scope py_scope.

Arguments ref_bond_percolation : simpl never.
Arguments ref_site_percolation : simpl never.
Arguments ref_remove_isolated_clusters : simpl never.
Arguments ref_is_percolating : simpl never.
Arguments Rleb : simpl never.
Arguments Rltb : simpl never.
Arguments Reqb : simpl never.

(** Evaluation of the engine on numerals: the comparisons of reals are
    rewritten to comparisons of integers, and the reference labellers
    are run once their masks are known. *)
Ltac run_labellers :=
  repeat match goal with
  | |- context [ref_bond_percolation ?a ?b] =>
      let v := eval vm_compute in (ref_bond_percolation a b) in
      change (ref_bond_percolation a b) with v
  | |- context [ref_site_percolation ?a ?b] =>
      let v := eval vm_compute in (ref_site_percolation a b) in
      change (ref_site_percolation a b) with v
  | |- context [ref_remove_isolated_clusters ?a ?b] =>
      let v := eval vm_compute in (ref_remove_isolated_clusters a b) in
      change (ref_remove_isolated_clusters a b) with v
  | |- context [ref_is_percolating ?a ?b ?c ?d] =>
      let v := eval vm_compute in (ref_is_percolating a b c d) in
      change (ref_is_percolating a b c d) with v
  end.

Ltac evaluate :=
  repeat (progress (
    cbv beta iota zeta delta
      [run sweep_step label_clusters filter_clusters record_invasion
       newly_invaded convert_sequences parse_points check_inlets
       is_percolating results labels_at pore_labelled throat_labelled
       bind ret raise get put modify lift for_each update_self log_call rbind
       sort_le sort_lt fle flt feq fne fgt isnan];
    cbn;
    rewrite ?Rleb_IZR, ?Rltb_IZR, ?Reqb_IZR;
    try run_labellers)).

Section Engine.

Context {topo : Interface}.

(** ** The phases of [run] *)

Lemma parse_points_self proj points start stop w r w1 :
  parse_points proj points start stop w = (r, w1) ->
  invasion_state (self w1) = invasion_state (self w) /\
  settings (self w1) = settings (self w) /\
  calls w1 = calls w.
Proof.
  unfold parse_points, bind, get, lift, update_self, modify, ret, raise.
  destruct (mode (settings (self w)) =? "bond")%string.
  - destruct (dict_item (phase proj) (throat_entry_pressure_key (settings (self w)))) as [e|].
    + cbn. destruct points; intros H; inversion H; subst; repeat split.
    + intros H; inversion H; subst; repeat split.
  - destruct (mode (settings (self w)) =? "site")%string.
    + destruct (dict_item (phase proj) (pore_entry_pressure_key (settings (self w)))) as [e|].
      * cbn. destruct points; intros H; inversion H; subst; repeat split.
      * intros H; inversion H; subst; repeat split.
    + intros H; inversion H; subst; repeat split.
Qed.

Lemma parse_points_pressures proj points start stop w r w1 :
  parse_points proj points start stop w = (r, w1) ->
  pore_invasion_pressure (self w1) = pore_invasion_pressure (self w) /\
  throat_invasion_pressure (self w1) = throat_invasion_pressure (self w) /\
  pore_inlets (self w1) = pore_inlets (self w).
Proof.
  intros H. apply parse_points_self in H. destruct H as (H & _).
  unfold invasion_state in H.
  injection H as H1 H2 H3 H4 H5 H6 H7 H8. auto.
Qed.

Lemma parse_points_bad_mode proj points start stop w :
  mode (settings (self w)) <> "bond" ->
  mode (settings (self w)) <> "site" ->
  parse_points proj points start stop w =
    (Raise (Exception "Percolation type has not been set"), w).
Proof.
  intros Hb Hs. unfold parse_points, bind, get, raise.
  apply String.eqb_neq in Hb, Hs. rewrite Hb, Hs. reflexivity.
Qed.

Lemma check_inlets_pure r w w1 :
  check_inlets w = (r, w1) -> w1 = w.
Proof.
  unfold check_inlets, bind, get, ret, raise.
  destruct (access_limited (settings (self w)));
    [destruct (sum_bool (pore_inlets (self w)) =? 0)%Z|];
    intros H; inversion H; reflexivity.
Qed.

Lemma sum_bool_all_false a :
  Forall (fun b => b = false) a -> sum_bool a = 0%Z.
Proof.
  unfold sum_bool. induction 1 as [|b t Hb Ht IH]; cbn; [reflexivity|].
  subst b. destruct (bool_dec false true); [discriminate | exact IH].
Qed.

Lemma check_inlets_none w :
  access_limited (settings (self w)) = true ->
  Forall (fun b => b = false) (pore_inlets (self w)) ->
  check_inlets w = (Raise (Exception "Inlet pores must be specified first"), w).
Proof.
  intros Ha Hi. unfold check_inlets, bind, get, raise.
  rewrite Ha, (sum_bool_all_false Hi). reflexivity.
Qed.

Lemma convert_sequences_eq w :
  convert_sequences w =
    (Ok tt,
     {| self :=
          set_throat_invasion_sequence
            (searchsorted (unique (throat_invasion_pressure (self w)))
                          (throat_invasion_pressure (self w)))
            (set_pore_invasion_sequence
               (searchsorted (unique (pore_invasion_pressure (self w)))
                             (pore_invasion_pressure (self w)))
               (self w));
        calls := calls w |}).
Proof. reflexivity. Qed.

Lemma run_phases proj points start stop w w' :
  run proj points start stop w = (Ok tt, w') ->
  exists thresholds w1 Pin w2,
    parse_points proj points start stop w = (Ok thresholds, w1) /\
    check_inlets w1 = (Ok Pin, w1) /\
    for_each thresholds (sweep_step proj Pin) w1 = (Ok tt, w2) /\
    convert_sequences w2 = (Ok tt, w').
Proof.
  unfold run. intros H.
  apply bind_ok in H. destruct H as (thresholds & w1 & H1 & H).
  apply bind_ok in H. destruct H as (Pin & w1' & H2 & H).
  apply bind_ok in H. destruct H as ([] & w2 & H3 & H).
  assert (w1' = w1) as -> by (eapply check_inlets_pure; eassumption).
  exists thresholds, w1, Pin, w2. auto.
Qed.

(** After [run] the sequences are the insertion indices of the pressures
    in their sorted unique values. *)
Lemma run_sequences proj points start stop w w' :
  run proj points start stop w = (Ok tt, w') ->
  pore_invasion_sequence (self w') =
    searchsorted (unique (pore_invasion_pressure (self w')))
                 (pore_invasion_pressure (self w')) /\
  throat_invasion_sequence (self w') =
    searchsorted (unique (throat_invasion_pressure (self w')))
                 (throat_invasion_pressure (self w')).
Proof.
  intros H. apply run_phases in H.
  destruct H as (thresholds & w1 & Pin & w2 & _ & _ & _ & H).
  rewrite convert_sequences_eq in H. inversion H; subst w'. cbn. auto.
Qed.

Lemma sequence_of_inf a i :
  nth_error a i = Some PInf ->
  nth_error (searchsorted (unique a) a) i = Some (distinct_below_inf a).
Proof.
  intros H. rewrite (searchsorted_nth_error _ _ _ H).
  unfold distinct_below_inf.
  rewrite searchsorted1_PInf by apply unique_sorted. reflexivity.
Qed.

Lemma sequence_order a i j x y :
  nth_error a i = Some (Fin x) ->
  nth_error a j = Some (Fin y) ->
  exists si sj,
    nth_error (searchsorted (unique a) a) i = Some si /\
    nth_error (searchsorted (unique a) a) j = Some sj /\
    ((x < y)%R -> (si <= sj)%Z) /\
    (x = y -> si = sj).
Proof.
  intros Hi Hj.
  exists (Z.of_nat (searchsorted1 (unique a) (Fin x))),
         (Z.of_nat (searchsorted1 (unique a) (Fin y))).
  rewrite (searchsorted_nth_error _ _ _ Hi), (searchsorted_nth_error _ _ _ Hj).
  repeat split.
  - intros Hxy. apply inj_le, searchsorted1_monotone. cbn. apply Rltb_true, Hxy.
  - intros ->. reflexivity.
Qed.

(** ** [is_percolating] *)

Lemma compress_nonempty {A} (a : list A) (mask : list bool) :
  length a = length mask -> sum_bool mask <> 0%Z -> compress a mask <> [].
Proof.
  revert mask. induction a as [|x a IH]; intros [|m mask]; cbn; intros Hl Hs;
    try discriminate; try (exfalso; apply Hs; reflexivity).
  destruct m; [discriminate|].
  apply IH; [lia|].
  unfold sum_bool in *. cbn in Hs.
  destruct (bool_dec false true); [discriminate | exact Hs].
Qed.

End Engine.

End RunFacts.

(* ================================================================== *)
(** * The engine on the three-pore line                                *)
(* ================================================================== *)

Module ExampleRuns.

Import Np NpFacts Topotools OrdinaryPercolation OrdinaryPercolationFacts.
Import RunFacts Examples.

Lemma run_2 :
  run (topo := Reference) line3 (PArray [Fin 2]) None None fresh
  = (Ok tt, after_run_2).
Proof. unfold fresh, op_object, line3, after_run_2. evaluate. reflexivity. Qed.

Lemma run_2_4 :
  run (topo := Reference) line3 (PArray [Fin 2; Fin 4]) None None fresh
  = (Ok tt, after_run_2_4).
Proof. unfold fresh, op_object, line3, after_run_2_4. evaluate. reflexivity. Qed.

Lemma run_5 :
  run (topo := Reference) line3 (PArray [Fin 5]) None None fresh
  = (Ok tt, after_run_5).
Proof. unfold fresh, op_object, line3, after_run_5. evaluate. reflexivity. Qed.

Lemma run_5_then_4 :
  run (topo := Reference) line3 (PArray [Fin 4]) None None after_run_5
  = (Ok tt, after_run_5).
Proof. unfold line3, after_run_5. evaluate. reflexivity. Qed.

Lemma labelled_at_4 :
  pore_labelled (topo := Reference) line3 (Some [true; false; false])
                after_run_5 0 (Fin 4) = true.
Proof. unfold line3, after_run_5. evaluate. reflexivity. Qed.

Lemma run_inf_2 :
  run (topo := Reference) line3 (PArray [PInf; Fin 2]) None None fresh
  = (Ok tt, after_run_2).
Proof. unfold fresh, op_object, line3, after_run_2. evaluate. reflexivity. Qed.

Lemma labelled_at_inf :
  exists w1,
    parse_points line3 (PArray [PInf; Fin 2]) None None fresh
      = (Ok [PInf; Fin 2], w1) /\
    pore_labelled (topo := Reference) line3 (Some [true; false; false])
                  w1 0 PInf = true.
Proof.
  eexists. split.
  - unfold fresh, op_object, line3. evaluate. reflexivity.
  - unfold line3. evaluate. reflexivity.
Qed.

Lemma parsed_2_4 :
  exists w1,
    parse_points line3 (PArray [Fin 2; Fin 4]) None None fresh
      = (Ok [Fin 2; Fin 4], w1).
Proof. eexists. unfold fresh, op_object, line3. evaluate. reflexivity. Qed.

End ExampleRuns.

(* ================================================================== *)
(** * The claims about [OrdinaryPercolation]                           *)
(* ================================================================== *)

Module OrdinaryPercolationSpec.

Import Np NpFacts Topotools OrdinaryPercolation OrdinaryPercolationFacts.
Import RunFacts Examples ExampleRuns.
Local Open Scope py_scope.

(** C1, as the code has it.  After [run] has returned, a pore (a throat)
    whose invasion pressure is still [+inf] has as invasion sequence the
    number of distinct pore (throat) invasion pressures below [+inf],
    that is the rank of [+inf] among the sorted unique pressures; this
    number is not negative, so the initial [-1] does not survive. *)
Theorem run_sequence_of_uninvaded
  (topo : Interface) (proj : Project) (points : Points)
  (start stop : option float) (w w' : state) :
  run proj points start stop w = (Ok tt, w') ->
  (forall i,
     nth_error (pore_invasion_pressure (self w')) i = Some PInf ->
     nth_error (pore_invasion_sequence (self w')) i =
       Some (distinct_below_inf (pore_invasion_pressure (self w')))) /\
  (forall i,
     nth_error (throat_invasion_pressure (self w')) i = Some PInf ->
     nth_error (throat_invasion_sequence (self w')) i =
       Some (distinct_below_inf (throat_invasion_pressure (self w')))) /\
  (0 <= distinct_below_inf (pore_invasion_pressure (self w')))%Z /\
  (0 <= distinct_below_inf (throat_invasion_pressure (self w')))%Z.
Proof.
  intros H. destruct (run_sequences _ _ _ _ _ H) as [HP HT].
  rewrite HP, HT. repeat split.
  - intros i. apply sequence_of_inf.
  - intros i. apply sequence_of_inf.
  - apply Nat2Z.is_nonneg.
  - apply Nat2Z.is_nonneg.
Qed.

Lemma run_sequence_of_uninvaded_witness :
  run (topo := Reference) line3 (PArray [Fin 2]) None None fresh
    = (Ok tt, after_run_2) /\
  nth_error (pore_invasion_sequence (self after_run_2)) 2 =
    Some (distinct_below_inf (pore_invasion_pressure (self after_run_2))).
Proof.
  split; [exact run_2|].
  apply (run_sequence_of_uninvaded Reference line3 (PArray [Fin 2]) None None
           fresh run_2).
  reflexivity.
Defined.

(** C1, as stated, fails: after [run(points=[2])] on the three-pore line
    the last pore is still at [+inf] and its sequence is 1, not -1. *)
Lemma uninvaded_sequence_is_not_minus_one :
  run (topo := Reference) line3 (PArray [Fin 2]) None None fresh
    = (Ok tt, after_run_2) /\
  nth_error (pore_invasion_pressure (self after_run_2)) 2 = Some PInf /\
  nth_error (pore_invasion_sequence (self after_run_2)) 2 = Some 1%Z /\
  nth_error (pore_invasion_sequence (self after_run_2)) 2 <> Some (-1)%Z.
Proof.
  split; [exact run_2|]. cbn. repeat split. discriminate.
Qed.

Lemma sweep_lengths (topo : Interface) proj Pin points w w' :
  for_each points (sweep_step proj Pin) w = (Ok tt, w') ->
  length (pore_invasion_pressure (self w')) =
    length (pore_invasion_pressure (self w)) /\
  length (throat_invasion_pressure (self w')) =
    length (throat_invasion_pressure (self w)).
Proof.
  revert w. induction points as [|v rest IH]; intros w H; cbn in H.
  - inversion H. auto.
  - apply bind_ok in H. destruct H as ([] & w1 & H1 & H).
    destruct (IH _ H) as (L1 & L2). rewrite L1, L2.
    apply sweep_step_ok in H1.
    destruct H1 as (labels & _ & Hs & Hb & -> & -> & _).
    split; apply recorded_length; assumption.
Qed.

(** What one call of [run] does to the invasion pressures.  In each
    iteration the applied pressure is stored exactly in the elements
    whose invasion pressure is [+inf] and whose label is not negative.
    Hence, over the whole call, an element that is not at [+inf] when
    [run] is called keeps its pressure, and an element that is at [+inf]
    ends at the first point other than [+inf] at which it was labelled
    (at [+inf] if there is none). *)
Lemma run_records_first_invasion
  (topo : Interface) (proj : Project) (points : Points)
  (start stop : option float) (w w' : state) :
  run proj points start stop w = (Ok tt, w') ->
  exists thresholds Pin w1,
    parse_points proj points start stop w = (Ok thresholds, w1) /\
    check_inlets w1 = (Ok Pin, w1) /\
    (forall v wa wb,
       sweep_step proj Pin v wa = (Ok tt, wb) ->
       (forall i p,
          nth_error (pore_invasion_pressure (self wa)) i = Some p ->
          nth_error (pore_invasion_pressure (self wb)) i =
            Some (if feq p PInf && pore_labelled proj Pin wa i v then v else p)) /\
       (forall i p,
          nth_error (throat_invasion_pressure (self wa)) i = Some p ->
          nth_error (throat_invasion_pressure (self wb)) i =
            Some (if feq p PInf && throat_labelled proj Pin wa i v then v else p))) /\
    (forall i p,
       nth_error (pore_invasion_pressure (self w)) i = Some p ->
       nth_error (pore_invasion_pressure (self w')) i =
         Some (if feq p PInf
               then first_invaded (pore_labelled proj Pin w1 i) thresholds
               else p)) /\
    (forall i p,
       nth_error (throat_invasion_pressure (self w)) i = Some p ->
       nth_error (throat_invasion_pressure (self w')) i =
         Some (if feq p PInf
               then first_invaded (throat_labelled proj Pin w1 i) thresholds
               else p)) /\
    length (pore_invasion_pressure (self w')) =
      length (pore_invasion_pressure (self w)) /\
    length (throat_invasion_pressure (self w')) =
      length (throat_invasion_pressure (self w)).
Proof.
  intros H. apply run_phases in H.
  destruct H as (thresholds & w1 & Pin & w2 & H1 & H2 & H3 & H4).
  exists thresholds, Pin, w1.
  rewrite convert_sequences_eq in H4. inversion H4; subst w'; clear H4. cbn.
  destruct (parse_points_pressures _ _ _ _ _ H1) as (HP & HT & _).
  split; [exact H1|]. split; [exact H2|].
  split; [|split; [|split; [|rewrite <- HP, <- HT; eapply sweep_lengths, H3]]].
  - intros v wa wb Hstep. split; intros i p Hp.
    + eapply sweep_step_pore; eassumption.
    + eapply sweep_step_throat; eassumption.
  - intros i p Hp. rewrite <- HP in Hp. eapply sweep_pore; eassumption.
  - intros i p Hp. rewrite <- HT in Hp. eapply sweep_throat; eassumption.
Qed.

(** A value of [first_invaded] other than [+inf] is a point at which the
    element is labelled, and before it the element is labelled at no
    point but [+inf]. *)
Lemma first_invaded_split (lab : float -> bool) points y :
  first_invaded lab points = y -> y <> PInf ->
  exists before after,
    points = before ++ y :: after /\
    lab y = true /\
    forall v, In v before -> lab v = false \/ v = PInf.
Proof.
  induction points as [|p rest IH]; cbn [first_invaded]; [congruence|].
  destruct (lab p && fne p PInf) eqn:E.
  - intros <- _. exists [], rest. apply andb_prop in E. destruct E as (E & _).
    split; [reflexivity|]. split; [exact E|]. intros v [].
  - intros Hy Hne. destruct (IH Hy Hne) as (before & after & -> & Hl & Hb).
    exists (p :: before), after. split; [reflexivity|]. split; [exact Hl|].
    intros v [<-|Hv]; [|apply Hb, Hv].
    apply andb_false_iff in E. destruct E as [E|E]; [left; exact E|].
    right. unfold fne in E. apply negb_false_iff in E. apply feq_PInf, E.
Qed.

Lemma ascending_before (before after : list float) y :
  ascending (before ++ y :: after) ->
  forall v, In v before -> fle v y = true.
Proof.
  intros H. apply Sorted_StronglySorted in H;
    [|intros a b c; apply fle_trans].
  induction before as [|x t IH]; intros v Hv; [destruct Hv|].
  cbn [app] in H. apply StronglySorted_inv in H. destruct H as (Ht & Hx).
  destruct Hv as [<-|Hv]; [|apply IH; assumption].
  rewrite Forall_forall in Hx. apply Hx, in_elt.
Qed.

(** In an ascending sweep, a finite value of [first_invaded] is the
    first point at which the element is labelled. *)
Lemma first_invaded_first (lab : float -> bool) points x :
  ascending points ->
  first_invaded lab points = Fin x ->
  In (Fin x) points /\ first_at lab points (Fin x).
Proof.
  intros Hs H. split; [eapply first_invaded_In, H|].
  destruct (@first_invaded_split lab points (Fin x) H) as (before & after & E & Hl & Hb);
    [discriminate|].
  exists before, after. split; [exact E|]. split; [exact Hl|].
  intros v Hv. destruct (Hb v Hv) as [Hf| ->]; [exact Hf|].
  rewrite E in Hs. pose proof (@ascending_before before after (Fin x) Hs PInf Hv) as Hle.
  discriminate.
Qed.

(** C2.  Let [run] be called on an object whose invasion pressures are
    all at [+inf] (as [reset] leaves them) and sweep ascending points.
    In each iteration the applied pressure is stored exactly in the
    elements whose invasion pressure is still [+inf] and whose label is
    not negative, so a pressure that has become finite is never
    overwritten by a later point.  Hence, when [run] has returned,
    every finite invasion pressure of a pore (a throat) is one of the
    points swept, and it is the first of them at which the element was
    labelled. *)
Theorem run_first_invaded_wins
  (topo : Interface) (proj : Project) (points : Points)
  (start stop : option float) (w w' : state)
  (thresholds : list float) (w1 : state) :
  run proj points start stop w = (Ok tt, w') ->
  parse_points proj points start stop w = (Ok thresholds, w1) ->
  ascending thresholds ->
  Forall (fun p => p = PInf) (pore_invasion_pressure (self w)) ->
  Forall (fun p => p = PInf) (throat_invasion_pressure (self w)) ->
  exists Pin,
    check_inlets w1 = (Ok Pin, w1) /\
    (forall v wa wb,
       sweep_step proj Pin v wa = (Ok tt, wb) ->
       (forall i p,
          nth_error (pore_invasion_pressure (self wa)) i = Some p ->
          nth_error (pore_invasion_pressure (self wb)) i =
            Some (if feq p PInf && pore_labelled proj Pin wa i v then v else p)) /\
       (forall i p,
          nth_error (throat_invasion_pressure (self wa)) i = Some p ->
          nth_error (throat_invasion_pressure (self wb)) i =
            Some (if feq p PInf && throat_labelled proj Pin wa i v then v else p)) /\
       (forall i x,
          nth_error (pore_invasion_pressure (self wa)) i = Some (Fin x) ->
          nth_error (pore_invasion_pressure (self wb)) i = Some (Fin x)) /\
       (forall i x,
          nth_error (throat_invasion_pressure (self wa)) i = Some (Fin x) ->
          nth_error (throat_invasion_pressure (self wb)) i = Some (Fin x))) /\
    (forall i x,
       nth_error (pore_invasion_pressure (self w')) i = Some (Fin x) ->
       In (Fin x) thresholds /\
       first_at (pore_labelled proj Pin w1 i) thresholds (Fin x)) /\
    (forall i x,
       nth_error (throat_invasion_pressure (self w')) i = Some (Fin x) ->
       In (Fin x) thresholds /\
       first_at (throat_labelled proj Pin w1 i) thresholds (Fin x)).
Proof.
  intros H Hparse Hasc HP HT.
  destruct (@run_records_first_invasion topo proj points start stop w w' H)
    as (thresholds' & Pin & w1' & H1 & H2 & Hstep & Hpore & Hthroat & LP & LT).
  rewrite Hparse in H1. injection H1 as <- <-.
  exists Pin. split; [exact H2|]. split; [|split].
  - intros v wa wb Hs. destruct (Hstep v wa wb Hs) as (Sp & St).
    split; [exact Sp|]. split; [exact St|].
    split; intros i x Hi; [rewrite (Sp _ _ Hi) | rewrite (St _ _ Hi)];
      reflexivity.
  - intros i x Hi.
    destruct (nth_error (pore_invasion_pressure (self w)) i) as [p|] eqn:Ep.
    + assert (p = PInf) as ->
        by (rewrite Forall_forall in HP; eapply HP, nth_error_In, Ep).
      rewrite (Hpore _ _ Ep) in Hi. cbn in Hi. injection Hi as Hi.
      apply first_invaded_first; assumption.
    + exfalso. apply nth_error_None in Ep.
      assert (Hlt : (i < length (pore_invasion_pressure (self w')))%nat)
        by (apply nth_error_Some; congruence).
      lia.
  - intros i x Hi.
    destruct (nth_error (throat_invasion_pressure (self w)) i) as [p|] eqn:Ep.
    + assert (p = PInf) as ->
        by (rewrite Forall_forall in HT; eapply HT, nth_error_In, Ep).
      rewrite (Hthroat _ _ Ep) in Hi. cbn in Hi. injection Hi as Hi.
      apply first_invaded_first; assumption.
    + exfalso. apply nth_error_None in Ep.
      assert (Hlt : (i < length (throat_invasion_pressure (self w')))%nat)
        by (apply nth_error_Some; congruence).
      lia.
Qed.

Lemma run_first_invaded_wins_witness :
  exists w1 Pin,
    parse_points line3 (PArray [Fin 2; Fin 4]) None None fresh
      = (Ok [Fin 2; Fin 4], w1) /\
    check_inlets w1 = (Ok Pin, w1) /\
    (forall i x,
       nth_error (pore_invasion_pressure (self after_run_2_4)) i = Some (Fin x) ->
       In (Fin x) [Fin 2; Fin 4] /\
       first_at (pore_labelled (topo := Reference) line3 Pin w1 i)
                [Fin 2; Fin 4] (Fin x)).
Proof.
  destruct parsed_2_4 as (w1 & Hp). exists w1.
  destruct (@run_first_invaded_wins Reference line3 (PArray [Fin 2; Fin 4])
              None None fresh after_run_2_4 [Fin 2; Fin 4] w1 run_2_4 Hp)
    as (Pin & H2 & _ & H3 & _).
  - repeat constructor. cbn. rewrite Rleb_IZR. reflexivity.
  - repeat constructor.
  - repeat constructor.
  - exists Pin. auto.
Defined.

(** The two conditions are needed.  When [run] is called again without
    [reset]: after [run(points=[5])] every pore holds 5; a second
    [run(points=[4])] labels the first pore at 4, and its final pressure
    is still 5, which is not a point of the second sweep.  When the
    sweep is not ascending: [run(points=[inf, 2])] on the new object
    labels the first pore at [+inf] already, and its final pressure is
    2, the second point. *)
Lemma final_pressure_not_first_labelled_point :
  (run (topo := Reference) line3 (PArray [Fin 5]) None None fresh
     = (Ok tt, after_run_5) /\
   run (topo := Reference) line3 (PArray [Fin 4]) None None after_run_5
     = (Ok tt, after_run_5) /\
   pore_labelled (topo := Reference) line3 (Some [true; false; false])
                 after_run_5 0 (Fin 4) = true /\
   nth_error (pore_invasion_pressure (self after_run_5)) 0 = Some (Fin 5) /\
   ~ In (Fin 5) [Fin 4]) /\
  (run (topo := Reference) line3 (PArray [PInf; Fin 2]) None None fresh
     = (Ok tt, after_run_2) /\
   (exists w1,
      parse_points line3 (PArray [PInf; Fin 2]) None None fresh
        = (Ok [PInf; Fin 2], w1) /\
      pore_labelled (topo := Reference) line3 (Some [true; false; false])
                    w1 0 PInf = true) /\
   nth_error (pore_invasion_pressure (self after_run_2)) 0 = Some (Fin 2) /\
   Fin 2 <> PInf).
Proof.
  split.
  - split; [exact run_5|]. split; [exact run_5_then_4|].
    split; [exact labelled_at_4|]. split; [reflexivity|].
    intros [H|[]]. inversion H. lra.
  - split; [exact run_inf_2|]. split; [exact labelled_at_inf|].
    split; [reflexivity|discriminate].
Qed.

(** C3.  [results(Pc)] leaves the state as it is and returns occupancies
    that are 1.0 where the invasion pressure is [<= Pc] and 0.0
    elsewhere; an element occupied at [Pc] is occupied at every larger
    pressure. *)
Theorem results_occupancy (Pc : float) (w : state) :
  exists r,
    results Pc w = (Ok r, w) /\
    (forall i p,
       nth_error (pore_invasion_pressure (self w)) i = Some p ->
       nth_error (pore_occupancy r) i = Some (if fle p Pc then Fin 1 else Fin 0)) /\
    (forall i p,
       nth_error (throat_invasion_pressure (self w)) i = Some p ->
       nth_error (throat_occupancy r) i = Some (if fle p Pc then Fin 1 else Fin 0)) /\
    length (pore_occupancy r) = length (pore_invasion_pressure (self w)) /\
    length (throat_occupancy r) = length (throat_invasion_pressure (self w)) /\
    (forall p2 r2,
       flt Pc p2 = true ->
       results p2 w = (Ok r2, w) ->
       (forall i, nth_error (pore_occupancy r) i = Some (Fin 1) ->
                  nth_error (pore_occupancy r2) i = Some (Fin 1)) /\
       (forall i, nth_error (throat_occupancy r) i = Some (Fin 1) ->
                  nth_error (throat_occupancy r2) i = Some (Fin 1))).
Proof.
  eexists. split; [reflexivity|]. cbn.
  assert (Hocc : forall a P i p,
    nth_error a i = Some p ->
    nth_error (as_float (map (fun x => fle x P) a)) i =
      Some (if fle p P then Fin 1 else Fin 0)).
  { intros a P i p Hp. unfold as_float. rewrite !nth_error_map, Hp. reflexivity. }
  assert (Hmono : forall a p2 i,
    flt Pc p2 = true ->
    nth_error (as_float (map (fun x => fle x Pc) a)) i = Some (Fin 1) ->
    nth_error (as_float (map (fun x => fle x p2) a)) i = Some (Fin 1)).
  { intros a p2 i Hlt Hi.
    destruct (nth_error a i) as [p|] eqn:Ep.
    - rewrite (Hocc _ _ _ _ Ep) in Hi. rewrite (Hocc _ _ _ _ Ep).
      destruct (fle p Pc) eqn:E.
      + rewrite (fle_flt_trans _ _ _ E Hlt). reflexivity.
      + inversion Hi. lra.
    - unfold as_float in Hi. rewrite !nth_error_map, Ep in Hi. discriminate. }
  repeat split.
  - intros i p. apply Hocc.
  - intros i p. apply Hocc.
  - unfold as_float. rewrite !length_map. reflexivity.
  - unfold as_float. rewrite !length_map. reflexivity.
  - inversion H0; subst r2. cbn. intros i. apply Hmono, H.
  - inversion H0; subst r2. cbn. intros i. apply Hmono, H.
Qed.

Lemma results_occupancy_witness :
  exists r,
    results (Fin 2) after_run_2 = (Ok r, after_run_2) /\
    pore_occupancy r = [Fin 1; Fin 1; Fin 0] /\
    throat_occupancy r = [Fin 1; Fin 0].
Proof.
  destruct (results_occupancy (Fin 2) after_run_2) as (r & Hr & _).
  exists r. split; [exact Hr|].
  unfold after_run_2 in Hr. revert Hr. evaluate.
  intros Hr. inversion Hr. split; reflexivity.
Defined.

(** C4.  [run] raises when the mode is neither 'bond' nor 'site', and
    when access is limited and no pore is an inlet; the invasion state
    of the object is then what it was. *)
Theorem run_raises_when_unconfigured
  (topo : Interface) (proj : Project) (points : Points)
  (start stop : option float) (w : state) :
  (mode (settings (self w)) <> "bond" /\ mode (settings (self w)) <> "site") \/
  (access_limited (settings (self w)) = true /\
   Forall (fun b => b = false) (pore_inlets (self w))) ->
  exists e w',
    run proj points start stop w = (Raise e, w') /\
    invasion_state (self w') = invasion_state (self w).
Proof.
  intros [[Hb Hs] | [Ha Hi]].
  - exists (Exception "Percolation type has not been set"), w.
    unfold run, bind. rewrite parse_points_bad_mode by assumption.
    split; reflexivity.
  - unfold run, bind.
    destruct (parse_points proj points start stop w) as [[thresholds|e] w1] eqn:E;
      destruct (parse_points_self _ _ _ _ _ E) as (Hinv & Hset & _).
    + assert (Hc : check_inlets w1 =
                   (Raise (Exception "Inlet pores must be specified first"), w1)).
      { apply check_inlets_none.
        - rewrite Hset. exact Ha.
        - destruct (parse_points_pressures _ _ _ _ _ E) as (_ & _ & Hin).
          rewrite Hin. exact Hi. }
      rewrite Hc. eauto.
    + eauto.
Qed.

Lemma run_raises_when_unconfigured_witness :
  exists e w',
    run (topo := Reference) line3 (PArray [Fin 2]) None None unconfigured
      = (Raise e, w') /\
    invasion_state (self w') = invasion_state (self unconfigured).
Proof.
  apply (run_raises_when_unconfigured Reference line3 (PArray [Fin 2]) None None
           unconfigured).
  left. split; cbn; discriminate.
Defined.

(** C5.  With inlets and outlets set, [is_percolating] answers [False]
    without asking for a connectivity computation when the lowest
    invasion pressure of the outlet pores is above the applied pressure;
    otherwise it asks for exactly one, on the throats whose invasion
    pressure is strictly below the applied pressure, and returns its
    answer. *)
Theorem is_percolating_two_tier
  (topo : Interface) (proj : Project) (applied_pressure : float) (w : state) :
  sum_bool (pore_inlets (self w)) <> 0%Z ->
  sum_bool (pore_outlets (self w)) <> 0%Z ->
  length (pore_invasion_pressure (self w)) = length (pore_outlets (self w)) ->
  exists lowest,
    amin (compress (pore_invasion_pressure (self w)) (pore_outlets (self w)))
      = Ok lowest /\
    (fgt lowest applied_pressure = true ->
     is_percolating proj applied_pressure w = (Ok false, w)) /\
    (fgt lowest applied_pressure = false ->
     let mask := map (fun p => flt p applied_pressure)
                     (throat_invasion_pressure (self w)) in
     is_percolating proj applied_pressure w =
       (Ok (_is_percolating (create_adjacency_matrix (conns proj) mask)
                            (mode (settings (self w)))
                            (pore_inlets (self w)) (pore_outlets (self w))),
        {| self := self w; calls := calls w ++ [ConnectivityCheck mask] |})).
Proof.
  intros Hin Hout Hlen.
  pose proof (compress_nonempty _ _ Hlen Hout) as Hne.
  destruct (compress (pore_invasion_pressure (self w)) (pore_outlets (self w)))
    as [|x t] eqn:Ec; [congruence|].
  exists (fold_left minimum t x). split; [reflexivity|].
  apply Z.eqb_neq in Hin, Hout.
  unfold is_percolating, bind, get, lift, ret, getmask, log_call, modify.
  rewrite Hin, Hout, Hlen, Nat.eqb_refl, Ec. cbn.
  split; intros ->; destruct w; reflexivity.
Qed.

Lemma is_percolating_two_tier_witness :
  exists lowest,
    amin (compress (pore_invasion_pressure (self after_run_2))
                   (pore_outlets (self after_run_2))) = Ok lowest /\
    (fgt lowest (Fin 3) = true ->
     is_percolating (topo := Reference) line3 (Fin 3) after_run_2
       = (Ok false, after_run_2)).
Proof.
  destruct (is_percolating_two_tier Reference line3 (Fin 3) after_run_2)
    as (lowest & H1 & H2 & _).
  - cbv. discriminate.
  - cbv. discriminate.
  - reflexivity.
  - exists lowest. split; assumption.
Defined.

(** C7.  After [run], for two pores (two throats) with finite invasion
    pressures, a smaller pressure has a sequence number that is not
    larger, and equal pressures have the same sequence number. *)
Theorem run_sequence_preserves_order
  (topo : Interface) (proj : Project) (points : Points)
  (start stop : option float) (w w' : state) :
  run proj points start stop w = (Ok tt, w') ->
  (forall a b x y,
     nth_error (pore_invasion_pressure (self w')) a = Some (Fin x) ->
     nth_error (pore_invasion_pressure (self w')) b = Some (Fin y) ->
     exists sa sb,
       nth_error (pore_invasion_sequence (self w')) a = Some sa /\
       nth_error (pore_invasion_sequence (self w')) b = Some sb /\
       ((x < y)%R -> (sa <= sb)%Z) /\
       (x = y -> sa = sb)) /\
  (forall a b x y,
     nth_error (throat_invasion_pressure (self w')) a = Some (Fin x) ->
     nth_error (throat_invasion_pressure (self w')) b = Some (Fin y) ->
     exists sa sb,
       nth_error (throat_invasion_sequence (self w')) a = Some sa /\
       nth_error (throat_invasion_sequence (self w')) b = Some sb /\
       ((x < y)%R -> (sa <= sb)%Z) /\
       (x = y -> sa = sb)).
Proof.
  intros H. destruct (run_sequences _ _ _ _ _ H) as [HP HT].
  rewrite HP, HT. split; intros a b x y; apply sequence_order.
Qed.

Lemma run_sequence_preserves_order_witness :
  run (topo := Reference) line3 (PArray [Fin 2; Fin 4]) None None fresh
    = (Ok tt, after_run_2_4) /\
  exists sa sb,
    nth_error (pore_invasion_sequence (self after_run_2_4)) 0 = Some sa /\
    nth_error (pore_invasion_sequence (self after_run_2_4)) 2 = Some sb /\
    ((2 < 4)%R -> (sa <= sb)%Z) /\
    (2%R = 4%R -> sa = sb).
Proof.
  split; [exact run_2_4|].
  apply (run_sequence_preserves_order Reference line3 (PArray [Fin 2; Fin 4])
           None None fresh run_2_4); reflexivity.
Defined.

End OrdinaryPercolationSpec.

(* ================================================================== *)
(** * The pressure points generated from a count                       *)
(* ================================================================== *)

Module PointsFacts.

Import Np NpFacts Topotools OrdinaryPercolation OrdinaryPercolationFacts.
Import RunFacts.
Local Open Scope py_scope.
Local Open Scope R_scope.

Lemma ln_10_pos : 0 < ln 10.
Proof. rewrite <- ln_1. apply ln_increasing; lra. Qed.

Lemma power10_log10 r : 0 < r -> power10 (log10 (Fin r)) = Fin r.
Proof.
  intros Hr. unfold log10. rewrite (proj2 (Rltb_true 0 r) Hr). cbn.
  f_equal. unfold Rpower.
  replace (ln r / ln 10 * ln 10) with (ln r)
    by (field; pose proof ln_10_pos; lra).
  apply exp_ln, Hr.
Qed.

Lemma log10_finite r : 0 < r -> log10 (Fin r) = Fin (ln r / ln 10).
Proof. intros Hr. unfold log10. rewrite (proj2 (Rltb_true 0 r) Hr). reflexivity. Qed.

Lemma py_max_one x : py_max (Fin 1) (Fin x) = Fin (Rmax 1 x).
Proof.
  unfold py_max, fgt. cbn. destruct (Rltb 1 x) eqn:E; bools_to_props; f_equal.
  - rewrite Rmax_right; lra.
  - rewrite Rmax_left; lra.
Qed.

(** ** [set_last] *)

Lemma set_last_length {A} (y : list A) v : length (set_last y v) = length y.
Proof.
  destruct y as [|x t]; [reflexivity|]. unfold set_last.
  rewrite length_app. cbn [length].
  assert (length (removelast (x :: t)) = length t).
  { clear. revert x. induction t as [|z t IH]; intros x; [reflexivity|].
    cbn [removelast length] in *. rewrite IH. reflexivity. }
  lia.
Qed.

Lemma set_last_last {A} (y : list A) v d : y <> [] -> last (set_last y v) d = v.
Proof.
  destruct y as [|x t]; [congruence|]. intros _. unfold set_last.
  apply last_last.
Qed.

Lemma last_map_nonempty {A B} (f : A -> B) (l : list A) d d' :
  l <> [] -> last (map f l) d' = f (last l d).
Proof.
  induction l as [|x t IH]; [congruence|]. intros _.
  destruct t as [|z t]; [reflexivity|].
  change (last (map f (z :: t)) d' = f (last (z :: t) d)).
  apply IH. discriminate.
Qed.

Lemma set_last_nonempty {A} (y : list A) v : y <> [] -> set_last y v <> [].
Proof.
  destruct y; [congruence|]. intros _. unfold set_last.
  destruct (removelast (a :: y)); discriminate.
Qed.

Lemma set_last_hd {A} (x z : A) (t : list A) v :
  hd_error (set_last (x :: z :: t) v) = Some x.
Proof. reflexivity. Qed.

(** ** [linspace] and [logspace] between finite bounds *)

Lemma arange_affine (f : float -> float) (g : nat -> R) k :
  (forall i, f (Fin (INR i)) = Fin (g i)) ->
  map f (arange k) = map (fun i => Fin (g i)) (seq 0 k).
Proof.
  intros H. unfold arange. rewrite map_map.
  apply map_ext. intros i. apply H.
Qed.

Lemma linspace_finite a b n :
  (1 <= n)%Z ->
  exists g : nat -> R,
    linspace (Fin a) (Fin b) n =
      Ok (let y := map (fun i => Fin (g i)) (seq 0 (Z.to_nat n)) in
          if (1 <? n)%Z then set_last y (Fin b) else y) /\
    g 0%nat = a.
Proof.
  intros Hn. unfold linspace.
  assert ((n <? 0)%Z = false) as -> by (apply Z.ltb_ge; lia).
  cbn [fsub fneg fadd].
  destruct (0 <? n - 1)%Z eqn:Ed.
  - apply Z.ltb_lt in Ed.
    assert (Hd : IZR (n - 1) <> 0) by (apply not_0_IZR; lia).
    assert (Hs : fdiv (Fin (b + - a)) (Fin (IZR (n - 1)))
                 = Fin ((b + - a) / IZR (n - 1))).
    { cbn. rewrite (proj2 (Reqb_false _ _) Hd). reflexivity. }
    rewrite Hs.
    destruct (feq (Fin ((b + - a) / IZR (n - 1))) (Fin 0)) eqn:Ez.
    + exists (fun i => INR i / IZR (n - 1) * (b + - a) + a). split.
      * f_equal. rewrite map_map.
        rewrite (arange_affine _ (fun i => INR i / IZR (n - 1) * (b + - a) + a));
          [reflexivity|].
        intros i. cbn. rewrite (proj2 (Reqb_false _ _) Hd). reflexivity.
      * cbn. field. exact Hd.
    + exists (fun i => INR i * ((b + - a) / IZR (n - 1)) + a). split.
      * f_equal. rewrite map_map.
        rewrite (arange_affine _ (fun i => INR i * ((b + - a) / IZR (n - 1)) + a));
          [reflexivity|].
        intros i. reflexivity.
      * cbn. field. exact Hd.
  - exists (fun i => INR i * (b + - a) + a). split.
    + f_equal. rewrite map_map.
      rewrite (arange_affine _ (fun i => INR i * (b + - a) + a));
        [reflexivity|].
      intros i. reflexivity.
    + cbn. ring.
Qed.

(** What [logspace] returns between the logarithms of two positive
    numbers. *)
Lemma logspace_between lo hi n :
  0 < lo -> 0 < hi -> (1 <= n)%Z ->
  exists y,
    logspace (log10 (Fin lo)) (log10 (Fin hi)) n = Ok y /\
    length y = Z.to_nat n /\
    hd_error y = Some (Fin lo) /\
    ((2 <= n)%Z -> last y NaN = Fin hi) /\
    (n = 1%Z -> y = [Fin lo]).
Proof.
  intros Hlo Hhi Hn.
  pose proof (power10_log10 Hlo) as Plo.
  pose proof (power10_log10 Hhi) as Phi.
  rewrite (log10_finite Hlo), (log10_finite Hhi) in *.
  destruct (linspace_finite (ln lo / ln 10) (ln hi / ln 10) Hn) as (g & Hy & Hg).
  unfold logspace. rewrite Hy. cbn [rbind].
  eexists. split; [reflexivity|].
  assert (Hseq : exists k, Z.to_nat n = S k /\ (k = 0%nat <-> n = 1%Z)).
  { exists (Z.to_nat (n - 1)). split; [lia|]. lia. }
  destruct Hseq as (k & Hk & Hk1). rewrite Hk. cbn [seq map].
  rewrite Hg.
  destruct (1 <? n)%Z eqn:E1.
  - apply Z.ltb_lt in E1.
    destruct k as [|k]; [lia|]. cbn [seq map].
    repeat split.
    + rewrite length_map, set_last_length. cbn. rewrite !length_map, length_seq.
      reflexivity.
    + cbn [set_last removelast app map hd_error]. rewrite Plo. reflexivity.
    + intros _.
      rewrite (last_map_nonempty power10 NaN) by (apply set_last_nonempty; discriminate).
      rewrite set_last_last by discriminate. exact Phi.
    + intros ->. lia.
  - apply Z.ltb_ge in E1. assert (n = 1%Z) by lia.
    assert (k = 0%nat) as -> by (apply Hk1; assumption).
    cbn [seq map]. rewrite Plo. repeat split; intros; try reflexivity; lia.
Qed.

(** The points generated from a count when neither [start] nor [stop]
    is given, for an entry-pressure array with a finite minimum and a
    positive finite maximum. *)
Lemma auto_points_between entry n lowest highest :
  (1 <= n)%Z ->
  amin entry = Ok (Fin lowest) ->
  amax entry = Ok (Fin highest) ->
  0 < highest ->
  exists y,
    auto_points entry n None None = Ok y /\
    length y = Z.to_nat n /\
    hd_error y = Some (Fin (Rmax 1 (0.95 * lowest))) /\
    ((2 <= n)%Z -> last y NaN = Fin (1.05 * highest)) /\
    (n = 1%Z -> y = [Fin (Rmax 1 (0.95 * lowest))]).
Proof.
  intros Hn Hmin Hmax Hpos. unfold auto_points.
  rewrite Hmin, Hmax. cbn [rbind fmul].
  rewrite py_max_one.
  replace (lowest * 0.95) with (0.95 * lowest) by ring.
  replace (highest * 1.05) with (1.05 * highest) by ring.
  apply logspace_between.
  - pose proof (Rmax_l 1 (0.95 * lowest)). lra.
  - lra.
  - exact Hn.
Qed.

(** ** Every point of [linspace] and [logspace] *)

Lemma set_last_cons {A} (x z : A) (t : list A) v :
  set_last (x :: z :: t) v = x :: set_last (z :: t) v.
Proof. reflexivity. Qed.

Lemma nth_error_set_last {A} (y : list A) v i :
  (i < length y)%nat ->
  nth_error (set_last y v) i =
    if Nat.eqb (S i) (length y) then Some v else nth_error y i.
Proof.
  revert i. induction y as [|x t IH]; intros i Hi; [cbn in Hi; lia|].
  destruct t as [|z t].
  - cbn in Hi. assert (i = 0%nat) as -> by lia. reflexivity.
  - rewrite set_last_cons. destruct i as [|j]; [reflexivity|].
    cbn [nth_error]. rewrite IH by (cbn in *; lia). reflexivity.
Qed.

Lemma nth_error_map_seq {A} (f : nat -> A) k i :
  (i < k)%nat -> nth_error (map f (seq 0 k)) i = Some (f i).
Proof.
  intros Hi. rewrite nth_error_map, nth_error_seq.
  apply Nat.ltb_lt in Hi. rewrite Hi. reflexivity.
Qed.

(** With at least two samples, the samples of [linspace] are evenly
    spaced from [a] to [b]. *)
Lemma linspace_points a b n :
  (2 <= n)%Z ->
  exists y,
    linspace (Fin a) (Fin b) n = Ok y /\
    length y = Z.to_nat n /\
    forall i, (i < Z.to_nat n)%nat ->
      nth_error y i = Some (Fin (a + INR i * ((b - a) / IZR (n - 1)))).
Proof.
  intros Hn. unfold linspace.
  assert ((n <? 0)%Z = false) as -> by (apply Z.ltb_ge; lia).
  assert ((0 <? n - 1)%Z = true) as -> by (apply Z.ltb_lt; lia).
  assert ((1 <? n)%Z = true) as -> by (apply Z.ltb_lt; lia).
  cbn [fsub fneg fadd].
  assert (Hd : IZR (n - 1) <> 0) by (apply not_0_IZR; lia).
  assert (Hs : fdiv (Fin (b + - a)) (Fin (IZR (n - 1)))
               = Fin ((b + - a) / IZR (n - 1))).
  { cbn. rewrite (proj2 (Reqb_false _ _) Hd). reflexivity. }
  rewrite Hs.
  set (g := fun i : nat => a + INR i * ((b - a) / IZR (n - 1))).
  assert (Hy : (if feq (Fin ((b + - a) / IZR (n - 1))) (Fin 0)
                then map (fun v => fadd v (Fin a))
                       (map (fun v => fmul (fdiv v (Fin (IZR (n - 1))))
                                           (Fin (b + - a)))
                            (arange (Z.to_nat n)))
                else map (fun v => fadd v (Fin a))
                       (map (fun v => fmul v (Fin ((b + - a) / IZR (n - 1))))
                            (arange (Z.to_nat n))))
               = map (fun i => Fin (g i)) (seq 0 (Z.to_nat n))).
  { destruct (feq _ _); rewrite map_map; apply arange_affine; intros i;
      cbn [fadd fmul fdiv];
      rewrite ?(proj2 (Reqb_false _ _) Hd); cbn [fadd fmul fdiv];
      apply f_equal; unfold g; field; exact Hd. }
  match goal with
  | |- exists y, Ok (set_last ?l _) = _ /\ _ =>
      replace l with (map (fun i => Fin (g i)) (seq 0 (Z.to_nat n)))
        by (symmetry; destruct (feq (Fin ((b + - a) / IZR (n - 1))) (Fin 0));
            exact Hy)
  end.
  eexists. split; [reflexivity|].
  split; [rewrite set_last_length, length_map, length_seq; reflexivity|].
  intros i Hi.
  rewrite nth_error_set_last by (rewrite length_map, length_seq; exact Hi).
  rewrite length_map, length_seq.
  destruct (Nat.eqb (S i) (Z.to_nat n)) eqn:E.
  - apply Nat.eqb_eq in E. f_equal. f_equal.
    assert (Hi' : INR i = IZR (n - 1)).
    { rewrite INR_IZR_INZ. f_equal. lia. }
    rewrite Hi'. field. exact Hd.
  - rewrite nth_error_map_seq by exact Hi. reflexivity.
Qed.

Lemma ln_ratio lo hi : 0 < lo -> 0 < hi -> ln (hi / lo) = ln hi - ln lo.
Proof.
  intros Hlo Hhi. unfold Rdiv.
  rewrite ln_mult by (try apply Rinv_0_lt_compat; assumption).
  rewrite ln_Rinv by assumption. ring.
Qed.

(** Ten to a point between two logarithms. *)
Lemma power10_between lo hi t :
  0 < lo -> 0 < hi ->
  Rpower 10 (ln lo / ln 10 + t * (ln hi / ln 10 - ln lo / ln 10))
  = lo * Rpower (hi / lo) t.
Proof.
  intros Hlo Hhi. unfold Rpower.
  rewrite (ln_ratio Hlo Hhi).
  replace ((ln lo / ln 10 + t * (ln hi / ln 10 - ln lo / ln 10)) * ln 10)
    with (ln lo + t * (ln hi - ln lo))
    by (field; pose proof ln_10_pos; lra).
  rewrite exp_plus, exp_ln by exact Hlo. reflexivity.
Qed.

(** With at least two samples, [logspace] between the logarithms of two
    positive numbers returns the geometric sequence from the one to the
    other. *)
Lemma logspace_points lo hi n :
  0 < lo -> 0 < hi -> (2 <= n)%Z ->
  exists y,
    logspace (log10 (Fin lo)) (log10 (Fin hi)) n = Ok y /\
    length y = Z.to_nat n /\
    forall i, (i < Z.to_nat n)%nat ->
      nth_error y i = Some (Fin (lo * Rpower (hi / lo) (INR i / IZR (n - 1)))).
Proof.
  intros Hlo Hhi Hn.
  rewrite (log10_finite Hlo), (log10_finite Hhi).
  destruct (@linspace_points (ln lo / ln 10) (ln hi / ln 10) n Hn)
    as (y & Hy & Hlen & Hpts).
  unfold logspace. rewrite Hy. cbn [rbind].
  eexists. split; [reflexivity|].
  split; [rewrite length_map; exact Hlen|].
  intros i Hi. rewrite nth_error_map, (Hpts i Hi). cbn [option_map power10].
  f_equal. f_equal.
  assert (Hd : IZR (n - 1) <> 0) by (apply not_0_IZR; lia).
  rewrite <- (@power10_between lo hi (INR i / IZR (n - 1)) Hlo Hhi).
  f_equal. field. split; [pose proof ln_10_pos; lra | exact Hd].
Qed.

(** The points generated from a count of at least two. *)
Lemma auto_points_spaced entry n lowest highest :
  (2 <= n)%Z ->
  amin entry = Ok (Fin lowest) ->
  amax entry = Ok (Fin highest) ->
  0 < highest ->
  exists y,
    auto_points entry n None None = Ok y /\
    length y = Z.to_nat n /\
    forall i, (i < Z.to_nat n)%nat ->
      nth_error y i =
        Some (Fin (Rmax 1 (0.95 * lowest)
                   * Rpower (1.05 * highest / Rmax 1 (0.95 * lowest))
                            (INR i / IZR (n - 1)))).
Proof.
  intros Hn Hmin Hmax Hpos. unfold auto_points.
  rewrite Hmin, Hmax. cbn [rbind fmul].
  rewrite py_max_one.
  replace (lowest * 0.95) with (0.95 * lowest) by ring.
  replace (highest * 1.05) with (1.05 * highest) by ring.
  apply logspace_points.
  - pose proof (Rmax_l 1 (0.95 * lowest)). lra.
  - lra.
  - exact Hn.
Qed.

End PointsFacts.

Module PointsSpec.

Import Np NpFacts Topotools OrdinaryPercolation OrdinaryPercolationFacts.
Import RunFacts PointsFacts Examples.
Local Open Scope py_scope.
Local Open Scope R_scope.

Lemma parse_points_from_count proj n w entry lowest highest :
  (1 <= n)%Z ->
  active_entry_pressure proj w entry ->
  amin entry = Ok (Fin lowest) ->
  amax entry = Ok (Fin highest) ->
  0 < highest ->
  exists thresholds w1,
    parse_points proj (PInt n) None None w = (Ok thresholds, w1) /\
    length thresholds = Z.to_nat n /\
    hd_error thresholds = Some (Fin (Rmax 1 (0.95 * lowest))) /\
    ((2 <= n)%Z -> last thresholds NaN = Fin (1.05 * highest)) /\
    (n = 1%Z -> thresholds = [Fin (Rmax 1 (0.95 * lowest))]).
Proof.
  intros Hn Hmode Hmin Hmax Hpos.
  destruct (auto_points_between entry Hn Hmin Hmax Hpos) as (y & Hy & Hrest).
  exists y.
  unfold parse_points, bind, get, lift, update_self, modify.
  destruct Hmode as [[Hm He] | [Hm He]]; rewrite Hm, He; cbn; rewrite Hy;
    eexists; (split; [reflexivity | exact Hrest]).
Qed.

(** C6, as the code has it.  Called with a count [n] of at least two
    points and neither [start] nor [stop], on entry pressures of the
    active mode whose minimum is finite and whose maximum is finite and
    positive, [run] sweeps exactly [n] points.  With [a] the larger of 1
    and 0.95 times the minimum and [b] 1.05 times the maximum, point
    number [i] is [a * (b / a) ^ (i / (n - 1))]: the first is [a], the
    last is [b], and each point is its predecessor times the constant
    ratio [(b / a) ^ (1 / (n - 1))].  (The values are those of real
    arithmetic, which the code follows up to the rounding of its
    floating-point operations.) *)
Theorem run_points_from_count
  (topo : Interface) (proj : Project) (n : Z) (w : state)
  (entry : list float) (lowest highest : R) :
  (2 <= n)%Z ->
  active_entry_pressure proj w entry ->
  amin entry = Ok (Fin lowest) ->
  amax entry = Ok (Fin highest) ->
  0 < highest ->
  exists thresholds w1,
    parse_points proj (PInt n) None None w = (Ok thresholds, w1) /\
    run proj (PInt n) None None w =
      (Pin <- check_inlets ;;
       for_each thresholds (sweep_step proj Pin) ;;;
       convert_sequences)%py w1 /\
    length thresholds = Z.to_nat n /\
    hd_error thresholds = Some (Fin (Rmax 1 (0.95 * lowest))) /\
    last thresholds NaN = Fin (1.05 * highest) /\
    (forall i, (i < Z.to_nat n)%nat ->
       nth_error thresholds i =
         Some (Fin (Rmax 1 (0.95 * lowest)
                    * Rpower (1.05 * highest / Rmax 1 (0.95 * lowest))
                             (INR i / IZR (n - 1))))) /\
    (forall i, (S i < Z.to_nat n)%nat ->
       exists p q,
         nth_error thresholds i = Some (Fin p) /\
         nth_error thresholds (S i) = Some (Fin q) /\
         0 < p /\
         q = p * Rpower (1.05 * highest / Rmax 1 (0.95 * lowest))
                        (1 / IZR (n - 1))).
Proof.
  intros Hn Hmode Hmin Hmax Hpos.
  assert (Hn1 : (1 <= n)%Z) by lia.
  destruct (auto_points_spaced entry Hn Hmin Hmax Hpos) as (y & Hy & Hlen & Hpts).
  destruct (auto_points_between entry Hn1 Hmin Hmax Hpos)
    as (y' & Hy' & _ & Hhd & Hlast & _).
  rewrite Hy in Hy'. injection Hy' as <-.
  assert (Hp : exists w1,
             parse_points proj (PInt n) None None w = (Ok y, w1)).
  { unfold parse_points, bind, get, lift, update_self, modify.
    destruct Hmode as [[Hm He] | [Hm He]]; rewrite Hm, He; cbn; rewrite Hy;
      eexists; reflexivity. }
  destruct Hp as (w1 & Hp).
  exists y, w1.
  split; [exact Hp|].
  split; [unfold run, bind at 1; rewrite Hp; reflexivity|].
  split; [exact Hlen|]. split; [exact Hhd|]. split; [apply Hlast, Hn|].
  split; [exact Hpts|].
  intros i Hi.
  assert (Ha : 0 < Rmax 1 (0.95 * lowest))
    by (pose proof (Rmax_l 1 (0.95 * lowest)); lra).
  assert (Hd : IZR (n - 1) <> 0) by (apply not_0_IZR; lia).
  do 2 eexists.
  split; [apply Hpts; lia|]. split; [apply Hpts, Hi|].
  split.
  - apply Rmult_lt_0_compat; [exact Ha | apply exp_pos].
  - rewrite Rmult_assoc, <- Rpower_plus. f_equal. f_equal.
    rewrite S_INR. field. exact Hd.
Qed.

Lemma amin_1_3 : amin [Fin 1; Fin 3] = Ok (Fin 1).
Proof. cbv [amin fold_left minimum isnan fle]. rewrite Rleb_IZR. reflexivity. Qed.

Lemma amax_1_3 : amax [Fin 1; Fin 3] = Ok (Fin 3).
Proof. cbv [amax fold_left maximum isnan fle]. rewrite Rleb_IZR. reflexivity. Qed.

Lemma line3_active : active_entry_pressure line3 fresh [Fin 1; Fin 3].
Proof. left. split; reflexivity. Qed.

Lemma run_points_from_count_witness :
  exists thresholds w1,
    parse_points line3 (PInt 3) None None fresh = (Ok thresholds, w1) /\
    run (topo := Reference) line3 (PInt 3) None None fresh =
      (Pin <- check_inlets ;;
       for_each thresholds (sweep_step (topo := Reference) line3 Pin) ;;;
       convert_sequences)%py w1 /\
    length thresholds = 3%nat /\
    hd_error thresholds = Some (Fin (Rmax 1 (0.95 * 1))) /\
    last thresholds NaN = Fin (1.05 * 3) /\
    (forall i, (i < 3)%nat ->
       nth_error thresholds i =
         Some (Fin (Rmax 1 (0.95 * 1)
                    * Rpower (1.05 * 3 / Rmax 1 (0.95 * 1))
                             (INR i / IZR (3 - 1))))).
Proof.
  destruct (@run_points_from_count Reference line3 3 fresh [Fin 1; Fin 3] 1 3)
    as (thresholds & w1 & H1 & H2 & H3 & H4 & H5 & H6 & _).
  - lia.
  - exact line3_active.
  - exact amin_1_3.
  - exact amax_1_3.
  - lra.
  - exists thresholds, w1. repeat split; assumption.
Defined.

(** C6, as stated, fails.  On the three-pore line the smallest throat
    entry pressure is 1; [run(points=3)] starts its sweep at 1, not at
    0.95, and [run(points=1)] sweeps the single point 1, which is not
    1.05 times the largest entry pressure, 3. *)
Lemma generated_points_start_at_one :
  amin [Fin 1; Fin 3] = Ok (Fin 1) /\
  amax [Fin 1; Fin 3] = Ok (Fin 3) /\
  (exists thresholds w1,
     parse_points line3 (PInt 3) None None fresh = (Ok thresholds, w1) /\
     hd_error thresholds = Some (Fin 1) /\
     Fin 1 <> Fin (0.95 * 1)) /\
  (exists w1,
     parse_points line3 (PInt 1) None None fresh = (Ok [Fin 1], w1) /\
     last [Fin 1] NaN <> Fin (1.05 * 3)).
Proof.
  assert (Hone : Rmax 1 (0.95 * 1) = 1) by (apply Rmax_left; lra).
  split; [exact amin_1_3|]. split; [exact amax_1_3|]. split.
  - destruct (@parse_points_from_count line3 3 fresh [Fin 1; Fin 3] 1 3)
      as (thresholds & w1 & Hp & _ & Hhd & _);
      [lia | exact line3_active | exact amin_1_3 | exact amax_1_3 | lra |].
    exists thresholds, w1. rewrite Hone in Hhd.
    split; [exact Hp|]. split; [exact Hhd|].
    intros H. injection H as H. lra.
  - destruct (@parse_points_from_count line3 1 fresh [Fin 1; Fin 3] 1 3)
      as (thresholds & w1 & Hp & _ & _ & _ & Hsingle);
      [lia | exact line3_active | exact amin_1_3 | exact amax_1_3 | lra |].
    rewrite (Hsingle eq_refl), Hone in Hp.
    exists w1. split; [exact Hp|].
    cbn. intros H. injection H as H. lra.
Qed.

End PointsSpec.

(* ================================================================== *)
(** * The label queries of [Tools]                                     *)
(* ================================================================== *)

Module ToolsFacts.

Import Np Tools.
Local Open Scope py_scope.

Lemma where_from_In k a i :
  In i (where_from k a) <-> (k <= i /\ nth_error a (i - k) = Some true).
Proof.
  revert k. induction a as [|b t IH]; intros k; cbn.
  - split; [tauto|]. intros [_ H]. destruct (i - k); discriminate.
  - assert (Hrec : In i (where_from (S k) t) <->
                   (k < i /\ nth_error (b :: t) (i - k) = Some true)).
    { rewrite IH. split; intros [H1 H2]; (split; [lia|]).
      - replace (i - k) with (S (i - S k)) by lia. exact H2.
      - replace (i - k) with (S (i - S k)) in H2 by lia. exact H2. }
    destruct b; cbn [In]; rewrite Hrec; split.
    + intros [<-|[H1 H2]].
      * split; [lia|]. rewrite Nat.sub_diag. reflexivity.
      * split; [lia | exact H2].
    + intros [H1 H2]. destruct (Nat.eq_dec k i) as [->|]; [left; reflexivity|].
      right. split; [lia | exact H2].
    + intros [H1 H2]. split; [lia | exact H2].
    + intros [H1 H2]. destruct (Nat.eq_dec k i) as [->|].
      * rewrite Nat.sub_diag in H2. discriminate.
      * split; [lia | exact H2].
Qed.

Lemma where_true_In a i : In i (where_true a) <-> nth_error a i = Some true.
Proof.
  unfold where_true. rewrite where_from_In, Nat.sub_0_r.
  split; [tauto|]. intros H. split; [lia | exact H].
Qed.

Lemma where_from_length k a :
  length (where_from k a) = count_occ bool_dec a true.
Proof.
  revert k. induction a as [|b t IH]; intros k; cbn; [reflexivity|].
  destruct b; cbn.
  - destruct (bool_dec true true); [|congruence]. f_equal. apply IH.
  - destruct (bool_dec false true); [discriminate|]. apply IH.
Qed.

Lemma sum_bool_where a : sum_bool a = Z.of_nat (length (where_true a)).
Proof. unfold sum_bool, where_true. rewrite where_from_length. reflexivity. Qed.

Lemma map2_nth_error' {A B C} (f : A -> B -> C) a b i :
  nth_error (map2 f a b) i =
  match nth_error a i, nth_error b i with
  | Some x, Some y => Some (f x y)
  | _, _ => None
  end.
Proof.
  revert b i. induction a as [|x a IH]; intros [|y b] [|i]; cbn; try reflexivity.
  - destruct (nth_error a i); reflexivity.
  - apply IH.
Qed.

Lemma map2_length' {A B C} (f : A -> B -> C) a b :
  length a = length b -> length (map2 f a b) = length a.
Proof.
  revert b. induction a as [|x a IH]; intros [|y b]; cbn; intros H;
    try reflexivity; try discriminate.
  f_equal. apply IH. lia.
Qed.

Section Counting.

Variables (self : t) (e : element) (N : nat).

(** The loop of the mode 'not_intersection' counts, for every element,
    the entries of [labels] that label it. *)
Lemma count_labels labels acc :
  length acc = N ->
  Forall (defined_label self e N) labels ->
  exists acc',
    over_labels self e
      (fun not_intersect info => elementwise Z.add not_intersect (int8 info))
      labels acc = Ok acc' /\
    length acc' = N /\
    forall i c, nth_error acc i = Some c ->
                nth_error acc' i = Some (c + carried self e labels i)%Z.
Proof.
  revert acc. induction labels as [|l rest IH]; intros acc Hlen Hdef.
  - exists acc. cbn. repeat split; auto.
    intros i c H. rewrite Z.add_0_r. exact H.
  - inversion Hdef as [|? ? (m & Hm & Hml) Hrest]; subst.
    cbn [over_labels]. unfold _get_info, dict_item. rewrite Hm. cbn [rbind].
    unfold elementwise, int8. rewrite length_map, Hml, Nat.eqb_refl. cbn [rbind].
    destruct (IH (map2 Z.add acc (map (fun b : bool => if b then 1%Z else 0%Z) m)))
      as (acc' & Hacc' & Hlen' & Hnth); auto.
    { rewrite map2_length'; [reflexivity|]. rewrite length_map. lia. }
    exists acc'. repeat split; auto.
    intros i c Hc.
    assert (Hi : i < length m).
    { rewrite Hml. apply nth_error_Some. congruence. }
    destruct (nth_error m i) as [b|] eqn:Eb;
      [|apply nth_error_None in Eb; lia].
    rewrite (Hnth i (c + (if b then 1 else 0))%Z).
    + f_equal. cbn [carried]. unfold carriesb. rewrite Hm.
      rewrite (nth_error_nth _ _ _ Eb). lia.
    + rewrite map2_nth_error', nth_error_map, Hc, Eb. reflexivity.
Qed.

Lemma carriesb_carries l i :
  carriesb self e l i = true <-> carries self e l i.
Proof.
  unfold carriesb, carries. split.
  - destruct (dict_get (info_of self e) l) as [m|]; [|discriminate].
    intros H. exists m. split; [reflexivity|].
    destruct (nth_error m i) as [b|] eqn:Eb.
    + rewrite (nth_error_nth _ _ _ Eb) in H. congruence.
    + rewrite nth_overflow in H by (apply nth_error_None; exact Eb). discriminate.
  - intros (m & -> & Hm). apply nth_error_nth, Hm.
Qed.

Lemma carried_nonneg L i : (0 <= carried self e L i)%Z.
Proof. induction L as [|l rest IH]; cbn; [lia|]. destruct (carriesb self e l i); lia. Qed.

Lemma carried_zero L i :
  carried self e L i = 0%Z <-> forall l, In l L -> ~ carries self e l i.
Proof.
  induction L as [|l rest IH]; cbn.
  - split; [intros _ l []| reflexivity].
  - pose proof (carried_nonneg rest i).
    destruct (carriesb self e l i) eqn:E.
    + split; [lia|]. intros Hn. exfalso.
      apply (Hn l); [left; reflexivity | apply carriesb_carries, E].
    + rewrite Z.add_0_l, IH. split.
      * intros Hn l' [<-|Hl']; [|apply Hn, Hl'].
        rewrite <- carriesb_carries. congruence.
      * intros Hn l' Hl'. apply Hn. right. exact Hl'.
Qed.

(** For a list without repetition, the count is one exactly when one
    label of the list is carried. *)
Lemma carried_one L i :
  NoDup L ->
  carried self e L i = 1%Z <-> carries_exactly_one self e L i.
Proof.
  unfold carries_exactly_one.
  induction 1 as [|l rest Hnotin Hnd IH]; cbn.
  - split; [lia|]. intros (l & [] & _).
  - pose proof (carried_nonneg rest i).
    destruct (carriesb self e l i) eqn:E.
    + apply carriesb_carries in E. split.
      * intros Hc. assert (Hz : carried self e rest i = 0%Z) by lia.
        rewrite carried_zero in Hz.
        exists l. split; [left; reflexivity|]. split; [exact E|].
        intros l' [<-|Hl'] Hcar; [reflexivity|]. exfalso. eapply Hz; eauto.
      * intros (l0 & Hin & Hcar & Huniq).
        assert (l = l0) as <- by (apply Huniq; [left; reflexivity | exact E]).
        assert (Hz : carried self e rest i = 0%Z); [|lia].
        apply carried_zero. intros l' Hl' Hc'.
        assert (l' = l) by (apply Huniq; [right; exact Hl' | exact Hc']).
        subst. contradiction.
    + rewrite Z.add_0_l, IH.
      assert (En : ~ carries self e l i)
        by (rewrite <- carriesb_carries; congruence).
      split.
      * intros (l0 & Hin & Hcar & Huniq). exists l0.
        split; [right; exact Hin|]. split; [exact Hcar|].
        intros l' [<-|Hl'] Hc'; [contradiction | apply Huniq; assumption].
      * intros (l0 & [<-|Hin] & Hcar & Huniq); [contradiction|].
        exists l0. split; [exact Hin|]. split; [exact Hcar|].
        intros l' Hl' Hc'. apply Huniq; [right; exact Hl' | exact Hc'].
Qed.

(** The mask of the mode 'not_intersection'. *)
Lemma not_intersection_mask L :
  defined_label self e N "all" ->
  Forall (defined_label self e N) L ->
  exists mask,
    _get_indices self e L false "not_intersection" = Ok (Mask mask) /\
    _get_indices self e L true "not_intersection"
      = Ok (Indices (where_true mask)) /\
    length mask = N /\
    forall i, i < N ->
              nth_error mask i = Some (carried self e L i =? 1)%Z.
Proof.
  intros (all & Hall & Halen) Hdef.
  destruct (@count_labels L (map (fun _ => 0%Z) all)) as (acc & Hacc & Hlen & Hnth);
    [rewrite length_map; exact Halen | exact Hdef |].
  exists (map (fun c => (c =? 1)%Z) acc).
  unfold _get_indices. cbn [String.eqb Ascii.eqb Bool.eqb].
  unfold _get_info at 1 2, dict_item. rewrite Hall. cbn [rbind].
  rewrite Hacc. cbn [rbind].
  repeat split.
  - rewrite length_map. exact Hlen.
  - intros i Hi. rewrite nth_error_map.
    rewrite (Hnth i 0%Z); [reflexivity|].
    rewrite nth_error_map.
    destruct (nth_error all i) eqn:Ea; [reflexivity|].
    apply nth_error_None in Ea. lia.
Qed.

End Counting.

End ToolsFacts.

Module ToolsSpec.

Import Np Tools ToolsFacts.
Local Open Scope py_scope.

(** C9.  For a set [L] of labels (a list without repetition) that are
    defined on the [N] elements of the collection, the index query of
    mode 'not_intersection' returns the elements that carry exactly one
    label of [L], as indices or as a mask, and the count returns their
    number. *)
Theorem not_intersection_is_exactly_one
  (self : t) (e : element) (N : nat) (L : list string) :
  NoDup L ->
  defined_label self e N "all" ->
  Forall (defined_label self e N) L ->
  exists mask,
    query self e (LList L) false "not_intersection" = Ok (Mask mask) /\
    query self e (LList L) true "not_intersection"
      = Ok (Indices (where_true mask)) /\
    count self e (LList L) "not_intersection"
      = Ok (Z.of_nat (length (where_true mask))) /\
    length mask = N /\
    (forall i, nth_error mask i = Some true <-> carries_exactly_one self e L i) /\
    (forall i, In i (where_true mask) <-> carries_exactly_one self e L i).
Proof.
  intros Hnd Hall Hdef.
  destruct (not_intersection_mask Hall Hdef) as (mask & Hm & Hi & Hlen & Hnth).
  assert (Hmask : forall i,
    nth_error mask i = Some true <-> carries_exactly_one self e L i).
  { intros i. rewrite <- (carried_one self e i Hnd). split.
    - intros H. assert (i < N).
      { rewrite <- Hlen. apply nth_error_Some. congruence. }
      rewrite (Hnth i) in H by assumption. injection H as H.
      apply Z.eqb_eq, H.
    - intros H. assert (i < N).
      { apply (carried_one self e i Hnd) in H.
        destruct H as (l & Hin & (m & Hm' & Hmi) & _).
        rewrite Forall_forall in Hdef.
        destruct (Hdef l Hin) as (m' & Hm'' & Hml).
        assert (m' = m) by congruence. subst m'. rewrite <- Hml.
        apply nth_error_Some. congruence. }
      rewrite (Hnth i) by assumption. rewrite H. reflexivity. }
  exists mask.
  assert (Hq : forall r,
    query self e (LList L) r "not_intersection"
    = _get_indices self e L r "not_intersection") by (destruct e; reflexivity).
  rewrite !Hq. repeat split; auto.
  - destruct e; unfold count, num_pores, num_throats, get_pore_indices,
      get_throat_indices, pores, throats; cbn [as_list];
      rewrite Hm; cbn [rbind sum_ind]; rewrite sum_bool_where; reflexivity.
  - apply Hmask.
  - apply Hmask.
  - rewrite where_true_In. apply Hmask.
  - rewrite where_true_In. apply Hmask.
Qed.

Lemma not_intersection_is_exactly_one_witness :
  exists mask,
    query Examples.labelled_net pore (LList ["top"; "front"]) false
          "not_intersection" = Ok (Mask mask) /\
    query Examples.labelled_net pore (LList ["top"; "front"]) true
          "not_intersection" = Ok (Indices (where_true mask)) /\
    count Examples.labelled_net pore (LList ["top"; "front"])
          "not_intersection" = Ok (Z.of_nat (length (where_true mask))) /\
    length mask = 4 /\
    (forall i, nth_error mask i = Some true <->
               carries_exactly_one Examples.labelled_net pore ["top"; "front"] i) /\
    (forall i, In i (where_true mask) <->
               carries_exactly_one Examples.labelled_net pore ["top"; "front"] i).
Proof.
  apply (@not_intersection_is_exactly_one Examples.labelled_net pore 4
           ["top"; "front"]).
  - repeat constructor; cbn; intuition discriminate.
  - eexists. split; reflexivity.
  - repeat constructor; eexists; split; reflexivity.
Defined.

(** On the four pores the query answers the first and the third pore. *)
Lemma not_intersection_example :
  pores Examples.labelled_net (LList ["top"; "front"]) true "not_intersection"
    = Ok (Indices [0; 2]) /\
  num_pores Examples.labelled_net (LList ["top"; "front"]) "not_intersection"
    = Ok 2%Z.
Proof. split; reflexivity. Qed.

End ToolsSpec.

(* ================================================================== *)
(** * The relative permeability orchestrator                           *)
(* ================================================================== *)

Module RelativePermeabilityFacts.

Import Np NpFacts RelativePermeability.
Local Open Scope py_scope.

(** ** Steps that do not touch the caller's list *)

Lemma pairs_swept_app l1 l2 :
  pairs_swept (l1 ++ l2) = pairs_swept l1 ++ pairs_swept l2.
Proof. unfold pairs_swept. apply flat_map_app. Qed.

Lemma sweeps_ret {A} (a : A) : sweeps [] (ret a).
Proof.
  intros w r w' H. inversion H; subst.
  repeat split. intros _ _. rewrite app_nil_r. reflexivity.
Qed.

Lemma sweeps_raise {A} e : sweeps [] (@raise state A e).
Proof. intros w r w' H. inversion H; subst. repeat split. intros a Ha. discriminate. Qed.

Lemma sweeps_lift {A} (x : result A) : sweeps [] (lift x).
Proof.
  intros w r w' H. inversion H; subst.
  repeat split. intros _ _. rewrite app_nil_r. reflexivity.
Qed.

Lemma sweeps_emit e : sweeps (pairs_swept [e]) (emit e).
Proof.
  intros w r w' H. inversion H; subst. cbn [lists self log].
  repeat split. intros _ _. apply pairs_swept_app.
Qed.

Lemma sweeps_emit_flow ph conduit dim : sweeps [] (emit (FlowSolve ph conduit dim)).
Proof. exact (@sweeps_emit (FlowSolve ph conduit dim)). Qed.

Lemma sweeps_emit_purge ph : sweeps [] (emit (Purge ph)).
Proof. exact (@sweeps_emit (Purge ph)). Qed.

Lemma sweeps_update f :
  (forall o, input_vect (f o) = input_vect o) -> sweeps [] (update_self f).
Proof.
  intros Hf w r w' H. inversion H; subst. cbn [lists self log].
  repeat split; [apply Hf|]. intros _ _. rewrite app_nil_r. reflexivity.
Qed.

Lemma sweeps_bind {A B} p1 p2 (m : M state A) (k : A -> M state B) :
  sweeps p1 m -> (forall a, sweeps p2 (k a)) -> sweeps (p1 ++ p2) (bind m k).
Proof.
  intros Hm Hk w r w' H. unfold bind in H.
  destruct (m w) as [[a|e] w1] eqn:E; destruct (Hm _ _ _ E) as (H1 & H2 & H3).
  - destruct (Hk a _ _ _ H) as (K1 & K2 & K3).
    repeat split; [congruence | congruence |].
    intros b Hb. rewrite (K3 b Hb), (H3 a eq_refl), app_assoc. reflexivity.
  - inversion H; subst. repeat split; auto. intros b Hb. discriminate.
Qed.

Lemma sweeps_then {A B} p (m : M state A) (k : A -> M state B) :
  sweeps [] m -> (forall a, sweeps p (k a)) -> sweeps p (bind m k).
Proof. intros Hm Hk. exact (@sweeps_bind A B [] p m k Hm Hk). Qed.

Lemma sweeps_get {B} p (k : state -> M state B) :
  (forall w0, sweeps p (k w0)) -> sweeps p (bind get k).
Proof. intros Hk w r w' H. unfold bind, get in H. apply (Hk w _ _ _ H). Qed.

Lemma sweeps_for_each {A} (xs : list A) body :
  (forall x, sweeps [] (body x)) -> sweeps [] (for_each xs body).
Proof.
  intros Hb. induction xs as [|x xs IH]; cbn [for_each].
  - apply sweeps_ret.
  - apply sweeps_then; [apply Hb | intros _; exact IH].
Qed.

Lemma sweeps_fold_silent {A B} (xs : list A) (body : B -> A -> M state B) acc :
  (forall acc x, sweeps [] (body acc x)) -> sweeps [] (fold_m xs body acc).
Proof.
  intros Hb. revert acc. induction xs as [|x xs IH]; intros acc; cbn [fold_m].
  - apply sweeps_ret.
  - apply sweeps_then; [apply Hb | intros acc'; apply IH].
Qed.

Lemma sweeps_fold_pairs {B} (xs : list string) (body : B -> string -> M state B) acc :
  (forall acc x, sweeps [x] (body acc x)) -> sweeps xs (fold_m xs body acc).
Proof.
  intros Hb. revert acc. induction xs as [|x xs IH]; intros acc; cbn [fold_m].
  - apply sweeps_ret.
  - change (x :: xs) with ([x] ++ xs).
    apply sweeps_bind; [apply Hb | intros acc'; apply IH].
Qed.

(** The steps that make no invasion run. *)
Ltac silent :=
  repeat first
    [ apply sweeps_ret
    | apply sweeps_raise
    | apply sweeps_lift
    | apply sweeps_emit_flow
    | apply sweeps_emit_purge
    | apply sweeps_update; intros ?; reflexivity
    | apply sweeps_get; intros ?
    | apply sweeps_then; [|intros ?]
    | apply sweeps_for_each; intros ?
    | match goal with
      | |- sweeps _ (if ?b then _ else _) => destruct b
      | |- sweeps _ (match ?x with _ => _ end) => destruct x
      end ].

(** ** Sorting strings *)

Lemma insert_str_perm x l : Permutation (x :: l) (insert_str x l).
Proof.
  induction l as [|y t IH]; cbn; [reflexivity|].
  destruct (String.leb x y); [reflexivity|].
  rewrite perm_swap. apply perm_skip, IH.
Qed.

Lemma py_sort_perm l : Permutation l (py_sort l).
Proof.
  induction l as [|x t IH]; cbn; [reflexivity|].
  rewrite <- insert_str_perm. apply perm_skip, IH.
Qed.

Lemma insert_str_sorted x l : leb_sorted l -> leb_sorted (insert_str x l).
Proof.
  unfold leb_sorted. induction 1 as [|y t Ht IH Hy]; cbn.
  - repeat constructor.
  - destruct (String.leb x y) eqn:E.
    + repeat constructor; assumption.
    + constructor; [exact IH|].
      assert (Hyx : String.leb y x = true)
        by (destruct (String.leb_total x y); congruence).
      destruct t as [|z t]; cbn.
      * constructor. exact Hyx.
      * destruct (String.leb x z); constructor;
          [exact Hyx | inversion Hy; assumption].
Qed.

Lemma py_sort_sorted l : leb_sorted (py_sort l).
Proof.
  induction l as [|x t IH]; cbn; [constructor|].
  apply insert_str_sorted, IH.
Qed.

Section Orchestrator.

Context {collab : Collaborators}.

Lemma sweeps_register_pair pair : sweeps [] (register_pair pair).
Proof. unfold register_pair. silent. Qed.

Lemma sweeps_baseline Fi Fo dim : sweeps [] (baseline Fi Fo dim).
Proof. unfold baseline, baseline_solve. silent. Qed.

Lemma sweeps_store_curves pair c : sweeps [] (store_curves pair c).
Proof. unfold store_curves. silent. Qed.

Lemma sweeps_solve_point flow Fi Fo res1 Snw c :
  sweeps [] (solve_point flow Fi Fo res1 Snw c).
Proof. unfold solve_point. silent. Qed.

Lemma sweeps_saturation_point pair flow Fi Fo inv c Snw :
  sweeps [] (saturation_point pair flow Fi Fo inv c Snw).
Proof.
  unfold saturation_point.
  apply sweeps_then.
  - destruct (any_nonzero _); [apply sweeps_solve_point | apply sweeps_ret].
  - intros c'. apply sweeps_then; [apply sweeps_store_curves|].
    intros _. apply sweeps_ret.
Qed.

Lemma sweeps_axis_pair Sarr Ii Fi Fo inv pair :
  sweeps [pair] (axis_pair Sarr Ii Fi Fo inv pair).
Proof.
  unfold axis_pair.
  apply sweeps_then; [apply sweeps_lift | intros invasion_dim].
  apply sweeps_then; [apply sweeps_lift | intros flow].
  apply sweeps_then; [apply sweeps_lift | intros inlets].
  change [pair] with (pairs_swept [InvasionRun pair] ++ []).
  apply sweeps_bind; [apply sweeps_emit | intros _].
  apply sweeps_then; [|intros _; apply sweeps_ret].
  apply sweeps_fold_silent. intros acc x. apply sweeps_saturation_point.
Qed.

Lemma siv_then {A B} (m : M state A) (k : A -> M state B) :
  sweeps [] m -> (forall a, sweeps_input_vect (k a)) ->
  sweeps_input_vect (bind m k).
Proof.
  intros Hm Hk w r w' H. unfold bind in H.
  destruct (m w) as [[a|e] w1] eqn:E; destruct (Hm _ _ _ E) as (H1 & H2 & H3).
  - destruct (Hk a _ _ _ H) as (K1 & K2 & K3).
    split; [congruence|]. split; [congruence|].
    intros b Hb. destruct (K3 b Hb) as (l & Hl & Hp).
    exists l. split; [congruence|].
    rewrite Hp, (H3 a eq_refl), app_nil_r, H1. reflexivity.
  - inversion H; subst. split; [exact H1|]. split; [exact H2|].
    intros b Hb. discriminate.
Qed.

Lemma siv_get {B} (k : state -> M state B) :
  (forall w0, sweeps_input_vect (k w0)) -> sweeps_input_vect (bind get k).
Proof. intros Hk w r w' H. unfold bind, get in H. apply (Hk w _ _ _ H). Qed.

(** Lines 138-187 of [setup_ip_algs]. *)
Lemma siv_axis_pairs Sarr Ii Fi Fo inv :
  sweeps_input_vect
    (bind get (fun w =>
       match input_vect (self w) with
       | None => raise (KeyError "input_vect")
       | Some l =>
           bind (fold_m (lists w l) (axis_pair Sarr Ii Fi Fo) inv)
                (fun _ => ret tt)
       end)).
Proof.
  intros w r w' H. unfold bind at 1, get in H.
  destruct (input_vect (self w)) as [l|] eqn:El.
  - assert (Hs : sweeps (lists w l ++ [])
                   (bind (fold_m (lists w l) (axis_pair Sarr Ii Fi Fo) inv)
                         (fun _ => ret tt))).
    { apply sweeps_bind.
      - apply sweeps_fold_pairs. intros acc x. apply sweeps_axis_pair.
      - intros _. apply sweeps_ret. }
    destruct (Hs _ _ _ H) as (H1 & H2 & H3).
    split; [exact H1|]. split; [congruence|].
    intros a Ha. exists l. split; [reflexivity|].
    rewrite (H3 a Ha), app_nil_r. reflexivity.
  - inversion H; subst. split; [reflexivity|]. split; [congruence|].
    intros a Ha. discriminate.
Qed.

(** ** The sweep over the saturations returns *)

Lemma saturation_point_returns pair flow Fi Fo inv c Snw w :
  solvable Fi Fo w flow ->
  exists c' w',
    saturation_point pair flow Fi Fo inv c Snw w = (Ok c', w') /\
    forall f, solvable Fi Fo w f -> solvable Fi Fo w' f.
Proof.
  intros ([water_ph Hw] & [oil_ph Ho] & [bp1 H1] & [bp2 H2] & [kw Hkw] &
          [kn Hkn] & [fi Hfi] & [fo Hfo]).
  unfold saturation_point.
  destruct (any_nonzero (res_throat_occupancy (invasion_results Snw inv))).
  - unfold solve_point, store_curves, bind, get, lift, the_phase, dict_item,
      update_self, modify, emit, ret.
    rewrite Ho, Hw. cbn [self BP_1 BP_2 perm_wp perm_nwp set_wp set_nwp].
    rewrite H1, H2, Hfi, Hfo, Hkw, Hkn.
    eexists. eexists. split; [reflexivity|].
    intros f (_ & _ & Hrest). cbn.
    split; [eexists; reflexivity|]. split; [eexists; reflexivity|]. exact Hrest.
  - unfold store_curves, bind, update_self, modify, ret.
    eexists. eexists. split; [reflexivity|].
    intros f Hf. exact Hf.
Qed.

Lemma saturation_sweep_returns pair flow Fi Fo inv Sarr c w :
  solvable Fi Fo w flow ->
  exists c' w',
    fold_m Sarr (saturation_point pair flow Fi Fo inv) c w = (Ok c', w') /\
    forall f, solvable Fi Fo w f -> solvable Fi Fo w' f.
Proof.
  revert c w. induction Sarr as [|Snw rest IH]; intros c w Hs.
  - exists c, w. split; [reflexivity | auto].
  - destruct (@saturation_point_returns pair flow Fi Fo inv c Snw w Hs)
      as (c1 & w1 & E1 & P1).
    destruct (IH c1 w1 (P1 _ Hs)) as (c2 & w2 & E2 & P2).
    exists c2, w2. split.
    + cbn [fold_m]. unfold bind. rewrite E1. exact E2.
    + intros f Hf. apply P2, P1, Hf.
Qed.

(** An axis pair of two characters whose invasion inlets are known and
    whose flow can be solved is swept without an exception. *)
Lemma axis_pair_returns Sarr Ii Fi Fo inv pair a b inlets w :
  char_at pair 0 = Ok a ->
  char_at pair 1 = Ok b ->
  dict_get Ii a = Some inlets ->
  solvable Fi Fo w b ->
  exists inv' w',
    axis_pair Sarr Ii Fi Fo inv pair w = (Ok inv', w') /\
    forall f, solvable Fi Fo w f -> solvable Fi Fo w' f.
Proof.
  intros Ha Hb Hi Hs.
  unfold axis_pair, bind at 1 2 3 4, lift, dict_item, emit, modify.
  rewrite Ha, Hb, Hi.
  set (w1 := {| self := self w; lists := lists w;
                log := log w ++ [InvasionRun pair] |}).
  assert (Hs1 : forall f, solvable Fi Fo w f -> solvable Fi Fo w1 f)
    by (intros f Hf; exact Hf).
  destruct (@saturation_sweep_returns pair b Fi Fo
              (invasion_run (set_inlets inlets inv)) Sarr
              {| relperm_wp_list := []; relperm_nwp_list := []; Snwparr := [] |}
              w1 (Hs1 _ Hs))
    as (c' & w' & E & P).
  eexists. exists w'. split.
  - unfold bind. rewrite E. reflexivity.
  - intros f Hf. apply P, Hs1, Hf.
Qed.

(** [np.linspace(0, 1, num=10)] *)
Lemma Sarr_values : linspace (Fin 0) (Fin 1) 10 = Ok ten_saturations.
Proof.
  unfold linspace, ten_saturations.
  cbn [Z.ltb Z.compare Z.sub Z.add Z.opp Z.pos_sub Pos.pred_double fsub fneg fadd
       fdiv Z.to_nat Pos.to_nat Pos.iter_op Nat.add].
  assert (H9 : Reqb (IZR (10 - 1)) 0 = false) by (apply Reqb_false; cbn; lra).
  cbn in H9. rewrite H9.
  assert (Hs : feq (Fin ((1 + - 0) / 9)) (Fin 0) = false)
    by (apply Reqb_false; lra).
  rewrite Hs.
  change (1 <? 10)%Z with true. change (Pos.to_nat 10) with 10%nat.
  cbn [arange seq map fmul fadd set_last removelast app].
  f_equal.
  repeat (apply f_equal2; [f_equal; simpl INR; lra|]).
  reflexivity.
Qed.

(** ** [setup] returns *)

Lemma dict_get_set_same {V} (d : dict V) k v : dict_get (dict_set d k v) k = Some v.
Proof.
  induction d as [|[k' v'] d IH]; cbn.
  - rewrite String.eqb_refl. reflexivity.
  - destruct (String.eqb k k') eqn:E; cbn; rewrite E; [reflexivity | exact IH].
Qed.

Lemma dict_get_set_other {V} (d : dict V) k k' v :
  k' <> k -> dict_get (dict_set d k v) k' = dict_get d k'.
Proof.
  intros Hk. induction d as [|[k0 v0] d IH]; cbn.
  - apply String.eqb_neq in Hk. rewrite Hk. reflexivity.
  - destruct (String.eqb k k0) eqn:E; cbn.
    + apply String.eqb_eq in E. subst k0.
      apply String.eqb_neq in Hk. rewrite Hk. reflexivity.
    + rewrite IH. reflexivity.
Qed.

Lemma has_set {V} (d : dict V) k v k' :
  has (dict_set d k v) k' <-> k' = k \/ has d k'.
Proof.
  unfold has. destruct (string_dec k' k) as [->|Hne].
  - rewrite dict_get_set_same. split; [auto | intros _; eauto].
  - rewrite dict_get_set_other by exact Hne. split; [auto | intros [?|?]; [contradiction | assumption]].
Qed.

Lemma has_keys {V} (d : dict V) k : has d k <-> In k (dict_keys d).
Proof.
  unfold has, dict_keys. induction d as [|[k0 v0] d IH]; cbn.
  - split; [intros [v Hv]; discriminate | tauto].
  - destruct (String.eqb k k0) eqn:E.
    + apply String.eqb_eq in E. subst. split; [auto | eauto].
    + apply String.eqb_neq in E. rewrite IH. split; [auto|].
      intros [H|H]; [congruence | exact H].
Qed.

Lemma has_fold_set {V W} (f : V -> W) (d : dict V) (acc : dict W) k :
  has (fold_left (fun out kv => dict_set out (fst kv) (f (snd kv))) d acc) k
  <-> has acc k \/ has d k.
Proof.
  revert acc. induction d as [|[k0 v0] d IH]; intros acc; cbn [fold_left fst snd].
  - split; [auto | intros [H|[v H]]; [exact H | discriminate]].
  - rewrite IH, has_set, (has_keys ((k0, v0) :: d)), (has_keys d). cbn.
    intuition (subst; auto).
Qed.

Lemma has_pores_by_dim d k : has (pores_by_dim d) k <-> has d k.
Proof.
  unfold pores_by_dim. rewrite (has_fold_set network_pores). 
  split; [intros [[v H]|H]; [discriminate | exact H] | auto].
Qed.

Lemma has_subsample d k : has (subsample d) k <-> has d k.
Proof.
  unfold subsample. rewrite (has_fold_set (@every_other nat)).
  split; [intros [[v H]|H]; [discriminate | exact H] | auto].
Qed.

Lemma axis_inlet a : axis a -> has inlet_dict a /\ has outlet_dict a.
Proof. intros [-> | [-> | ->]]; split; eexists; reflexivity. Qed.

(** What [register_pair] leaves behind for the pair of the axes [a] and [b]. *)
Lemma register_pair_returns p w :
  axis_pair_string p ->
  exists a b w',
    char_at p 0 = Ok a /\ char_at p 1 = Ok b /\
    register_pair p w = (Ok tt, w') /\
    has (inv_inlets (self w')) a /\
    has (flow_inlets (self w')) b /\
    (forall k, has (inv_inlets (self w)) k -> has (inv_inlets (self w')) k) /\
    (forall k, has (flow_inlets (self w)) k -> has (flow_inlets (self w')) k) /\
    (consistent (self w) -> consistent (self w')).
Proof.
  intros (a & b & Ha & Hb & Xa & Xb).
  destruct (axis_inlet Xa) as ([ia Hia] & _).
  destruct (axis_inlet Xb) as ([ib Hib] & [ob Hob]).
  exists a, b.
  unfold register_pair, bind, lift, dict_item, update_self, modify.
  rewrite Ha, Hb, Hib, Hob, Hia.
  eexists. split; [reflexivity|]. split; [reflexivity|]. split; [reflexivity|].
  cbn [self inv_inlets flow_inlets set_flow_outlets set_flow_inlets
       set_inv_inlets set_BP_2 set_BP_1].
  split; [apply has_set; auto|]. split; [apply has_set; auto|].
  split; [intros k Hk; apply has_set; auto|].
  split; [intros k Hk; apply has_set; auto|].
  unfold consistent.
  cbn [flow_inlets flow_outlets BP_1 BP_2 set_flow_outlets set_flow_inlets
       set_inv_inlets set_BP_2 set_BP_1].
  intros Hc k Hk. apply has_set in Hk. rewrite !has_set.
  destruct Hk as [->|Hk]; [auto|].
  destruct (Hc k Hk) as (H1 & H2 & H3). auto.
Qed.

Lemma register_pairs_return ps w :
  Forall axis_pair_string ps ->
  exists w',
    for_each ps register_pair w = (Ok tt, w') /\
    (consistent (self w) -> consistent (self w')) /\
    (forall k, has (inv_inlets (self w)) k -> has (inv_inlets (self w')) k) /\
    (forall k, has (flow_inlets (self w)) k -> has (flow_inlets (self w')) k) /\
    Forall (fun p => exists a b,
              char_at p 0 = Ok a /\ char_at p 1 = Ok b /\
              has (inv_inlets (self w')) a /\ has (flow_inlets (self w')) b) ps.
Proof.
  intros Hps. revert w. induction Hps as [|p ps Hp Hps IH]; intros w.
  - exists w. split; [reflexivity|]. split; [auto|]. split; [auto|].
    split; [auto | constructor].
  - destruct (@register_pair_returns p w Hp)
      as (a & b & w1 & Ha & Hb & E1 & Hia & Hfb & Mi & Mf & Hc).
    destruct (IH w1) as (w2 & E2 & Hc2 & Mi2 & Mf2 & Hall).
    exists w2. cbn [for_each]. unfold bind. rewrite E1.
    split; [exact E2|]. split; [auto|]. split; [auto|]. split; [auto|].
    constructor; [|exact Hall].
    exists a, b. auto.
Qed.

Lemma baseline_returns Fi Fo dim w :
  solver_ready Fi Fo w dim ->
  exists w',
    baseline Fi Fo dim w = (Ok tt, w') /\
    same_setup w w' /\
    has (perm_wp (self w')) dim /\ has (perm_nwp (self w')) dim /\
    (forall k, has (perm_wp (self w)) k -> has (perm_wp (self w')) k) /\
    (forall k, has (perm_nwp (self w)) k -> has (perm_nwp (self w')) k).
Proof.
  intros ([water_ph Hw] & [oil_ph Ho] & [bp1 H1] & [bp2 H2] & [fi Hfi] & [fo Hfo]).
  unfold baseline, baseline_solve, bind, get, lift, the_phase, dict_item,
    update_self, emit, modify.
  rewrite Hw. cbn [self BP_1 BP_2]. rewrite H1, H2, Hfi, Hfo.
  cbn [self nwp set_perm_wp BP_1 BP_2]. rewrite Ho, H1, H2.
  eexists. split; [reflexivity|].
  unfold same_setup. cbn [self wp nwp BP_1 BP_2 perm_wp perm_nwp set_perm_wp set_perm_nwp].
  split; [auto|].
  split; [apply has_set; auto|]. split; [apply has_set; auto|].
  split; intros k Hk; apply has_set; auto.
Qed.

Lemma same_setup_ready Fi Fo w w' dim :
  same_setup w w' -> solver_ready Fi Fo w dim -> solver_ready Fi Fo w' dim.
Proof.
  unfold same_setup, solver_ready. intros [E1 [E2 [E3 E4]]] H.
  rewrite E1, E2, E3, E4. exact H.
Qed.

Lemma baselines_return Fi Fo dims w :
  Forall (solver_ready Fi Fo w) dims ->
  exists w',
    for_each dims (baseline Fi Fo) w = (Ok tt, w') /\
    same_setup w w' /\
    (forall k, In k dims -> has (perm_wp (self w')) k /\ has (perm_nwp (self w')) k) /\
    (forall k, has (perm_wp (self w)) k -> has (perm_wp (self w')) k) /\
    (forall k, has (perm_nwp (self w)) k -> has (perm_nwp (self w')) k).
Proof.
  revert w. induction dims as [|dim dims IH]; intros w Hall.
  - exists w. split; [reflexivity|].
    split; [unfold same_setup; auto|]. split; [intros k []|]. split; auto.
  - inversion Hall as [|? ? Hdim Hrest]; subst.
    destruct (@baseline_returns Fi Fo dim w Hdim)
      as (w1 & E1 & S1 & Pw & Pn & Mw & Mn).
    destruct (IH w1) as (w2 & E2 & S2 & P2 & Mw2 & Mn2).
    { eapply Forall_impl; [|exact Hrest].
      intros d Hd. eapply same_setup_ready; eassumption. }
    exists w2. cbn [for_each]. unfold bind. rewrite E1.
    split; [exact E2|].
    split.
    { unfold same_setup in *. destruct S1 as (A1 & A2 & A3 & A4).
      destruct S2 as (B1 & B2 & B3 & B4). repeat split; congruence. }
    split; [|split; auto].
    intros k [<-|Hk]; [split; auto | apply P2, Hk].
Qed.

(** The sweep over axis pairs whose axes are registered returns. *)
Lemma axis_pairs_return Sarr Ii Fi Fo ps inv w :
  Forall (fun p => exists a b,
            char_at p 0 = Ok a /\ char_at p 1 = Ok b /\
            has Ii a /\ solvable Fi Fo w b) ps ->
  exists inv' w', fold_m ps (axis_pair Sarr Ii Fi Fo) inv w = (Ok inv', w').
Proof.
  revert inv w. induction ps as [|p ps IH]; intros inv w Hall.
  - exists inv, w. reflexivity.
  - inversion Hall as [|? ? (a & b & Ha & Hb & [inl Hi] & Hs) Hrest]; subst.
    destruct (@axis_pair_returns Sarr Ii Fi Fo inv p a b inl w Ha Hb Hi Hs)
      as (inv1 & w1 & E1 & P1).
    destruct (IH inv1 w1) as (inv2 & w2 & E2).
    { eapply Forall_impl; [|exact Hrest].
      intros q (a' & b' & Ha' & Hb' & Hi' & Hs').
      exists a', b'. auto. }
    exists inv2, w2. cbn [fold_m]. unfold bind. rewrite E1. exact E2.
Qed.

(** [setup_ip_algs] runs the invasion for the entries of the list held
    in ['input_vect'], in the order of the list. *)
Lemma siv_setup_ip_algs : sweeps_input_vect setup_ip_algs.
Proof.
  unfold setup_ip_algs.
  apply siv_then; [apply sweeps_update; intros ?; reflexivity | intros _].
  apply siv_then; [apply sweeps_update; intros ?; reflexivity | intros _].
  apply siv_get. intros w0. cbv zeta.
  apply siv_then; [apply sweeps_for_each; intros dim; apply sweeps_baseline | intros _].
  apply siv_then; [apply sweeps_lift | intros Sarr].
  apply siv_axis_pairs.
Qed.

Lemma setup_after_sort l0 w :
  setup l0 w =
    bind (for_each (lists (after_sort l0 w) l0) register_pair)
         (fun _ => setup_ip_algs) (after_sort l0 w).
Proof. reflexivity. Qed.

Lemma after_sort_lists l0 w :
  lists (after_sort l0 w) l0 = py_sort (lists w l0) /\
  (forall l, l <> l0 -> lists (after_sort l0 w) l = lists w l).
Proof.
  unfold after_sort, heap_set. cbn [lists]. split.
  - rewrite Nat.eqb_refl. reflexivity.
  - intros l Hl. apply Nat.eqb_neq in Hl. rewrite Hl. reflexivity.
Qed.

Lemma setup_ip_algs_phases w :
  setup_ip_algs w =
    bind (for_each (dict_keys (flow_inlets (self w)))
            (baseline (pores_by_dim (flow_inlets (self w)))
                      (pores_by_dim (flow_outlets (self w)))))
      (fun _ =>
         bind (lift (linspace (Fin 0) (Fin 1) 10))
           (fun Sarr =>
              bind get (fun w' =>
                match input_vect (self w') with
                | None => raise (KeyError "input_vect")
                | Some l =>
                    bind (fold_m (lists w' l)
                            (axis_pair Sarr
                               (subsample (pores_by_dim (inv_inlets (self w))))
                               (pores_by_dim (flow_inlets (self w)))
                               (pores_by_dim (flow_outlets (self w))))
                            new_invasion)
                         (fun _ => ret tt)
                end)))
      (with_phases w).
Proof. reflexivity. Qed.

(** On a consistent object, [setup] returns for every list of axis
    pairs. *)
Lemma setup_returns l0 w :
  Forall axis_pair_string (lists w l0) ->
  consistent (self w) ->
  exists w', setup l0 w = (Ok tt, w').
Proof.
  intros Hps Hc. rewrite setup_after_sort.
  destruct (after_sort_lists l0 w) as (Hl0 & _).
  assert (Hsorted : Forall axis_pair_string (lists (after_sort l0 w) l0)).
  { rewrite Hl0. eapply Permutation_Forall; [apply py_sort_perm | exact Hps]. }
  destruct (@register_pairs_return (lists (after_sort l0 w) l0) (after_sort l0 w) Hsorted)
    as (w1 & E1 & Hc1 & _ & _ & Hreg).
  specialize (Hc1 Hc).
  destruct (@sweeps_for_each string (lists (after_sort l0 w) l0) register_pair
              sweeps_register_pair _ _ _ E1)
    as (L1 & I1 & _).
  unfold bind at 1. rewrite E1.
  rewrite setup_ip_algs_phases.
  set (w0 := with_phases w1).
  set (Fi := pores_by_dim (flow_inlets (self w1))).
  set (Fo := pores_by_dim (flow_outlets (self w1))).
  set (Ii := subsample (pores_by_dim (inv_inlets (self w1)))).
  assert (Hready : forall dim, has (flow_inlets (self w1)) dim ->
                               solver_ready Fi Fo w0 dim).
  { intros dim Hd. destruct (Hc1 dim Hd) as (B1 & B2 & Bo).
    unfold solver_ready, w0, with_phases. cbn [self wp nwp BP_1 BP_2 set_wp set_nwp].
    split; [eexists; reflexivity|]. split; [eexists; reflexivity|].
    split; [exact B1|]. split; [exact B2|].
    split; apply has_pores_by_dim; assumption. }
  destruct (@baselines_return Fi Fo (dict_keys (flow_inlets (self w1))) w0)
    as (w2 & E2 & S2 & P2 & _).
  { apply Forall_forall. intros dim Hd. apply Hready, has_keys, Hd. }
  destruct (@sweeps_for_each string (dict_keys (flow_inlets (self w1)))
              (baseline Fi Fo) (sweeps_baseline Fi Fo) _ _ _ E2)
    as (L2 & I2 & _).
  unfold bind at 1. rewrite E2.
  unfold bind at 1, lift. rewrite Sarr_values.
  unfold bind at 1, get.
  assert (Hiv : input_vect (self w2) = Some l0).
  { rewrite I2. unfold w0, with_phases. cbn [self input_vect set_wp set_nwp].
    rewrite I1. reflexivity. }
  rewrite Hiv.
  assert (Hlist : lists w2 l0 = lists (after_sort l0 w) l0).
  { rewrite L2. unfold w0, with_phases. cbn [lists]. rewrite L1. reflexivity. }
  rewrite Hlist.
  destruct (@axis_pairs_return ten_saturations Ii Fi Fo
              (lists (after_sort l0 w) l0) new_invasion w2) as (inv' & w3 & E3).
  { eapply Forall_impl; [|exact Hreg].
    intros p (a & b & Ha & Hb & Hia & Hfb).
    exists a, b. split; [exact Ha|]. split; [exact Hb|].
    split; [apply has_subsample, has_pores_by_dim, Hia|].
    destruct (Hready b Hfb) as (Rw & Rn & R1 & R2 & Rfi & Rfo).
    destruct S2 as (S2w & S2n & S21 & S22).
    destruct (P2 b (proj1 (has_keys _ _) Hfb)) as (Pw & Pn).
    unfold solvable. rewrite S2w, S2n, S21, S22.
    repeat split; assumption. }
  exists w3. unfold bind. rewrite E3. reflexivity.
Qed.

End Orchestrator.

End RelativePermeabilityFacts.

Module RelativePermeabilitySpec.

Import Np NpFacts RelativePermeability RelativePermeabilityFacts.
Local Open Scope py_scope.

Lemma all_zero_any a : all_zero a -> any_nonzero a = false.
Proof.
  unfold all_zero, any_nonzero. induction 1 as [|x t Hx Ht IH]; cbn; [reflexivity|].
  subst x. unfold fne. cbn. rewrite (proj2 (Reqb_true 0 0) eq_refl). exact IH.
Qed.

(** C8.  The sweep runs over ten evenly spaced saturations from 0 to 1.
    At a saturation for which no throat is invaded, the point is
    skipped: no flow solve is made (the record of the calls is what it
    was), the phases are not touched, and the three lists of the axis
    pair are returned and stored as they were, without the saturation
    and without a relative permeability; the sweep goes on with the
    next saturation. *)
Theorem degenerate_saturation_is_skipped
  (collab : Collaborators) (pair flow : string)
  (Finlets_init Foutlets_init : dict (list nat)) (inv : invasion)
  (c : curves) (Snw : float) (rest : list float) (w : state) :
  all_zero (res_throat_occupancy (invasion_results Snw inv)) ->
  linspace (Fin 0) (Fin 1) 10 = Ok ten_saturations /\
  exists w',
    saturation_point pair flow Finlets_init Foutlets_init inv c Snw w
      = (Ok c, w') /\
    log w' = log w /\
    wp (self w') = wp (self w) /\
    nwp (self w') = nwp (self w) /\
    dict_get (relperm_wp (self w')) pair = Some (relperm_wp_list c) /\
    dict_get (relperm_nwp (self w')) pair = Some (relperm_nwp_list c) /\
    dict_get (sat (self w')) pair = Some (Snwparr c) /\
    fold_m (Snw :: rest)
           (saturation_point pair flow Finlets_init Foutlets_init inv) c w
    = fold_m rest
             (saturation_point pair flow Finlets_init Foutlets_init inv) c w'.
Proof.
  intros Hz. split; [exact Sarr_values|].
  apply all_zero_any in Hz.
  eexists. split.
  - unfold saturation_point. rewrite Hz. reflexivity.
  - cbn [log self wp nwp relperm_wp relperm_nwp sat set_sat set_relperm_wp
         set_relperm_nwp].
    repeat split; try apply dict_get_set_same.
    cbn [fold_m]. unfold bind at 1. unfold saturation_point at 1.
    rewrite Hz. reflexivity.
Qed.

Lemma degenerate_saturation_is_skipped_witness :
  all_zero (res_throat_occupancy
              (invasion_results (Collaborators := Examples.toy) (Fin 0) [0%nat])) /\
  exists w',
    saturation_point (collab := Examples.toy) "xx" "x" [] [] [0%nat]
      (mk_curves [] [] []) (Fin 0) (Examples.orchestrator ["xx"])
      = (Ok (mk_curves [] [] []), w') /\
    log w' = [].
Proof.
  assert (Hz : all_zero (res_throat_occupancy
                (invasion_results (Collaborators := Examples.toy) (Fin 0) [0%nat]))).
  { cbn. rewrite Rltb_IZR. cbn. repeat constructor. }
  split; [exact Hz|].
  destruct (@degenerate_saturation_is_skipped Examples.toy "xx" "x" [] []
              [0%nat] (mk_curves [] [] []) (Fin 0) [] (Examples.orchestrator ["xx"]) Hz)
    as (_ & w' & H1 & H2 & _).
  exists w'. split; [exact H1 | exact H2].
Defined.

(** C10.  [setup] sorts the caller's list in place: whatever [setup]
    then does, the list object holds the same strings in ascending
    order, no other list is changed, and ['input_vect'] refers to the
    caller's list; when [setup] returns, the invasion has been run for
    the axis pairs in that ascending order. *)
Theorem setup_sorts_input_vect
  (collab : Collaborators) (l0 : loc) (w : state) (r : result unit) (w' : state) :
  setup l0 w = (r, w') ->
  lists w' l0 = py_sort (lists w l0) /\
  Permutation (lists w l0) (lists w' l0) /\
  leb_sorted (lists w' l0) /\
  (forall l, l <> l0 -> lists w' l = lists w l) /\
  input_vect (self w') = Some l0 /\
  (r = Ok tt ->
   pairs_swept (log w') = pairs_swept (log w) ++ py_sort (lists w l0)).
Proof.
  intros H. rewrite setup_after_sort in H.
  assert (Hs : sweeps_input_vect
                 (bind (for_each (lists (after_sort l0 w) l0) register_pair)
                       (fun _ => setup_ip_algs))).
  { apply siv_then.
    - apply sweeps_for_each. intros p. apply sweeps_register_pair.
    - intros _. apply siv_setup_ip_algs. }
  destruct (Hs _ _ _ H) as (H1 & H2 & H3).
  destruct (after_sort_lists l0 w) as (Hl0 & Hother).
  assert (Hsorted : lists w' l0 = py_sort (lists w l0)) by (rewrite H1; exact Hl0).
  split; [exact Hsorted|].
  split; [rewrite Hsorted; apply py_sort_perm|].
  split; [rewrite Hsorted; apply py_sort_sorted|].
  split; [intros l Hl; rewrite H1; apply Hother, Hl|].
  split; [rewrite H2; reflexivity|].
  intros ->. destruct (H3 tt eq_refl) as (l & Hl & Hp).
  cbn in Hl. injection Hl as <-.
  rewrite Hp, Hl0. reflexivity.
Qed.

Lemma setup_sorts_input_vect_witness :
  exists w',
    setup (collab := Examples.toy) 0 (Examples.orchestrator ["yx"; "xx"])
      = (Ok tt, w') /\
    lists w' 0 = ["xx"; "yx"] /\
    pairs_swept (log w') = ["xx"; "yx"].
Proof.
  destruct (@setup_returns Examples.toy 0 (Examples.orchestrator ["yx"; "xx"]))
    as (w' & H).
  { repeat constructor; do 2 eexists;
      (split; [reflexivity|]); (split; [reflexivity|]);
      unfold axis; auto. }
  { intros k [v Hv]. discriminate. }
  exists w'. split; [exact H|].
  destruct (@setup_sorts_input_vect Examples.toy 0
              (Examples.orchestrator ["yx"; "xx"]) (Ok tt) w' H)
    as (H1 & _ & _ & _ & _ & H2).
  split; [exact H1 | exact (H2 eq_refl)].
Defined.

End RelativePermeabilitySpec.
(* ================================================================== *)
(** * [OrdinaryPercolation.run]: what it keeps, and the sequence ranks *)
(* ================================================================== *)

Module RunInvariants.

Import Np NpFacts Topotools OrdinaryPercolation OrdinaryPercolationFacts.
Import RunFacts Examples.
Local Open Scope py_scope.

(** ** Insertion indices in a sorted array *)

Lemma sort_le_lt_trans a p q :
  sort_le a p = true -> flt p q = true -> sort_lt a q = true.
Proof. unfold sort_le, sort_lt. float_order. Qed.

Lemma sort_lt_irrefl_In a p :
  sort_lt a p = true -> a <> p.
Proof. unfold sort_lt. intros H ->. revert H. float_order. Qed.

Lemma sort_le_not_lt a p :
  isnan p = false -> sort_le a p = true -> sort_lt a p = false -> a = p.
Proof.
  unfold sort_le, sort_lt. destruct a, p; cbn; intros; try discriminate;
    try reflexivity.
  rewrite ?orb_false_r in *. bools_to_props. f_equal. lra.
Qed.

(** A smaller entry of a sorted array has a smaller insertion index. *)
Lemma searchsorted1_strict l p q :
  sorted l -> In p l -> flt p q = true ->
  searchsorted1 l p < searchsorted1 l q.
Proof.
  unfold sorted. intros Hs Hp Hpq.
  induction Hs as [|a t Ht IH Ha]; cbn; [contradiction|].
  assert (Haq : sort_lt a q = true).
  { destruct Hp as [->|Hp].
    - unfold sort_lt. rewrite Hpq. reflexivity.
    - rewrite Forall_forall in Ha.
      eapply sort_le_lt_trans; [apply Ha, Hp | exact Hpq]. }
  rewrite Haq. destruct (sort_lt a p) eqn:E; [|lia].
  destruct Hp as [->|Hp].
  - exfalso. eapply sort_lt_irrefl_In; [exact E | reflexivity].
  - specialize (IH Hp). lia.
Qed.

(** The insertion index of an entry of a sorted array is a place where
    the entry stands. *)
Lemma searchsorted1_nth l p :
  sorted l -> In p l -> isnan p = false ->
  nth_error l (searchsorted1 l p) = Some p.
Proof.
  unfold sorted. intros Hs Hp Hn.
  induction Hs as [|a t Ht IH Ha]; cbn; [contradiction|].
  destruct (sort_lt a p) eqn:E.
  - destruct Hp as [->|Hp].
    + exfalso. eapply sort_lt_irrefl_In; [exact E | reflexivity].
    + cbn. apply IH, Hp.
  - cbn. f_equal. destruct Hp as [->|Hp]; [reflexivity|].
    rewrite Forall_forall in Ha.
    apply sort_le_not_lt; auto.
Qed.

Lemma feq_eq a b : feq a b = true -> a = b.
Proof.
  destruct a, b; cbn; intros H; try discriminate; try reflexivity.
  bools_to_props. congruence.
Qed.

Lemma In_dedup x l : In x l -> In x (dedup l).
Proof.
  induction l as [|a t IH]; cbn; [tauto|].
  destruct t as [|b t'].
  - cbn. tauto.
  - intros [->|H].
    + unfold fne. destruct (feq x b) eqn:E; cbn.
      * apply feq_eq in E. subst b. apply IH. left. reflexivity.
      * left. reflexivity.
    + destruct (fne a b); [right|]; apply IH, H.
Qed.

Lemma In_unique x l : In x l -> In x (unique l).
Proof. intros H. apply In_dedup, sort_In, H. Qed.

Lemma nth_error_ext {A} (a b : list A) :
  length a = length b ->
  (forall i x, nth_error a i = Some x -> nth_error b i = Some x) ->
  a = b.
Proof.
  revert b. induction a as [|x a IH]; intros [|y b] Hl H; cbn in *;
    try discriminate; [reflexivity|].
  f_equal.
  - specialize (H 0 x eq_refl). cbn in H. congruence.
  - apply IH; [lia|]. intros i z Hz. apply (H (S i) z Hz).
Qed.

(** ** The monad, whatever the outcome *)

Lemma bind_any {S A B} (m : M S A) (k : A -> M S B) s r s' :
  bind m k s = (r, s') ->
  (exists a s1, m s = (Ok a, s1) /\ k a s1 = (r, s')) \/
  (exists e, m s = (Raise e, s') /\ r = Raise e).
Proof.
  unfold bind. destruct (m s) as [[a|e] s1]; intros H.
  - left. exists a, s1. split; [reflexivity | exact H].
  - right. exists e. inversion H. split; reflexivity.
Qed.

Lemma setmask_length {A} (a : list A) mask v r :
  setmask a mask v = Ok r -> length r = length a.
Proof.
  unfold setmask. destruct (Nat.eqb (length a) (length mask)) eqn:E;
    [|discriminate].
  apply Nat.eqb_eq in E. intros H. inversion H.
  apply map2_length, E.
Qed.

Section Engine.

Context {topo : Interface}.

(** ** What the sweep keeps, whatever the outcome *)

Lemma record_invasion_any labels v w r w' :
  record_invasion labels v w = (r, w') ->
  frame w' = frame w /\
  length (pore_invasion_pressure (self w')) =
    length (pore_invasion_pressure (self w)) /\
  length (throat_invasion_pressure (self w')) =
    length (throat_invasion_pressure (self w)).
Proof.
  unfold record_invasion, bind, get, lift, update_self, modify.
  destruct (newly_invaded (pore_invasion_pressure (self w)) (sites labels))
    as [pinds|]; [|intros H; inversion H; auto].
  destruct (setmask (pore_invasion_pressure (self w)) pinds v) as [p|] eqn:Ep;
    [|intros H; inversion H; auto].
  apply setmask_length in Ep. cbn.
  destruct (newly_invaded (throat_invasion_pressure (self w)) (bonds labels))
    as [tinds|]; [|intros H; inversion H; cbn; auto].
  destruct (setmask (throat_invasion_pressure (self w)) tinds v) as [q|] eqn:Eq;
    [|intros H; inversion H; cbn; auto].
  apply setmask_length in Eq.
  intros H; inversion H; cbn; auto.
Qed.

Lemma sweep_step_any proj Pin v w r w' :
  sweep_step proj Pin v w = (r, w') ->
  frame w' = frame w /\
  length (pore_invasion_pressure (self w')) =
    length (pore_invasion_pressure (self w)) /\
  length (throat_invasion_pressure (self w')) =
    length (throat_invasion_pressure (self w)).
Proof.
  unfold sweep_step. intros H.
  apply bind_any in H. destruct H as [(l1 & w1 & H1 & H)|(e & H1 & _)].
  - apply label_clusters_pure in H1. subst w1.
    apply bind_any in H. destruct H as [(l2 & w2 & H2 & H)|(e & H2 & _)].
    + apply filter_clusters_pure in H2. subst w2.
      apply record_invasion_any in H. exact H.
    + apply filter_clusters_pure in H2. subst w'. auto.
  - apply label_clusters_pure in H1. subst w'. auto.
Qed.

Lemma sweep_any proj Pin points w r w' :
  for_each points (sweep_step proj Pin) w = (r, w') ->
  frame w' = frame w /\
  length (pore_invasion_pressure (self w')) =
    length (pore_invasion_pressure (self w)) /\
  length (throat_invasion_pressure (self w')) =
    length (throat_invasion_pressure (self w)).
Proof.
  revert w. induction points as [|v rest IH]; intros w H; cbn in H.
  - inversion H. auto.
  - apply bind_any in H. destruct H as [([] & w1 & H1 & H)|(e & H1 & _)].
    + apply sweep_step_any in H1. apply IH in H.
      destruct H1 as (F1 & P1 & T1), H as (F2 & P2 & T2).
      rewrite F2, F1, P2, P1, T2, T1. auto.
    + apply sweep_step_any in H1. exact H1.
Qed.

Lemma frame_configuration w w' :
  frame w' = frame w -> configuration w' = configuration w.
Proof.
  unfold frame, configuration. intros H.
  injection H as H1 H2 H3 H4 H5 H6 H7 H8 H9 H10.
  congruence.
Qed.

Lemma parse_points_configuration proj points start stop w r w1 :
  parse_points proj points start stop w = (r, w1) ->
  configuration w1 = configuration w /\
  pore_invasion_pressure (self w1) = pore_invasion_pressure (self w) /\
  throat_invasion_pressure (self w1) = throat_invasion_pressure (self w).
Proof.
  intros H. apply parse_points_self in H. destruct H as (H & Hs & Hc).
  unfold invasion_state in H. unfold configuration.
  injection H as H1 H2 H3 H4 H5 H6 H7 H8.
  rewrite Hs, Hc, H5, H6, H7, H8. auto.
Qed.

End Engine.

(** X1.  Whether it returns or raises, [run] leaves the settings, the
    inlets and outlets, the residual masks and the record of the
    connectivity computations as they were, and the two arrays of
    invasion pressures keep their lengths; when it returns, each array
    of invasion sequences is as long as the array of pressures it was
    computed from. *)
Theorem run_keeps_configuration
  (topo : Interface) (proj : Project) (points : Points)
  (start stop : option float) (w : state) (r : result unit) (w' : state) :
  run proj points start stop w = (r, w') ->
  configuration w' = configuration w /\
  length (pore_invasion_pressure (self w')) =
    length (pore_invasion_pressure (self w)) /\
  length (throat_invasion_pressure (self w')) =
    length (throat_invasion_pressure (self w)) /\
  (r = Ok tt ->
   length (pore_invasion_sequence (self w')) =
     length (pore_invasion_pressure (self w')) /\
   length (throat_invasion_sequence (self w')) =
     length (throat_invasion_pressure (self w'))).
Proof.
  unfold run. intros H.
  apply bind_any in H. destruct H as [(th & w1 & H1 & H)|(e & H1 & ->)].
  - apply parse_points_configuration in H1. destruct H1 as (C1 & P1 & T1).
    apply bind_any in H. destruct H as [(Pin & w1' & H2 & H)|(e & H2 & ->)].
    + apply check_inlets_pure in H2. subst w1'.
      apply bind_any in H. destruct H as [([] & w2 & H3 & H)|(e & H3 & ->)].
      * apply sweep_any in H3. destruct H3 as (F & P2 & T2).
        apply frame_configuration in F.
        rewrite convert_sequences_eq in H. inversion H; subst r w'; cbn.
        rewrite P2, P1, T2, T1.
        split; [|split; [reflexivity|split; [reflexivity|]]].
        -- unfold configuration in *. cbn. congruence.
        -- intros _. rewrite !searchsorted_length. rewrite P2, P1, T2, T1. auto.
      * apply sweep_any in H3. destruct H3 as (F & P2 & T2).
        apply frame_configuration in F.
        rewrite F, C1, P2, P1, T2, T1.
        repeat split; try reflexivity; discriminate.
    + apply check_inlets_pure in H2. subst w'.
      rewrite C1, P1, T1. repeat split; try reflexivity; discriminate.
  - apply parse_points_configuration in H1. destruct H1 as (C1 & P1 & T1).
    rewrite C1, P1, T1. repeat split; try reflexivity; discriminate.
Qed.

Lemma run_keeps_configuration_witness :
  configuration after_run_2 = configuration fresh /\
  length (pore_invasion_sequence (self after_run_2)) =
    length (pore_invasion_pressure (self after_run_2)).
Proof.
  destruct (run_keeps_configuration Reference line3 (PArray [Fin 2]) None None
              fresh ExampleRuns.run_2) as (H1 & _ & _ & H2).
  split; [exact H1|]. apply (H2 eq_refl).
Defined.

(** X2.  After [run], the sequence numbers order the elements strictly:
    of two pores (two throats) the one with the smaller invasion
    pressure has the smaller sequence number, so different pressures
    never share a number and a pore that was not invaded comes after
    every invaded one. *)
Theorem run_sequence_strict
  (topo : Interface) (proj : Project) (points : Points)
  (start stop : option float) (w w' : state) :
  run proj points start stop w = (Ok tt, w') ->
  (forall a b p q,
     nth_error (pore_invasion_pressure (self w')) a = Some p ->
     nth_error (pore_invasion_pressure (self w')) b = Some q ->
     flt p q = true ->
     exists sa sb,
       nth_error (pore_invasion_sequence (self w')) a = Some sa /\
       nth_error (pore_invasion_sequence (self w')) b = Some sb /\
       (sa < sb)%Z) /\
  (forall a b p q,
     nth_error (throat_invasion_pressure (self w')) a = Some p ->
     nth_error (throat_invasion_pressure (self w')) b = Some q ->
     flt p q = true ->
     exists sa sb,
       nth_error (throat_invasion_sequence (self w')) a = Some sa /\
       nth_error (throat_invasion_sequence (self w')) b = Some sb /\
       (sa < sb)%Z).
Proof.
  intros H. destruct (run_sequences _ _ _ _ _ H) as [HP HT].
  rewrite HP, HT.
  split; intros a b p q Ha Hb Hpq;
    rewrite (searchsorted_nth_error _ _ _ Ha), (searchsorted_nth_error _ _ _ Hb);
    eexists; eexists;
    (split; [reflexivity|split; [reflexivity|]]);
    apply inj_lt, searchsorted1_strict;
    try apply unique_sorted; try exact Hpq;
    apply In_unique; eapply nth_error_In; eassumption.
Qed.

Lemma run_sequence_strict_witness :
  exists sa sb,
    nth_error (pore_invasion_sequence (self after_run_2_4)) 0 = Some sa /\
    nth_error (pore_invasion_sequence (self after_run_2_4)) 2 = Some sb /\
    (sa < sb)%Z.
Proof.
  destruct (run_sequence_strict Reference line3 (PArray [Fin 2; Fin 4]) None None
              fresh ExampleRuns.run_2_4) as (H & _).
  apply (H 0 2 (Fin 2) (Fin 4)); [reflexivity | reflexivity |].
  cbn. apply Rltb_true. lra.
Defined.

(** X3.  After [run], the sequence number of a pore (a throat) is the
    place of its invasion pressure in the sorted array of the distinct
    invasion pressures: looking the number up in [unique] of the
    pressures gives the pressure back.  (A pressure that is nan is left
    aside.) *)
Theorem run_sequence_indexes_pressure
  (topo : Interface) (proj : Project) (points : Points)
  (start stop : option float) (w w' : state) :
  run proj points start stop w = (Ok tt, w') ->
  (forall i p,
     nth_error (pore_invasion_pressure (self w')) i = Some p ->
     isnan p = false ->
     exists s,
       nth_error (pore_invasion_sequence (self w')) i = Some s /\
       (0 <= s)%Z /\
       nth_error (unique (pore_invasion_pressure (self w'))) (Z.to_nat s)
         = Some p) /\
  (forall i p,
     nth_error (throat_invasion_pressure (self w')) i = Some p ->
     isnan p = false ->
     exists s,
       nth_error (throat_invasion_sequence (self w')) i = Some s /\
       (0 <= s)%Z /\
       nth_error (unique (throat_invasion_pressure (self w'))) (Z.to_nat s)
         = Some p).
Proof.
  intros H. destruct (run_sequences _ _ _ _ _ H) as [HP HT].
  rewrite HP, HT.
  split; intros i p Hi Hn;
    rewrite (searchsorted_nth_error _ _ _ Hi);
    eexists;
    (split; [reflexivity|split; [apply Nat2Z.is_nonneg|]]);
    rewrite Nat2Z.id;
    apply searchsorted1_nth;
    try apply unique_sorted; try exact Hn;
    apply In_unique; eapply nth_error_In; eassumption.
Qed.

Lemma run_sequence_indexes_pressure_witness :
  exists s,
    nth_error (pore_invasion_sequence (self after_run_2_4)) 2 = Some s /\
    (0 <= s)%Z /\
    nth_error (unique (pore_invasion_pressure (self after_run_2_4))) (Z.to_nat s)
      = Some (Fin 4).
Proof.
  destruct (run_sequence_indexes_pressure Reference line3
              (PArray [Fin 2; Fin 4]) None None fresh ExampleRuns.run_2_4)
    as (H & _).
  apply (H 2 (Fin 4)); reflexivity.
Defined.

(** ** Running again *)

Lemma state_eta (w : state) : {| self := self w; calls := calls w |} = w.
Proof. destruct w; reflexivity. Qed.

Lemma set_pore_invasion_pressure_same o :
  set_pore_invasion_pressure (pore_invasion_pressure o) o = o.
Proof. destruct o; reflexivity. Qed.

Lemma set_throat_invasion_pressure_same o :
  set_throat_invasion_pressure (throat_invasion_pressure o) o = o.
Proof. destruct o; reflexivity. Qed.

Lemma set_pore_invasion_sequence_same o :
  set_pore_invasion_sequence (pore_invasion_sequence o) o = o.
Proof. destruct o; reflexivity. Qed.

Lemma set_throat_invasion_sequence_same o :
  set_throat_invasion_sequence (throat_invasion_sequence o) o = o.
Proof. destruct o; reflexivity. Qed.

Lemma set_pore_entry_pressure_same o e :
  pore_entry_pressure o = Some e -> set_pore_entry_pressure e o = o.
Proof. destruct o; cbn; intros ->; reflexivity. Qed.

Lemma set_throat_entry_pressure_same o e :
  throat_entry_pressure o = Some e -> set_throat_entry_pressure e o = o.
Proof. destruct o; cbn; intros ->; reflexivity. Qed.

Lemma recorded_stable a labels v :
  length labels = length a ->
  (forall i, nth_error a i = Some PInf -> labelled labels i = true -> v = PInf) ->
  recorded a labels v = a.
Proof.
  intros Hl H. apply nth_error_ext.
  - apply recorded_length, Hl.
  - intros i x Hx.
    assert (Hi : i < length a).
    { rewrite <- (recorded_length a labels v Hl).
      apply nth_error_Some. congruence. }
    destruct (nth_error a i) as [p|] eqn:Ep;
      [|apply nth_error_None in Ep; lia].
    rewrite (recorded_nth_error _ _ v _ Hl Ep) in Hx.
    destruct (feq p PInf) eqn:E1; cbn in Hx; [|exact Hx].
    apply feq_PInf in E1. subst p.
    destruct (labelled labels i) eqn:E2; [|exact Hx].
    rewrite <- (H i Ep E2). exact Hx.
Qed.

Lemma first_invaded_PInf (f : float -> bool) points :
  first_invaded f points = PInf ->
  forall v, In v points -> f v = true -> v = PInf.
Proof.
  induction points as [|p rest IH]; cbn; [contradiction|].
  intros H v [->|Hv] Hf.
  - rewrite Hf in H. cbn in H. unfold fne in H.
    destruct (feq v PInf) eqn:E; cbn in H.
    + apply feq_PInf, E.
    + exact H.
  - destruct (f p && fne p PInf) eqn:E.
    + subst p. unfold fne in E. cbn in E. rewrite andb_false_r in E. discriminate.
    + apply IH; assumption.
Qed.

Lemma newly_invaded_returns a labels :
  length labels = length a ->
  newly_invaded a labels =
    Ok (map2 andb (map (fun p => feq p PInf) a)
                  (map (fun l => (0 <=? l)%Z) labels)).
Proof.
  intros H. unfold newly_invaded, elementwise.
  rewrite !length_map, H, Nat.eqb_refl. reflexivity.
Qed.

Lemma setmask_returns {A} (a : list A) mask v :
  length mask = length a ->
  setmask a mask v = Ok (map2 (fun x (m : bool) => if m then v else x) a mask).
Proof.
  intros H. unfold setmask. rewrite H, Nat.eqb_refl. reflexivity.
Qed.

Section Again.

Context {topo : Interface}.

Lemma labels_at_inputs proj Pin w1 w2 v :
  settings (self w1) = settings (self w2) ->
  pore_entry_pressure (self w1) = pore_entry_pressure (self w2) ->
  throat_entry_pressure (self w1) = throat_entry_pressure (self w2) ->
  labels_at proj Pin w1 v = labels_at proj Pin w2 v.
Proof.
  intros Hs Hp Ht.
  unfold labels_at, label_clusters, filter_clusters, bind, get, lift, ret,
    raise, self_item. cbn.
  rewrite Hs, Hp, Ht.
  destruct (mode (settings (self w2)) =? "bond")%string.
  - destruct (throat_entry_pressure (self w2)); cbn; [|reflexivity].
    rewrite Hs. destruct (access_limited (settings (self w2))); [destruct Pin|];
      reflexivity.
  - destruct (mode (settings (self w2)) =? "site")%string; [|reflexivity].
    destruct (pore_entry_pressure (self w2)); cbn; [|reflexivity].
    rewrite Hs. destruct (access_limited (settings (self w2))); [destruct Pin|];
      reflexivity.
Qed.

(** An iteration whose labels have the right shapes returns. *)
Lemma sweep_step_returns proj Pin v w labels :
  labels_at proj Pin w v = Ok labels ->
  length (sites labels) = length (pore_invasion_pressure (self w)) ->
  length (bonds labels) = length (throat_invasion_pressure (self w)) ->
  sweep_step proj Pin v w =
    (Ok tt,
     {| self :=
          set_throat_invasion_pressure
            (recorded (throat_invasion_pressure (self w)) (bonds labels) v)
            (set_pore_invasion_pressure
               (recorded (pore_invasion_pressure (self w)) (sites labels) v)
               (self w));
        calls := calls w |}).
Proof.
  intros HL Hs Hb.
  unfold labels_at in HL. unfold sweep_step.
  unfold bind in *.
  destruct (label_clusters proj v w) as [[l1|e] w1] eqn:E1; [|discriminate].
  pose proof (label_clusters_pure _ _ _ E1) as ->.
  destruct (filter_clusters Pin l1 w) as [[l2|e] w2] eqn:E2; [|discriminate].
  pose proof (filter_clusters_pure _ _ _ E2) as ->.
  cbn in HL. inversion HL; subst l2; clear HL.
  unfold record_invasion, bind, get, lift, update_self, modify.
  rewrite (newly_invaded_returns _ _ Hs).
  rewrite setmask_returns
    by (rewrite map2_length; rewrite !length_map; auto).
  cbn.
  rewrite (newly_invaded_returns _ _ Hb).
  rewrite setmask_returns
    by (rewrite map2_length; rewrite !length_map; auto).
  reflexivity.
Qed.

(** The labels seen by a sweep that returned had the right shapes. *)
Lemma sweep_labels proj Pin points w w' :
  for_each points (sweep_step proj Pin) w = (Ok tt, w') ->
  Forall (fun v =>
            exists labels,
              labels_at proj Pin w v = Ok labels /\
              length (sites labels) = length (pore_invasion_pressure (self w)) /\
              length (bonds labels) = length (throat_invasion_pressure (self w)))
         points.
Proof.
  revert w. induction points as [|v rest IH]; intros w H; cbn in H.
  - constructor.
  - apply bind_ok in H. destruct H as ([] & w1 & H1 & H).
    pose proof (sweep_step_any _ _ _ _ H1) as (F & P1 & T1).
    apply sweep_step_ok in H1.
    destruct H1 as (labels & HL & Hs & Hb & _).
    constructor.
    + exists labels. auto.
    + specialize (IH _ H). rewrite Forall_forall in *.
      intros u Hu. destruct (IH u Hu) as (l & A & B & C).
      exists l. rewrite <- (labels_at_frame proj Pin _ F).
      rewrite <- P1, <- T1. auto.
Qed.

(** A sweep over a state in which no point can be recorded leaves the
    state as it is. *)
Lemma sweep_stable proj Pin points w :
  Forall (fun v =>
            exists labels,
              labels_at proj Pin w v = Ok labels /\
              length (sites labels) = length (pore_invasion_pressure (self w)) /\
              length (bonds labels) = length (throat_invasion_pressure (self w)) /\
              (forall i, nth_error (pore_invasion_pressure (self w)) i = Some PInf ->
                         labelled (sites labels) i = true -> v = PInf) /\
              (forall i, nth_error (throat_invasion_pressure (self w)) i = Some PInf ->
                         labelled (bonds labels) i = true -> v = PInf))
         points ->
  for_each points (sweep_step proj Pin) w = (Ok tt, w).
Proof.
  induction 1 as [|v rest (labels & HL & Hs & Hb & SP & ST) _ IH]; cbn.
  - reflexivity.
  - unfold bind. rewrite (sweep_step_returns _ _ _ _ HL Hs Hb).
    rewrite (recorded_stable _ _ Hs SP), (recorded_stable _ _ Hb ST).
    rewrite set_pore_invasion_pressure_same, set_throat_invasion_pressure_same.
    rewrite state_eta. exact IH.
Qed.

Lemma parse_points_again proj points start stop w th w1 u :
  parse_points proj points start stop w = (Ok th, w1) ->
  settings (self u) = settings (self w1) ->
  pore_entry_pressure (self u) = pore_entry_pressure (self w1) ->
  throat_entry_pressure (self u) = throat_entry_pressure (self w1) ->
  parse_points proj points start stop u = (Ok th, u).
Proof.
  intros H Hs Hp Ht.
  pose proof (parse_points_self _ _ _ _ _ H) as (_ & Hs1 & _).
  revert H. unfold parse_points, bind, get, lift, update_self, modify, ret, raise.
  rewrite Hs, Hs1.
  destruct (mode (settings (self w)) =? "bond")%string.
  - destruct (dict_item (phase proj) (throat_entry_pressure_key (settings (self w))))
      as [e|]; [|discriminate].
    cbn. intros H.
    assert (Hu : throat_entry_pressure (self u) = Some e).
    { rewrite Ht. destruct points;
        [destruct (auto_points e n start stop); inversion H; reflexivity
        |inversion H; reflexivity]. }
    rewrite (set_throat_entry_pressure_same _ Hu), state_eta.
    destruct points; [destruct (auto_points e n start stop)|];
      inversion H; reflexivity.
  - destruct (mode (settings (self w)) =? "site")%string; [|discriminate].
    destruct (dict_item (phase proj) (pore_entry_pressure_key (settings (self w))))
      as [e|]; [|discriminate].
    cbn. intros H.
    assert (Hu : pore_entry_pressure (self u) = Some e).
    { rewrite Hp. destruct points;
        [destruct (auto_points e n start stop); inversion H; reflexivity
        |inversion H; reflexivity]. }
    rewrite (set_pore_entry_pressure_same _ Hu), state_eta.
    destruct points; [destruct (auto_points e n start stop)|];
      inversion H; reflexivity.
Qed.

Lemma check_inlets_again w r u :
  check_inlets w = (r, w) ->
  settings (self u) = settings (self w) ->
  pore_inlets (self u) = pore_inlets (self w) ->
  check_inlets u = (r, u).
Proof.
  unfold check_inlets, bind, get, ret, raise. intros H Hs Hi.
  rewrite Hs, Hi.
  destruct (access_limited (settings (self w)));
    [destruct (sum_bool (pore_inlets (self w)) =? 0)%Z|];
    inversion H; reflexivity.
Qed.

End Again.

(** X4.  [run] is idempotent: when a call of [run] has returned, the
    same call made again (without [reset]) returns as well and leaves
    every array of the object as the first call left it. *)
Theorem run_idempotent
  (topo : Interface) (proj : Project) (points : Points)
  (start stop : option float) (w w' : state) :
  run proj points start stop w = (Ok tt, w') ->
  run proj points start stop w' = (Ok tt, w').
Proof.
  intros H. pose proof (run_sequences _ _ _ _ _ H) as (SP & ST).
  apply run_phases in H.
  destruct H as (th & w1 & Pin & w2 & H1 & H2 & H3 & H4).
  rewrite convert_sequences_eq in H4. injection H4 as Hw'.
  pose proof (sweep_any _ _ _ _ H3) as (F & LP & LT).
  assert (Fs : settings (self w') = settings (self w1) /\
               pore_entry_pressure (self w') = pore_entry_pressure (self w1) /\
               throat_entry_pressure (self w') = throat_entry_pressure (self w1) /\
               pore_inlets (self w') = pore_inlets (self w1) /\
               pore_invasion_pressure (self w') = pore_invasion_pressure (self w2) /\
               throat_invasion_pressure (self w') = throat_invasion_pressure (self w2)).
  { rewrite <- Hw'. cbn. unfold frame in F.
    injection F as F1 F2 F3 F4 F5 F6 F7 F8 F9 F10.
    repeat split; congruence. }
  destruct Fs as (Fs & Fp & Ft & Fi & FP & FT).
  assert (A1 : parse_points proj points start stop w' = (Ok th, w'))
    by (eapply parse_points_again; eassumption).
  assert (A2 : check_inlets w' = (Ok Pin, w'))
    by (eapply check_inlets_again; eassumption).
  unfold run, bind. rewrite A1, A2.
  rewrite sweep_stable.
  - rewrite convert_sequences_eq. rewrite <- SP, <- ST.
    rewrite set_pore_invasion_sequence_same, set_throat_invasion_sequence_same.
    rewrite state_eta. reflexivity.
  - pose proof (sweep_labels _ _ _ _ H3) as HL.
    rewrite Forall_forall in *. intros v Hv.
    destruct (HL v Hv) as (labels & A & B & C).
    exists labels.
    rewrite (labels_at_inputs proj Pin w' w1 v Fs Fp Ft).
    rewrite FP, FT, LP, LT.
    split; [exact A|split; [exact B|split; [exact C|split]]].
    + intros i Hi Hlab.
      destruct (nth_error (pore_invasion_pressure (self w1)) i) as [p0|] eqn:E0.
      * pose proof (sweep_pore _ _ _ _ _ H3 E0) as Hf. rewrite Hi in Hf.
        destruct (feq p0 PInf) eqn:Ep.
        -- injection Hf as Hf. symmetry in Hf.
           apply (first_invaded_PInf _ _ Hf v Hv).
           unfold pore_labelled. rewrite A. exact Hlab.
        -- injection Hf as Hf. subst p0. discriminate.
      * apply nth_error_None in E0.
        assert (i < length (pore_invasion_pressure (self w2)))
          by (apply nth_error_Some; congruence). lia.
    + intros i Hi Hlab.
      destruct (nth_error (throat_invasion_pressure (self w1)) i) as [p0|] eqn:E0.
      * pose proof (sweep_throat _ _ _ _ _ H3 E0) as Hf. rewrite Hi in Hf.
        destruct (feq p0 PInf) eqn:Ep.
        -- injection Hf as Hf. symmetry in Hf.
           apply (first_invaded_PInf _ _ Hf v Hv).
           unfold throat_labelled. rewrite A. exact Hlab.
        -- injection Hf as Hf. subst p0. discriminate.
      * apply nth_error_None in E0.
        assert (i < length (throat_invasion_pressure (self w2)))
          by (apply nth_error_Some; congruence). lia.
Qed.

Lemma run_idempotent_witness :
  run (topo := Reference) line3 (PArray [Fin 2; Fin 4]) None None after_run_2_4
  = (Ok tt, after_run_2_4).
Proof.
  apply (run_idempotent Reference line3 (PArray [Fin 2; Fin 4]) None None
           fresh ExampleRuns.run_2_4).
Defined.

(** ** [reset], and a phase without the entry pressures *)

Lemma repeat_all_false n : Forall (fun b => b = false) (repeat false n).
Proof. induction n; cbn; constructor; auto. Qed.

(** X5.  [reset] clears the inlets with the rest, so under access
    limitation a [run] that follows a [reset] directly raises, and the
    invasion pressures stay at [+inf] for every pore and throat of the
    network: the inlets have to be set again first. *)
Theorem run_after_reset_raises
  (topo : Interface) (proj : Project) (points : Points)
  (start stop : option float) (w0 w : state) :
  access_limited (settings (self w0)) = true ->
  reset proj w0 = (Ok tt, w) ->
  exists e w',
    run proj points start stop w = (Raise e, w') /\
    pore_invasion_pressure (self w') = repeat PInf (num_pores proj) /\
    throat_invasion_pressure (self w') = repeat PInf (num_throats proj) /\
    pore_invasion_sequence (self w') = repeat (-1)%Z (num_pores proj) /\
    throat_invasion_sequence (self w') = repeat (-1)%Z (num_throats proj).
Proof.
  intros Ha Hr. unfold reset, update_self, modify in Hr.
  injection Hr as Hw.
  assert (Hs : settings (self w) = settings (self w0)) by (subst w; reflexivity).
  assert (Hi : pore_inlets (self w) = repeat false (num_pores proj))
    by (subst w; reflexivity).
  assert (Hst : invasion_state (self w) =
                (repeat PInf (num_pores proj), repeat PInf (num_throats proj),
                 repeat (-1)%Z (num_pores proj), repeat (-1)%Z (num_throats proj),
                 (repeat false (num_pores proj), repeat false (num_pores proj),
                  repeat false (num_pores proj), repeat false (num_throats proj))))
    by (subst w; reflexivity).
  clear Hw. unfold run, bind.
  destruct (parse_points proj points start stop w) as [[th|e] w1] eqn:E1.
  - pose proof (parse_points_self _ _ _ _ _ E1) as (HS & Hs1 & _).
    rewrite check_inlets_none.
    + exists (Exception "Inlet pores must be specified first"), w1.
      split; [reflexivity|].
      rewrite Hst in HS. unfold invasion_state in HS.
      injection HS as P1 P2 P3 P4 P5 P6 P7 P8. auto.
    + rewrite Hs1, Hs. exact Ha.
    + rewrite Hst in HS. unfold invasion_state in HS.
      injection HS as P1 P2 P3 P4 P5 P6 P7 P8.
      rewrite P5. apply repeat_all_false.
  - pose proof (parse_points_self _ _ _ _ _ E1) as (HS & _).
    exists e, w1. split; [reflexivity|].
    rewrite Hst in HS. unfold invasion_state in HS.
    injection HS as P1 P2 P3 P4 P5 P6 P7 P8. auto.
Qed.

Lemma run_after_reset_raises_witness :
  exists e w',
    run (topo := Reference) line3 (PArray [Fin 2]) None None
        (snd (reset line3 after_run_2)) = (Raise e, w') /\
    pore_invasion_pressure (self w') = [PInf; PInf; PInf].
Proof.
  destruct (@run_after_reset_raises Reference line3 (PArray [Fin 2]) None None
              after_run_2 _ eq_refl eq_refl) as (e & w' & H & HP & _).
  exists e, w'. split; [exact H | exact HP].
Defined.

End RunInvariants.






(* ================================================================== *)
(** * The percolation threshold and the percolation curve              *)
(* ================================================================== *)

Module PercolationQueries.

Import Np NpFacts Topotools OrdinaryPercolation OrdinaryPercolationFacts.
Import RunFacts RunInvariants Examples.
Local Open Scope py_scope.

(** ** [np.amin] *)

Lemma minimum_cases a b : minimum a b = a \/ minimum a b = b.
Proof.
  unfold minimum. destruct (isnan a); [left; reflexivity|].
  destruct (isnan b); [right; reflexivity|].
  destruct (fle a b); [left|right]; reflexivity.
Qed.

Lemma minimum_le a b :
  isnan (minimum a b) = false ->
  fle (minimum a b) a = true /\ fle (minimum a b) b = true.
Proof.
  unfold minimum.
  destruct a as [| |x|], b as [| |y|]; cbn; intros H; try discriminate;
    try (split; reflexivity);
    try (split; [apply Rleb_true; lra | reflexivity]);
    try (split; [reflexivity | apply Rleb_true; lra]).
  destruct (Rleb x y) eqn:E; cbn; split; bools_to_props; lra.
Qed.

Lemma fold_minimum l x :
  (fold_left minimum l x = x \/ In (fold_left minimum l x) l) /\
  (isnan (fold_left minimum l x) = false ->
   fle (fold_left minimum l x) x = true /\
   forall y, In y l -> fle (fold_left minimum l x) y = true).
Proof.
  revert x. induction l as [|y l IH]; intros x; cbn.
  - split; [left; reflexivity|].
    intros H. split; [|contradiction].
    destruct x; cbn in *; try discriminate; try reflexivity.
    bools_to_props. lra.
  - destruct (IH (minimum x y)) as (IH1 & IH2). split.
    + destruct IH1 as [E|E].
      * rewrite E. destruct (minimum_cases x y) as [->| ->]; auto.
      * auto.
    + intros Hn. destruct (IH2 Hn) as (L1 & L2).
      assert (Hm : isnan (minimum x y) = false).
      { destruct (minimum x y); try reflexivity.
        destruct (fold_left minimum l NaN); discriminate. }
      destruct (minimum_le x y Hm) as (M1 & M2).
      split.
      * eapply fle_trans; eassumption.
      * intros z [<-|Hz]; [eapply fle_trans; eassumption | apply L2, Hz].
Qed.

(** The least entry of an array: it is one of the entries and, unless it
    is nan, it is below all of them. *)
Lemma amin_least a m :
  amin a = Ok m ->
  In m a /\ (isnan m = false -> forall y, In y a -> fle m y = true).
Proof.
  unfold amin. destruct a as [|x t]; [discriminate|].
  intros H. injection H as <-.
  destruct (fold_minimum t x) as (H1 & H2). split.
  - destruct H1 as [->|H1]; [left; reflexivity | right; exact H1].
  - intros Hn y Hy. destruct (H2 Hn) as (L1 & L2).
    destruct Hy as [<-|Hy]; [exact L1 | apply L2, Hy].
Qed.

Lemma compress_In {A} (a : list A) (mask : list bool) x :
  In x (compress a mask) <->
  exists i, nth_error mask i = Some true /\ nth_error a i = Some x.
Proof.
  revert mask. induction a as [|y a IH]; intros [|m mask]; cbn.
  - split; [contradiction|]. intros ([|i] & H & _); discriminate.
  - split; [contradiction|]. intros ([|i] & _ & H); discriminate.
  - split; [contradiction|]. intros ([|i] & H & _); discriminate.
  - destruct m; cbn; rewrite IH; split.
    + intros [->|(i & H1 & H2)]; [exists 0; auto | exists (S i); auto].
    + intros ([|i] & H1 & H2); cbn in *;
        [left; congruence | right; exists i; auto].
    + intros (i & H1 & H2). exists (S i). auto.
    + intros ([|i] & H1 & H2); cbn in *; [discriminate | exists i; auto].
Qed.

(** X7.  When [get_percolation_threshold] returns, the object is
    unchanged and the value is the least invasion pressure of the outlet
    pores: some outlet pore has this pressure and (unless the value is
    nan) no outlet pore has a smaller one.  For every applied pressure
    below it, [is_percolating] answers [False] and leaves the object
    unchanged. *)
Theorem percolation_threshold_is_least_outlet_pressure
  (topo : Interface) (proj : Project) (w : state) (t : float) (w1 : state) :
  get_percolation_threshold w = (Ok t, w1) ->
  w1 = w /\
  (exists i, nth_error (pore_outlets (self w)) i = Some true /\
             nth_error (pore_invasion_pressure (self w)) i = Some t) /\
  (isnan t = false ->
   forall i q, nth_error (pore_outlets (self w)) i = Some true ->
               nth_error (pore_invasion_pressure (self w)) i = Some q ->
               fle t q = true) /\
  (forall p, flt p t = true -> is_percolating proj p w = (Ok false, w)).
Proof.
  unfold get_percolation_threshold, is_percolating, bind, get, lift, ret, raise.
  destruct (sum_bool (pore_inlets (self w)) =? 0)%Z; [discriminate|].
  destruct (sum_bool (pore_outlets (self w)) =? 0)%Z; [discriminate|].
  destruct (access_limited (settings (self w))); [|discriminate].
  destruct (getmask (pore_invasion_pressure (self w)) (pore_outlets (self w)))
    as [sel|] eqn:Es; [|discriminate].
  destruct (amin sel) as [m|] eqn:Em; [|discriminate].
  intros H. injection H as Ht Hw. subst m w1.
  unfold getmask in Es.
  destruct (Nat.eqb (length (pore_invasion_pressure (self w)))
                    (length (pore_outlets (self w)))); [|discriminate].
  injection Es as <-.
  destruct (amin_least _ Em) as (Hin & Hle).
  split; [reflexivity|split; [|split]].
  - apply compress_In in Hin. exact Hin.
  - intros Hn i q Hi Hq. apply (Hle Hn). apply compress_In. exists i. auto.
  - intros p Hp. unfold fgt. rewrite Hp. reflexivity.
Qed.

Lemma percolation_threshold_is_least_outlet_pressure_witness :
  is_percolating (topo := Reference) line3 (Fin 3) after_run_2_4
  = (Ok false, after_run_2_4).
Proof.
  destruct (@percolation_threshold_is_least_outlet_pressure Reference line3
              after_run_2_4 (Fin 4) after_run_2_4 eq_refl) as (_ & _ & _ & H).
  apply H. cbn. apply Rltb_true. lra.
Defined.

(** ** Sums of volumes *)

Lemma fold_fadd_Fin l a :
  Forall (fun v => exists x, v = Fin x /\ (0 <= x)%R) l ->
  exists s, fold_left fadd l (Fin a) = Fin (a + s) /\ (0 <= s)%R.
Proof.
  intros H. revert a. induction H as [|v l (x & -> & Hx) _ IH]; intros a; cbn.
  - exists 0%R. split; [f_equal; lra | lra].
  - destruct (IH (a + x)%R) as (s & E & Hs).
    exists (x + s)%R. split; [rewrite E; f_equal; lra | lra].
Qed.

(** A larger selection of non-negative volumes has a larger sum. *)
Lemma fold_fadd_compress_le l m1 m2 a b :
  Forall (fun v => exists x, v = Fin x /\ (0 <= x)%R) l ->
  length m1 = length l -> length m2 = length l ->
  (forall i, nth_error m1 i = Some true -> nth_error m2 i = Some true) ->
  (a <= b)%R ->
  exists s1 s2,
    fold_left fadd (compress l m1) (Fin a) = Fin s1 /\
    fold_left fadd (compress l m2) (Fin b) = Fin s2 /\
    (a <= s1 <= s2)%R.
Proof.
  intros H. revert m1 m2 a b.
  induction H as [|v l (x & -> & Hx) _ IH]; intros m1 m2 a b L1 L2 Hm Hab.
  - destruct m1, m2; try discriminate. cbn. exists a, b. repeat split; lra.
  - destruct m1 as [|c1 m1], m2 as [|c2 m2]; try discriminate.
    cbn in L1, L2.
    assert (Hm' : forall i, nth_error m1 i = Some true -> nth_error m2 i = Some true)
      by (intros i Hi; apply (Hm (S i) Hi)).
    destruct c1; cbn.
    + assert (c2 = true) as ->
        by (specialize (Hm 0 eq_refl); cbn in Hm; congruence).
      cbn.
      destruct (IH m1 m2 (a + x)%R (b + x)%R) as (s1 & s2 & E1 & E2 & Hs);
        try lia; try assumption; try lra.
      exists s1, s2. repeat split; try assumption; lra.
    + destruct c2; cbn.
      * destruct (IH m1 m2 a (b + x)%R) as (s1 & s2 & E1 & E2 & Hs);
          try lia; try assumption; try lra.
        exists s1, s2. repeat split; try assumption; lra.
      * destruct (IH m1 m2 a b) as (s1 & s2 & E1 & E2 & Hs);
          try lia; try assumption; try lra.
        exists s1, s2. repeat split; try assumption; lra.
Qed.

Lemma compress_all {A} (l : list A) :
  compress l (map (fun _ => true) l) = l.
Proof. induction l; cbn; [reflexivity | f_equal; assumption]. Qed.

Lemma filled_volume_bounds vol press p :
  volumes vol -> length vol = length press ->
  exists s S,
    filled_volume vol press p = Ok (Fin s) /\ fsum vol = Fin S /\
    (0 <= s <= S)%R.
Proof.
  intros Hv Hl. unfold filled_volume, getmask, rbind, fsum.
  rewrite length_map, Hl, Nat.eqb_refl.
  destruct (@fold_fadd_compress_le vol (map (fun x => fle x p) press)
              (map (fun _ => true) vol) 0%R 0%R Hv)
    as (s1 & s2 & E1 & E2 & Hs).
  - rewrite length_map. auto.
  - rewrite length_map. auto.
  - intros i Hi. rewrite nth_error_map.
    destruct (nth_error vol i) eqn:E; [reflexivity|].
    apply nth_error_None in E. exfalso.
    assert (H : i < length (map (fun x => fle x p) press))
      by (apply nth_error_Some; congruence).
    rewrite length_map in H. lia.
  - lra.
  - rewrite compress_all in E2. exists s1, s2. rewrite E1, E2. auto.
Qed.

Lemma filled_volume_le vol press p q :
  volumes vol -> length vol = length press -> fle p q = true ->
  exists s1 s2,
    filled_volume vol press p = Ok (Fin s1) /\
    filled_volume vol press q = Ok (Fin s2) /\
    (s1 <= s2)%R.
Proof.
  intros Hv Hl Hpq. unfold filled_volume, getmask, rbind, fsum.
  rewrite !length_map, Hl, Nat.eqb_refl.
  destruct (@fold_fadd_compress_le vol (map (fun x => fle x p) press)
              (map (fun x => fle x q) press) 0%R 0%R Hv)
    as (s1 & s2 & E1 & E2 & Hs).
  - rewrite length_map. auto.
  - rewrite length_map. auto.
  - intros i. rewrite !nth_error_map.
    destruct (nth_error press i) as [x|]; cbn; [|discriminate].
    intros H. injection H as H. f_equal. eapply fle_trans; eassumption.
  - lra.
  - exists s1, s2. rewrite E1, E2. split; [reflexivity|split; [reflexivity|lra]].
Qed.

Lemma map_r_nth {A B} (f : A -> result B) xs ys :
  map_r f xs = Ok ys ->
  length ys = length xs /\
  forall k x, nth_error xs k = Some x ->
              exists y, f x = Ok y /\ nth_error ys k = Some y.
Proof.
  revert ys. induction xs as [|x xs IH]; cbn; intros ys H.
  - injection H as <-. split; [reflexivity|]. intros [|k]; discriminate.
  - destruct (f x) as [y|] eqn:E; [|discriminate].
    destruct (map_r f xs) as [ys'|]; [|discriminate].
    injection H as <-. destruct (IH _ eq_refl) as (L & N).
    split; [cbn; f_equal; exact L|].
    intros [|k] z Hz; cbn in *.
    + injection Hz as <-. exists y. auto.
    + apply N, Hz.
Qed.

Lemma map_r_returns {A B} (f : A -> result B) xs :
  (forall x, exists y, f x = Ok y) -> exists ys, map_r f xs = Ok ys.
Proof.
  intros H. induction xs as [|x xs (ys & IH)]; cbn.
  - exists []. reflexivity.
  - destruct (H x) as (y & ->). rewrite IH. exists (y :: ys). reflexivity.
Qed.

Lemma div_le_div (a b T : R) : (0 < T)%R -> (a <= b)%R -> (a / T <= b / T)%R.
Proof.
  intros HT Hab. unfold Rdiv.
  apply Rmult_le_compat_r; [|exact Hab].
  left. apply Rinv_0_lt_compat, HT.
Qed.

Lemma div_unit (v T : R) :
  (0 < T)%R -> (0 <= v <= T)%R -> (0 <= v / T <= 1)%R.
Proof.
  intros HT [H0 H1]. split.
  - replace 0%R with (0 / T)%R by (unfold Rdiv; apply Rmult_0_l).
    apply div_le_div; assumption.
  - replace 1%R with (T / T)%R by (unfold Rdiv; apply Rinv_r; lra).
    apply div_le_div; assumption.
Qed.

Lemma fdiv_Fin (v T : R) : (0 < T)%R -> fdiv (Fin v) (Fin T) = Fin (v / T).
Proof.
  intros HT. cbn.
  destruct (Reqb T 0) eqn:E; [|reflexivity].
  apply Reqb_true in E. lra.
Qed.

(** The curve under exact sums.  With volume arrays that are finite and
    not negative, as long as the arrays of invasion pressures, and of
    positive total volume, and with the sums taken exactly,
    [get_percolation_data] returns and leaves the object unchanged; it
    gives one saturation per pressure point, every saturation lies
    between 0 and 1, and a larger pressure point never has a smaller
    saturation. *)
Lemma percolation_curve_of_exact_sums
  (proj : Project) (network : dict (list float)) (w : state)
  (Pvol Tvol : list float) (total : R) :
  volume_array network (pore_volume (settings (self w)))
               (repeat (Fin 1) (num_pores proj)) = Ok Pvol ->
  volume_array network (throat_volume (settings (self w)))
               (repeat (Fin 0) (num_throats proj)) = Ok Tvol ->
  volumes Pvol -> volumes Tvol ->
  length Pvol = length (pore_invasion_pressure (self w)) ->
  length Tvol = length (throat_invasion_pressure (self w)) ->
  fadd (fsum Pvol) (fsum Tvol) = Fin total -> (0 < total)%R ->
  exists d,
    get_percolation_data proj network w = (Ok d, w) /\
    length (Snwp d) = length (Pcap d) /\
    (forall k p,
       nth_error (Pcap d) k = Some p ->
       exists s, nth_error (Snwp d) k = Some (Fin s) /\ (0 <= s <= 1)%R) /\
    (forall j k p q sj sk,
       nth_error (Pcap d) j = Some p ->
       nth_error (Pcap d) k = Some q ->
       fle p q = true ->
       nth_error (Snwp d) j = Some (Fin sj) ->
       nth_error (Snwp d) k = Some (Fin sk) ->
       (sj <= sk)%R).
Proof.
  intros HP HT VP VT LP LT Htot Hpos.
  unfold get_percolation_data, bind, get, lift, ret.
  rewrite HP, HT. cbv zeta. rewrite Htot.
  match goal with
  | |- context [map_r ?g ?l] => set (f := g); set (pts := l)
  end.
  assert (Hone : forall p,
            exists vp vt SP ST,
              f p = Ok (Fin (vp + vt)) /\
              fsum Pvol = Fin SP /\ fsum Tvol = Fin ST /\
              (0 <= vp <= SP)%R /\ (0 <= vt <= ST)%R).
  { intros p. unfold f.
    destruct (@filled_volume_bounds Pvol (pore_invasion_pressure (self w)) p VP LP)
      as (vp & SP & E1 & E2 & B1).
    destruct (@filled_volume_bounds Tvol (throat_invasion_pressure (self w)) p VT LT)
      as (vt & ST & E3 & E4 & B2).
    exists vp, vt, SP, ST. rewrite E1, E3. cbn. auto. }
  assert (Htwo : forall p q vp vq,
            fle p q = true -> f p = Ok (Fin vp) -> f q = Ok (Fin vq) ->
            (vp <= vq)%R).
  { intros p q vp vq Hpq. unfold f.
    destruct (@filled_volume_le Pvol (pore_invasion_pressure (self w)) p q VP LP Hpq)
      as (a1 & a2 & E1 & E2 & HA).
    destruct (@filled_volume_le Tvol (throat_invasion_pressure (self w)) p q VT LT Hpq)
      as (b1 & b2 & E3 & E4 & HB).
    rewrite E1, E2, E3, E4. cbn. intros H1 H2.
    injection H1 as <-. injection H2 as <-. lra. }
  destruct (map_r_returns f pts) as (ys & Hys).
  { intros p. destruct (Hone p) as (vp & vt & _ & _ & E & _). eauto. }
  rewrite Hys. eexists. split; [reflexivity|]. cbn [Pcap Snwp].
  destruct (map_r_nth _ _ Hys) as (Hlen & Hnth).
  split; [rewrite length_map; exact Hlen|]. split.
  - intros k p Hk. destruct (Hnth k p Hk) as (y & Hy & Hyk).
    destruct (Hone p) as (vp & vt & SP & ST & E & E1 & E2 & B1 & B2).
    rewrite E in Hy. injection Hy as <-.
    rewrite E1, E2 in Htot. cbn in Htot. injection Htot as Htot.
    rewrite nth_error_map, Hyk. cbn [option_map].
    rewrite (fdiv_Fin _ Hpos).
    exists ((vp + vt) / total)%R. split; [reflexivity|].
    apply div_unit; [exact Hpos | lra].
  - intros j k p q sj sk Hj Hk Hpq Sj Sk.
    destruct (Hnth j p Hj) as (yj & Hyj & Hj').
    destruct (Hnth k q Hk) as (yk & Hyk & Hk').
    rewrite nth_error_map, Hj' in Sj. rewrite nth_error_map, Hk' in Sk.
    cbn [option_map] in Sj, Sk.
    destruct (Hone p) as (vp & vt & _ & _ & Ep & _).
    destruct (Hone q) as (vp' & vt' & _ & _ & Eq & _).
    rewrite Ep in Hyj. injection Hyj as <-.
    rewrite Eq in Hyk. injection Hyk as <-.
    rewrite (fdiv_Fin _ Hpos) in Sj. rewrite (fdiv_Fin _ Hpos) in Sk.
    injection Sj as <-. injection Sk as <-.
    apply div_le_div; [exact Hpos|].
    eapply Htwo; eassumption.
Qed.

Lemma whole_volumes_volumes vol : whole_volumes vol -> volumes vol.
Proof.
  unfold whole_volumes, volumes. intros H.
  eapply Forall_impl; [|exact H].
  intros v (z & -> & Hz). exists (IZR z). split; [reflexivity|].
  apply IZR_le in Hz. exact Hz.
Qed.

(** X8.  With volume arrays of whole numbers that are not negative (as
    the default volumes are), as long as the arrays of invasion
    pressures, and of a positive total of at most 2^53 (so that every
    sum of volumes is exact in double precision),
    [get_percolation_data] returns and leaves the object unchanged; it
    gives one saturation per pressure point, every saturation lies
    between 0 and 1, and a larger pressure point never has a smaller
    saturation. *)
Theorem percolation_curve_is_monotone
  (proj : Project) (network : dict (list float)) (w : state)
  (Pvol Tvol : list float) (total : Z) :
  volume_array network (pore_volume (settings (self w)))
               (repeat (Fin 1) (num_pores proj)) = Ok Pvol ->
  volume_array network (throat_volume (settings (self w)))
               (repeat (Fin 0) (num_throats proj)) = Ok Tvol ->
  whole_volumes Pvol -> whole_volumes Tvol ->
  length Pvol = length (pore_invasion_pressure (self w)) ->
  length Tvol = length (throat_invasion_pressure (self w)) ->
  fadd (fsum Pvol) (fsum Tvol) = Fin (IZR total) ->
  (0 < total <= 2 ^ 53)%Z ->
  exists d,
    get_percolation_data proj network w = (Ok d, w) /\
    length (Snwp d) = length (Pcap d) /\
    (forall k p,
       nth_error (Pcap d) k = Some p ->
       exists s, nth_error (Snwp d) k = Some (Fin s) /\ (0 <= s <= 1)%R) /\
    (forall j k p q sj sk,
       nth_error (Pcap d) j = Some p ->
       nth_error (Pcap d) k = Some q ->
       fle p q = true ->
       nth_error (Snwp d) j = Some (Fin sj) ->
       nth_error (Snwp d) k = Some (Fin sk) ->
       (sj <= sk)%R).
Proof.
  intros HP HT VP VT LP LT Htot (Hpos & _).
  apply (@percolation_curve_of_exact_sums proj network w Pvol Tvol (IZR total));
    try assumption.
  - apply whole_volumes_volumes, VP.
  - apply whole_volumes_volumes, VT.
  - apply (IZR_lt 0), Hpos.
Qed.

Lemma percolation_curve_is_monotone_witness :
  exists d,
    get_percolation_data line3 [] after_run_2_4 = (Ok d, after_run_2_4) /\
    length (Snwp d) = length (Pcap d).
Proof.
  destruct (@percolation_curve_is_monotone line3 [] after_run_2_4
              [Fin 1; Fin 1; Fin 1] [Fin 0; Fin 0] 3)
    as (d & H1 & H2 & _).
  - reflexivity.
  - reflexivity.
  - repeat constructor; eexists; (split; [reflexivity | lia]).
  - repeat constructor; eexists; (split; [reflexivity | lia]).
  - reflexivity.
  - reflexivity.
  - cbn. f_equal. lra.
  - lia.
  - exists d. split; assumption.
Defined.

(** ** The default volumes *)

Lemma sum_ones n a :
  fold_left fadd (repeat (Fin 1) n) (Fin a) = Fin (a + INR n).
Proof.
  revert a. induction n as [|n IH]; intros a.
  - cbn. f_equal. lra.
  - rewrite S_INR. cbn [repeat fold_left fadd]. rewrite IH. f_equal. lra.
Qed.

Lemma sum_zeros n a :
  fold_left fadd (repeat (Fin 0) n) (Fin a) = Fin a.
Proof.
  revert a. induction n as [|n IH]; intros a; cbn; [reflexivity|].
  rewrite IH. f_equal. lra.
Qed.

Lemma sum_selected_ones (press : list float) (keep : float -> bool) a :
  fold_left fadd (compress (repeat (Fin 1) (length press)) (map keep press))
            (Fin a)
  = Fin (a + INR (length (filter keep press))).
Proof.
  revert a. induction press as [|x press IH]; intros a; cbn.
  - f_equal. lra.
  - destruct (keep x).
    + cbn [fold_left fadd length]. rewrite IH, S_INR. f_equal. lra.
    + apply IH.
Qed.

Lemma sum_selected_zeros (press : list float) (keep : float -> bool) a :
  fold_left fadd (compress (repeat (Fin 0) (length press)) (map keep press))
            (Fin a)
  = Fin a.
Proof.
  revert a. induction press as [|x press IH]; intros a; cbn; [reflexivity|].
  destruct (keep x); [|apply IH].
  cbn. rewrite IH. f_equal. lra.
Qed.

(** X9.  With the default settings for the volumes (no pore volume and
    no throat volume named), every pore counts 1 and every throat 0:
    the saturation that [get_percolation_data] reports at a pressure
    point is the number of pores whose invasion pressure is at most the
    point, divided by the number of pores. *)
Theorem percolation_curve_counts_pores
  (proj : Project) (network : dict (list float)) (w : state) :
  pore_volume (settings (self w)) = "" ->
  throat_volume (settings (self w)) = "" ->
  length (pore_invasion_pressure (self w)) = num_pores proj ->
  length (throat_invasion_pressure (self w)) = num_throats proj ->
  0 < num_pores proj ->
  exists d,
    get_percolation_data proj network w = (Ok d, w) /\
    forall k p,
      nth_error (Pcap d) k = Some p ->
      nth_error (Snwp d) k =
        Some (Fin (INR (length (filter (fun x => fle x p)
                                       (pore_invasion_pressure (self w))))
                   / INR (num_pores proj))).
Proof.
  intros HP HT LP LT Hn.
  unfold get_percolation_data, bind, get, lift, ret, volume_array.
  rewrite HP, HT. cbn [String.eqb]. cbv zeta.
  unfold fsum. rewrite sum_ones, sum_zeros. cbn [fadd].
  match goal with
  | |- context [map_r ?g ?l] => set (f := g); set (pts := l)
  end.
  assert (Hone : forall p,
            f p = Ok (Fin (0 + INR (length (filter (fun x => fle x p)
                                 (pore_invasion_pressure (self w)))) + 0))).
  { intros p. unfold f, filled_volume, getmask, rbind, fsum.
    rewrite !repeat_length, !length_map, LP, LT, !Nat.eqb_refl.
    rewrite <- LP, <- LT.
    rewrite sum_selected_ones, sum_selected_zeros. reflexivity. }
  destruct (map_r_returns f pts) as (ys & Hys).
  { intros p. rewrite Hone. eauto. }
  rewrite Hys. eexists. split; [reflexivity|]. cbn [Pcap Snwp].
  destruct (map_r_nth _ _ Hys) as (_ & Hnth).
  intros k p Hk. destruct (Hnth k p Hk) as (y & Hy & Hyk).
  rewrite Hone in Hy. injection Hy as <-.
  rewrite nth_error_map, Hyk. cbn [option_map].
  assert (Hpos : (0 < 0 + INR (num_pores proj) + 0)%R).
  { assert (0 < INR (num_pores proj))%R by (apply lt_0_INR; exact Hn). lra. }
  rewrite (fdiv_Fin _ Hpos). do 2 f_equal.
  f_equal; lra.
Qed.

Lemma percolation_curve_counts_pores_witness :
  exists d,
    get_percolation_data line3 [] after_run_2_4 = (Ok d, after_run_2_4).
Proof.
  destruct (@percolation_curve_counts_pores line3 [] after_run_2_4
              eq_refl eq_refl eq_refl eq_refl) as (d & H1 & H2).
  - cbn. lia.
  - exists d. exact H1.
Defined.

(** ** The pressure points of the curve *)

Lemma In_removelast {A} (x : A) l : In x (removelast l) -> In x l.
Proof.
  induction l as [|a t IH]; cbn; [tauto|].
  destruct t as [|b t']; [contradiction|].
  intros [->|H]; [left; reflexivity | right; apply IH, H].
Qed.

Lemma removelast_keeps {A} (x d : A) l :
  In x l -> x <> last l d -> In x (removelast l).
Proof.
  induction l as [|a t IH]; cbn; [tauto|].
  destruct t as [|b t'].
  - intros [->|[]] H. contradiction.
  - intros [->|H] Hn; [left; reflexivity | right; apply IH; assumption].
Qed.

Lemma sort_le_neq_lt a b :
  isnan b = false -> sort_le a b = true -> fne a b = true -> flt a b = true.
Proof.
  unfold sort_le, fne.
  destruct a, b; cbn; intros; try discriminate; try reflexivity.
  rewrite ?orb_false_r in *.
  destruct (Reqb x x0) eqn:E; [discriminate|]. bools_to_props. lra.
Qed.

(** Without nan, the distinct values come in strictly ascending order. *)
Lemma dedup_strict l :
  sorted l -> Forall (fun x => isnan x = false) l ->
  StronglySorted (fun a b => flt a b = true) (dedup l).
Proof.
  unfold sorted. induction 1 as [|a t Ht IH Ha]; intros Hn; cbn.
  - constructor.
  - inversion Hn as [|? ? Hna Hnt]; subst.
    destruct t as [|b t'].
    + constructor; constructor.
    + destruct (fne a b) eqn:E; [|apply IH, Hnt].
      constructor; [apply IH, Hnt|].
      rewrite Forall_forall in *. intros y Hy.
      apply dedup_In in Hy.
      assert (Hab : flt a b = true).
      { apply sort_le_neq_lt; auto.
        - apply Hnt. left. reflexivity.
        - apply Ha. left. reflexivity. }
      destruct Hy as [<-|Hy]; [exact Hab|].
      inversion Ht as [|? ? _ Hb]; subst.
      rewrite Forall_forall in Hb.
      eapply flt_fle_trans; [exact Hab|].
      specialize (Hb y Hy). unfold sort_le in Hb.
      rewrite (Hnt y (or_intror Hy)), orb_false_r in Hb. exact Hb.
Qed.

Lemma removelast_below l x :
  StronglySorted (fun a b => flt a b = true) l ->
  In x (removelast l) -> exists y, In y l /\ flt x y = true.
Proof.
  induction 1 as [|a t Ht IH Ha]; cbn; [contradiction|].
  destruct t as [|b t']; [contradiction|].
  intros [->|H].
  - exists b. split; [right; left; reflexivity|].
    rewrite Forall_forall in Ha. apply Ha. left. reflexivity.
  - destruct (IH H) as (y & Hy & Hxy). exists y. split; [right|]; assumption.
Qed.

Lemma last_is_PInf l d :
  sorted l -> Forall (fun x => isnan x = false) l -> In PInf l ->
  last l d = PInf.
Proof.
  unfold sorted. induction 1 as [|a t Ht IH Ha]; intros Hn Hin; [contradiction|].
  inversion Hn as [|? ? Hna Hnt]; subst.
  destruct t as [|b t'].
  - destruct Hin as [->|[]]. reflexivity.
  - change (last (a :: b :: t') d) with (last (b :: t') d).
    apply IH; [exact Hnt|].
    destruct Hin as [->|Hin]; [|exact Hin].
    left. rewrite Forall_forall in Ha, Hnt.
    specialize (Ha b (or_introl eq_refl)).
    specialize (Hnt b (or_introl eq_refl)).
    unfold sort_le in Ha. destruct b; cbn in *; try discriminate. reflexivity.
Qed.

Lemma unique_no_nan l :
  Forall (fun x => isnan x = false) l ->
  Forall (fun x => isnan x = false) (unique l).
Proof.
  rewrite !Forall_forall. intros H x Hx.
  apply H. apply dedup_In in Hx. apply (proj1 (sort_In _ _)) in Hx. exact Hx.
Qed.

Lemma sort_no_nan l :
  Forall (fun x => isnan x = false) l ->
  Forall (fun x => isnan x = false) (sort l).
Proof.
  rewrite !Forall_forall. intros H x Hx. apply H, sort_In, Hx.
Qed.

Lemma percolation_data_Pcap proj network w w' d :
  get_percolation_data proj network w = (Ok d, w') ->
  Pcap d =
    (if feq (last (Fin 0 :: unique (throat_invasion_pressure (self w))) NaN) PInf
     then removelast (Fin 0 :: unique (throat_invasion_pressure (self w)))
     else Fin 0 :: unique (throat_invasion_pressure (self w))).
Proof.
  unfold get_percolation_data, bind, get, lift, ret. cbv zeta.
  destruct (volume_array network (pore_volume (settings (self w))) _)
    as [Pvol|]; [|discriminate].
  destruct (volume_array network (throat_volume (settings (self w))) _)
    as [Tvol|]; [|discriminate].
  destruct (map_r _ _) as [ys|]; [|discriminate].
  intros H. injection H as <- _. reflexivity.
Qed.

Lemma percolation_data_returns proj network w Pvol Tvol :
  volume_array network (pore_volume (settings (self w)))
               (repeat (Fin 1) (num_pores proj)) = Ok Pvol ->
  volume_array network (throat_volume (settings (self w)))
               (repeat (Fin 0) (num_throats proj)) = Ok Tvol ->
  volumes Pvol -> volumes Tvol ->
  length Pvol = length (pore_invasion_pressure (self w)) ->
  length Tvol = length (throat_invasion_pressure (self w)) ->
  exists d, get_percolation_data proj network w = (Ok d, w).
Proof.
  intros HP HT VP VT LP LT.
  unfold get_percolation_data, bind, get, lift, ret.
  rewrite HP, HT. cbv zeta.
  match goal with
  | |- context [map_r ?g ?l] => destruct (map_r_returns g l) as (ys & Hys)
  end.
  - intros p.
    destruct (@filled_volume_bounds Pvol (pore_invasion_pressure (self w)) p VP LP)
      as (vp & SP & E1 & _).
    destruct (@filled_volume_bounds Tvol (throat_invasion_pressure (self w)) p VT LT)
      as (vt & ST & E3 & _).
    rewrite E1, E3. cbn. eauto.
  - rewrite Hys. eauto.
Qed.

(** X10.  The pressure points that [get_percolation_data] returns start
    with 0; every other point is an invasion pressure of a throat, and
    every finite invasion pressure of a throat is a point.  When no
    throat pressure is nan the points are strictly ascending after the
    leading 0 and none of them is [+inf]. *)
Theorem percolation_points
  (proj : Project) (network : dict (list float)) (w w' : state) (d : pc_curve) :
  get_percolation_data proj network w = (Ok d, w') ->
  hd_error (Pcap d) = Some (Fin 0) /\
  (forall p, In p (Pcap d) ->
             p = Fin 0 \/ In p (throat_invasion_pressure (self w))) /\
  (forall x, In (Fin x) (throat_invasion_pressure (self w)) ->
             In (Fin x) (Pcap d)) /\
  (Forall (fun x => isnan x = false) (throat_invasion_pressure (self w)) ->
   StronglySorted (fun a b => flt a b = true) (tl (Pcap d)) /\
   ~ In PInf (Pcap d)).
Proof.
  intros H. rewrite (percolation_data_Pcap _ _ _ H). clear H.
  set (u := unique (throat_invasion_pressure (self w))).
  assert (Hu : forall p, In p u -> In p (throat_invasion_pressure (self w))).
  { intros p Hp. apply dedup_In in Hp. apply (proj1 (sort_In _ _)) in Hp.
    exact Hp. }
  destruct (feq (last (Fin 0 :: u) NaN) PInf) eqn:E.
  - apply feq_PInf in E.
    destruct u as [|b t] eqn:Eu; [cbn in E; discriminate|].
    change (removelast (Fin 0 :: b :: t)) with (Fin 0 :: removelast (b :: t)).
    change (last (Fin 0 :: b :: t) NaN) with (last (b :: t) NaN) in E.
    split; [reflexivity|split; [|split]].
    + intros p [<-|Hp]; [left; reflexivity|].
      right. apply Hu, In_removelast, Hp.
    + intros x Hx. right. apply removelast_keeps with (d := NaN).
      * rewrite <- Eu. apply In_unique, Hx.
      * rewrite E. discriminate.
    + intros Hn.
      assert (Hs : StronglySorted (fun a b => flt a b = true) (b :: t)).
      { rewrite <- Eu. apply dedup_strict; [apply sort_sorted | apply sort_no_nan, Hn]. }
      split.
      * cbn [tl].
        clear -Hs. induction Hs as [|a l Hl IH Ha]; [constructor|].
        destruct l as [|c l']; [constructor|].
        change (removelast (a :: c :: l')) with (a :: removelast (c :: l')).
        constructor; [exact IH|].
        rewrite Forall_forall in *. intros y Hy. apply Ha, In_removelast, Hy.
      * intros [H|H]; [discriminate|].
        destruct (@removelast_below _ _ Hs H) as (y & _ & Hy).
        destruct y; discriminate.
  - split; [reflexivity|split; [|split]].
    + intros p [<-|Hp]; [left; reflexivity | right; apply Hu, Hp].
    + intros x Hx. right. apply In_unique, Hx.
    + intros Hn. split.
      * cbn [tl]. apply dedup_strict; [apply sort_sorted | apply sort_no_nan, Hn].
      * intros [H|H]; [discriminate|].
        assert (last (Fin 0 :: u) NaN = PInf).
        { destruct u as [|b t] eqn:Eu; [contradiction|].
          change (last (Fin 0 :: b :: t) NaN) with (last (b :: t) NaN).
          apply last_is_PInf.
          - rewrite <- Eu. apply unique_sorted.
          - rewrite <- Eu. apply unique_no_nan, Hn.
          - exact H. }
        rewrite H0 in E. discriminate.
Qed.

Lemma percolation_points_witness :
  exists d,
    get_percolation_data line3 [] after_run_2 = (Ok d, after_run_2) /\
    ~ In PInf (Pcap d).
Proof.
  destruct (@percolation_data_returns line3 [] after_run_2
              [Fin 1; Fin 1; Fin 1] [Fin 0; Fin 0] eq_refl eq_refl)
    as (d & H1).
  - repeat constructor; eexists; (split; [reflexivity | lra]).
  - repeat constructor; eexists; (split; [reflexivity | lra]).
  - reflexivity.
  - reflexivity.
  - exists d. split; [exact H1|].
    destruct (percolation_points _ _ _ H1) as (_ & _ & _ & H).
    apply H. repeat constructor.
Defined.

End PercolationQueries.







(* ================================================================== *)
(** * [Tools]: the four modes of the index queries                     *)
(* ================================================================== *)

Module QueryModes.

Import Np Tools ToolsFacts.
Local Open Scope py_scope.

Section Modes.

Variables (self : t) (e : element) (N : nat).

(** The loops of the modes 'union' and 'intersection' fold a boolean
    operation over the labels, element by element. *)
Lemma fold_labels (f : bool -> bool -> bool) labels acc :
  length acc = N ->
  Forall (defined_label self e N) labels ->
  exists acc',
    over_labels self e (fun a info => elementwise f a info) labels acc = Ok acc' /\
    length acc' = N /\
    forall i b, nth_error acc i = Some b ->
                nth_error acc' i =
                  Some (fold_left (fun b l => f b (carriesb self e l i)) labels b).
Proof.
  revert acc. induction labels as [|l rest IH]; intros acc Hlen Hdef.
  - exists acc. cbn. repeat split; auto.
  - inversion Hdef as [|? ? (m & Hm & Hml) Hrest]; subst.
    cbn [over_labels]. unfold _get_info, dict_item. rewrite Hm. cbn [rbind].
    unfold elementwise. rewrite Hml, Nat.eqb_refl. cbn [rbind].
    destruct (IH (map2 f acc m)) as (acc' & Hacc' & Hlen' & Hnth); auto.
    { rewrite map2_length'; [reflexivity | lia]. }
    exists acc'. repeat split; auto.
    intros i b Hb.
    assert (Hi : i < length m).
    { rewrite Hml. apply nth_error_Some. congruence. }
    destruct (nth_error m i) as [c|] eqn:Ec;
      [|apply nth_error_None in Ec; lia].
    assert (Hc : carriesb self e l i = c).
    { unfold carriesb. rewrite Hm. apply nth_error_nth, Ec. }
    rewrite (Hnth i (f b c)).
    + cbn [fold_left]. rewrite Hc. reflexivity.
    + rewrite map2_nth_error', Hb, Ec. reflexivity.
Qed.

Lemma fold_orb labels i b :
  fold_left (fun b l => b || carriesb self e l i) labels b =
  b || existsb (fun l => carriesb self e l i) labels.
Proof.
  revert b. induction labels as [|l rest IH]; intros b; cbn.
  - rewrite orb_false_r. reflexivity.
  - rewrite IH. rewrite orb_assoc. reflexivity.
Qed.

Lemma fold_andb labels i b :
  fold_left (fun b l => b && carriesb self e l i) labels b =
  b && forallb (fun l => carriesb self e l i) labels.
Proof.
  revert b. induction labels as [|l rest IH]; intros b; cbn.
  - rewrite andb_true_r. reflexivity.
  - rewrite IH. rewrite andb_assoc. reflexivity.
Qed.

(** The loop of the mode 'none' subtracts, for every element, the
    number of entries of [labels] that label it. *)
Lemma subtract_labels labels acc :
  length acc = N ->
  Forall (defined_label self e N) labels ->
  exists acc',
    over_labels self e
      (fun none info => elementwise Z.sub none (int8 info))
      labels acc = Ok acc' /\
    length acc' = N /\
    forall i c, nth_error acc i = Some c ->
                nth_error acc' i = Some (c - carried self e labels i)%Z.
Proof.
  revert acc. induction labels as [|l rest IH]; intros acc Hlen Hdef.
  - exists acc. cbn. repeat split; auto.
    intros i c H. rewrite Z.sub_0_r. exact H.
  - inversion Hdef as [|? ? (m & Hm & Hml) Hrest]; subst.
    cbn [over_labels]. unfold _get_info, dict_item. rewrite Hm. cbn [rbind].
    unfold elementwise, int8. rewrite length_map, Hml, Nat.eqb_refl. cbn [rbind].
    destruct (IH (map2 Z.sub acc (map (fun b : bool => if b then 1%Z else 0%Z) m)))
      as (acc' & Hacc' & Hlen' & Hnth); auto.
    { rewrite map2_length'; [reflexivity|]. rewrite length_map. lia. }
    exists acc'. repeat split; auto.
    intros i c Hc.
    assert (Hi : i < length m).
    { rewrite Hml. apply nth_error_Some. congruence. }
    destruct (nth_error m i) as [b|] eqn:Eb;
      [|apply nth_error_None in Eb; lia].
    rewrite (Hnth i (c - (if b then 1 else 0))%Z).
    + f_equal. cbn [carried]. unfold carriesb. rewrite Hm.
      rewrite (nth_error_nth _ _ _ Eb). lia.
    + rewrite map2_nth_error', nth_error_map, Hc, Eb. reflexivity.
Qed.

Lemma existsb_carries L i :
  existsb (fun l => carriesb self e l i) L = true <->
  exists l, In l L /\ carries self e l i.
Proof.
  rewrite existsb_exists. split; intros (l & H1 & H2); exists l;
    (split; [exact H1|]); apply carriesb_carries; exact H2.
Qed.

Lemma forallb_carries L i :
  forallb (fun l => carriesb self e l i) L = true <->
  forall l, In l L -> carries self e l i.
Proof.
  rewrite forallb_forall. split; intros H l Hl; apply carriesb_carries, H, Hl.
Qed.

Lemma carried_zero_existsb L i :
  (carried self e L i =? 0)%Z = negb (existsb (fun l => carriesb self e l i) L).
Proof.
  induction L as [|l rest IH]; [reflexivity|].
  cbn [carried existsb].
  pose proof (carried_nonneg self e rest i).
  destruct (carriesb self e l i); cbn [orb negb].
  - apply Z.eqb_neq. lia.
  - rewrite Z.add_0_l. exact IH.
Qed.

(** The masks of the modes 'union', 'intersection' and 'none'. *)
Lemma union_mask L :
  defined_label self e N "all" ->
  Forall (defined_label self e N) L ->
  _get_indices self e L false "union" =
    Ok (Mask (map (fun i => existsb (fun l => carriesb self e l i) L) (seq 0 N))).
Proof.
  intros (all & Hall & Halen) Hdef.
  destruct (@fold_labels orb L (map (fun _ => false) all)) as (acc & Hacc & Hlen & Hnth);
    [rewrite length_map; exact Halen | exact Hdef |].
  unfold _get_indices. cbn [String.eqb Ascii.eqb Bool.eqb].
  unfold _get_info at 1, dict_item. rewrite Hall. cbn [rbind].
  rewrite Hacc. cbn [rbind]. do 2 f_equal.
  apply RunInvariants.nth_error_ext.
  - rewrite length_map, length_seq. exact Hlen.
  - intros i x Hx.
    assert (Hi : i < N) by (rewrite <- Hlen; apply nth_error_Some; congruence).
    rewrite nth_error_map, nth_error_seq.
    destruct (Nat.ltb_spec i N) as [_|]; [|lia]. cbn.
    rewrite (Hnth i false) in Hx.
    + rewrite fold_orb in Hx. exact Hx.
    + rewrite nth_error_map.
      destruct (nth_error all i) eqn:Ea; [reflexivity|].
      apply nth_error_None in Ea. lia.
Qed.

Lemma intersection_mask L :
  defined_label self e N "all" ->
  Forall (defined_label self e N) L ->
  _get_indices self e L false "intersection" =
    Ok (Mask (map (fun i => forallb (fun l => carriesb self e l i) L) (seq 0 N))).
Proof.
  intros (all & Hall & Halen) Hdef.
  destruct (@fold_labels andb L (map (fun _ => true) all)) as (acc & Hacc & Hlen & Hnth);
    [rewrite length_map; exact Halen | exact Hdef |].
  unfold _get_indices. cbn [String.eqb Ascii.eqb Bool.eqb].
  unfold _get_info at 1, dict_item. rewrite Hall. cbn [rbind].
  rewrite Hacc. cbn [rbind]. do 2 f_equal.
  apply RunInvariants.nth_error_ext.
  - rewrite length_map, length_seq. exact Hlen.
  - intros i x Hx.
    assert (Hi : i < N) by (rewrite <- Hlen; apply nth_error_Some; congruence).
    rewrite nth_error_map, nth_error_seq.
    destruct (Nat.ltb_spec i N) as [_|]; [|lia]. cbn.
    rewrite (Hnth i true) in Hx.
    + rewrite fold_andb in Hx. exact Hx.
    + rewrite nth_error_map.
      destruct (nth_error all i) eqn:Ea; [reflexivity|].
      apply nth_error_None in Ea. lia.
Qed.

Lemma none_mask L :
  defined_label self e N "all" ->
  Forall (defined_label self e N) L ->
  _get_indices self e L false "none" =
    Ok (Mask (map (fun i => negb (existsb (fun l => carriesb self e l i) L))
                  (seq 0 N))).
Proof.
  intros (all & Hall & Halen) Hdef.
  destruct (@subtract_labels L (map (fun _ => 0%Z) all)) as (acc & Hacc & Hlen & Hnth);
    [rewrite length_map; exact Halen | exact Hdef |].
  unfold _get_indices. cbn [String.eqb Ascii.eqb Bool.eqb].
  unfold _get_info at 1, dict_item. rewrite Hall. cbn [rbind].
  rewrite Hacc. cbn [rbind]. do 2 f_equal.
  apply RunInvariants.nth_error_ext.
  - rewrite !length_map, length_seq. exact Hlen.
  - intros i x Hx.
    assert (Hi : i < N).
    { rewrite <- Hlen. rewrite <- (length_map (fun c => (c =? 0)%Z) acc).
      apply nth_error_Some. congruence. }
    rewrite nth_error_map, nth_error_seq.
    destruct (Nat.ltb_spec i N) as [_|]; [|lia]. cbn.
    rewrite nth_error_map in Hx. rewrite (Hnth i 0%Z) in Hx.
    + cbn [option_map] in Hx. injection Hx as <-.
      rewrite <- carried_zero_existsb. f_equal.
      destruct (Z.eqb_spec (carried self e L i) 0),
               (Z.eqb_spec (0 - carried self e L i) 0); try reflexivity; lia.
    + rewrite nth_error_map.
      destruct (nth_error all i) eqn:Ea; [reflexivity|].
      apply nth_error_None in Ea. lia.
Qed.

End Modes.

(** The three forms of a query: the mask, the indices and the count. *)
Lemma query_forms self e L mode mask :
  _get_indices self e L false mode = Ok (Mask mask) ->
  query self e (LList L) false mode = Ok (Mask mask) /\
  query self e (LList L) true mode = Ok (Indices (where_true mask)) /\
  count self e (LList L) mode = Ok (Z.of_nat (length (where_true mask))).
Proof.
  intros H.
  assert (Hi : _get_indices self e L true mode = Ok (Indices (where_true mask))).
  { generalize H. unfold _get_indices.
    match goal with
    | |- (rbind ?m _) = _ -> _ => destruct m as [ind|]
    end; cbn [rbind]; [|discriminate].
    intros H'. injection H' as ->. reflexivity. }
  destruct e; unfold query, count, num_pores, num_throats, get_pore_indices,
    get_throat_indices, pores, throats; cbn [as_list];
    rewrite H, Hi; cbn [rbind sum_ind]; rewrite sum_bool_where; auto.
Qed.

Lemma In_where_map (f : nat -> bool) N i :
  In i (where_true (map f (seq 0 N))) <-> i < N /\ f i = true.
Proof.
  rewrite where_true_In, nth_error_map, nth_error_seq.
  destruct (Nat.ltb_spec i N) as [Hlt|Hge]; cbn; split.
  - intros E. injection E as E. auto.
  - intros [_ E]. rewrite E. reflexivity.
  - discriminate.
  - intros [E _]. lia.
Qed.

Lemma carries_in_range self e N l i :
  defined_label self e N l -> carries self e l i -> i < N.
Proof.
  intros (m & Hm & Hl) (m' & Hm' & Hi).
  assert (m' = m) by congruence. subst m'. rewrite <- Hl.
  apply nth_error_Some. congruence.
Qed.

(** X11.  For labels that are defined on the [N] elements, the query of
    mode 'union' returns the elements that carry at least one of the
    labels: as a mask of length [N], as the ascending indices of the
    mask, and (by [num_pores], [num_throats]) as their number. *)
Theorem union_is_any_label
  (self : t) (e : element) (N : nat) (L : list string) :
  defined_label self e N "all" ->
  Forall (defined_label self e N) L ->
  exists mask,
    query self e (LList L) false "union" = Ok (Mask mask) /\
    query self e (LList L) true "union" = Ok (Indices (where_true mask)) /\
    count self e (LList L) "union" = Ok (Z.of_nat (length (where_true mask))) /\
    length mask = N /\
    (forall i, In i (where_true mask) <->
               exists l, In l L /\ carries self e l i).
Proof.
  intros Hall Hdef.
  pose proof (union_mask Hall Hdef) as Hm.
  destruct (query_forms _ _ _ _ Hm) as (Q1 & Q2 & Q3).
  eexists. split; [exact Q1|split; [exact Q2|split; [exact Q3|split]]].
  - rewrite length_map, length_seq. reflexivity.
  - intros i. rewrite In_where_map, existsb_carries. split.
    + tauto.
    + intros (l & Hl & Hc). split; [|eauto].
      rewrite Forall_forall in Hdef.
      eapply carries_in_range; [apply Hdef, Hl | exact Hc].
Qed.

Lemma union_is_any_label_witness :
  exists mask,
    query Examples.labelled_net pore (LList ["top"; "front"]) true "union"
      = Ok (Indices (where_true mask)) /\
    (forall i, In i (where_true mask) <->
               exists l, In l ["top"; "front"] /\
                         carries Examples.labelled_net pore l i).
Proof.
  destruct (@union_is_any_label Examples.labelled_net pore 4 ["top"; "front"])
    as (mask & _ & H1 & _ & _ & H2).
  - eexists. split; reflexivity.
  - repeat constructor; eexists; split; reflexivity.
  - exists mask. split; assumption.
Defined.

(** X12.  For labels that are defined on the [N] elements, the query of
    mode 'intersection' returns the elements that carry every one of
    the labels; with no label at all it returns every element. *)
Theorem intersection_is_every_label
  (self : t) (e : element) (N : nat) (L : list string) :
  defined_label self e N "all" ->
  Forall (defined_label self e N) L ->
  exists mask,
    query self e (LList L) false "intersection" = Ok (Mask mask) /\
    query self e (LList L) true "intersection"
      = Ok (Indices (where_true mask)) /\
    count self e (LList L) "intersection"
      = Ok (Z.of_nat (length (where_true mask))) /\
    length mask = N /\
    (forall i, In i (where_true mask) <->
               i < N /\ forall l, In l L -> carries self e l i).
Proof.
  intros Hall Hdef.
  pose proof (intersection_mask Hall Hdef) as Hm.
  destruct (query_forms _ _ _ _ Hm) as (Q1 & Q2 & Q3).
  eexists. split; [exact Q1|split; [exact Q2|split; [exact Q3|split]]].
  - rewrite length_map, length_seq. reflexivity.
  - intros i. rewrite In_where_map, forallb_carries. tauto.
Qed.

Lemma intersection_is_every_label_witness :
  exists mask,
    query Examples.labelled_net pore (LList ["top"; "front"]) true "intersection"
      = Ok (Indices (where_true mask)) /\
    (forall i, In i (where_true mask) <->
               i < 4 /\ forall l, In l ["top"; "front"] ->
                                  carries Examples.labelled_net pore l i).
Proof.
  destruct (@intersection_is_every_label Examples.labelled_net pore 4
              ["top"; "front"])
    as (mask & _ & H1 & _ & _ & H2).
  - eexists. split; reflexivity.
  - repeat constructor; eexists; split; reflexivity.
  - exists mask. split; assumption.
Defined.

(** X13.  For labels that are defined on the [N] elements, the query of
    mode 'none' returns the elements that carry none of the labels. *)
Theorem none_is_no_label
  (self : t) (e : element) (N : nat) (L : list string) :
  defined_label self e N "all" ->
  Forall (defined_label self e N) L ->
  exists mask,
    query self e (LList L) false "none" = Ok (Mask mask) /\
    query self e (LList L) true "none" = Ok (Indices (where_true mask)) /\
    count self e (LList L) "none" = Ok (Z.of_nat (length (where_true mask))) /\
    length mask = N /\
    (forall i, In i (where_true mask) <->
               i < N /\ forall l, In l L -> ~ carries self e l i).
Proof.
  intros Hall Hdef.
  pose proof (none_mask Hall Hdef) as Hm.
  destruct (query_forms _ _ _ _ Hm) as (Q1 & Q2 & Q3).
  eexists. split; [exact Q1|split; [exact Q2|split; [exact Q3|split]]].
  - rewrite length_map, length_seq. reflexivity.
  - intros i. rewrite In_where_map.
    rewrite negb_true_iff, <- not_true_iff_false, existsb_carries.
    split; intros [Hi H]; (split; [exact Hi|]).
    + intros l Hl Hc. apply H. eauto.
    + intros (l & Hl & Hc). apply (H l Hl Hc).
Qed.

Lemma none_is_no_label_witness :
  exists mask,
    query Examples.labelled_net pore (LList ["top"; "front"]) true "none"
      = Ok (Indices (where_true mask)) /\
    (forall i, In i (where_true mask) <->
               i < 4 /\ forall l, In l ["top"; "front"] ->
                                  ~ carries Examples.labelled_net pore l i).
Proof.
  destruct (@none_is_no_label Examples.labelled_net pore 4 ["top"; "front"])
    as (mask & _ & H1 & _ & _ & H2).
  - eexists. split; reflexivity.
  - repeat constructor; eexists; split; reflexivity.
  - exists mask. split; assumption.
Defined.

(** ** Counting *)

Lemma sum_bool_cons b t :
  sum_bool (b :: t) = ((if b then 1 else 0) + sum_bool t)%Z.
Proof.
  unfold sum_bool. cbn [count_occ].
  destruct b; [destruct (bool_dec true true); [lia | congruence]|].
  destruct (bool_dec false true); [discriminate | lia].
Qed.

(** A mask that is the disjoint union of two masks counts their sum. *)
Lemma sum_bool_split {A} (f g h : A -> bool) l :
  (forall x, In x l -> f x = g x || h x /\ g x && h x = false) ->
  sum_bool (map f l) = (sum_bool (map g l) + sum_bool (map h l))%Z.
Proof.
  induction l as [|x l IH]; intros H; [reflexivity|].
  cbn [map]. rewrite !sum_bool_cons.
  rewrite IH by (intros y Hy; apply H; right; exact Hy).
  destruct (H x (or_introl eq_refl)) as (H1 & H2). rewrite H1.
  destruct (g x), (h x); cbn [orb andb] in *; try discriminate; lia.
Qed.

Lemma sum_bool_all {A} (l : list A) :
  sum_bool (map (fun _ => true) l) = Z.of_nat (length l).
Proof.
  induction l as [|x l IH]; [reflexivity|].
  cbn [map length]. rewrite sum_bool_cons, IH. lia.
Qed.

Lemma count_of_mask self e L mode mask :
  _get_indices self e L false mode = Ok (Mask mask) ->
  count self e (LList L) mode = Ok (sum_bool mask).
Proof.
  intros H. destruct (query_forms _ _ _ _ H) as (_ & _ & ->).
  rewrite sum_bool_where. reflexivity.
Qed.

(** X14.  The modes 'union' and 'none' split the elements in two: an
    index below [N] is returned by exactly one of the two queries, and
    the two counts add up to [N]. *)
Theorem union_and_none_partition
  (self : t) (e : element) (N : nat) (L : list string) :
  defined_label self e N "all" ->
  Forall (defined_label self e N) L ->
  exists with_some with_none n_some n_none,
    query self e (LList L) true "union" = Ok (Indices with_some) /\
    query self e (LList L) true "none" = Ok (Indices with_none) /\
    count self e (LList L) "union" = Ok n_some /\
    count self e (LList L) "none" = Ok n_none /\
    (forall i, i < N <-> In i with_some \/ In i with_none) /\
    (forall i, ~ (In i with_some /\ In i with_none)) /\
    (n_some + n_none = Z.of_nat N)%Z.
Proof.
  intros Hall Hdef.
  pose proof (union_mask Hall Hdef) as Hu.
  pose proof (none_mask Hall Hdef) as Hn.
  destruct (query_forms _ _ _ _ Hu) as (_ & U2 & _).
  destruct (query_forms _ _ _ _ Hn) as (_ & N2 & _).
  do 4 eexists.
  split; [exact U2|split; [exact N2|]].
  split; [apply (count_of_mask _ _ _ _ Hu)|].
  split; [apply (count_of_mask _ _ _ _ Hn)|].
  split; [|split].
  - intros i. rewrite !In_where_map.
    destruct (existsb (fun l => carriesb self e l i) L); cbn; intuition.
  - intros i. rewrite !In_where_map.
    destruct (existsb (fun l => carriesb self e l i) L); cbn;
      intuition discriminate.
  - replace (Z.of_nat N) with (sum_bool (map (fun _ => true) (seq 0 N)))
      by (rewrite sum_bool_all, length_seq; reflexivity).
    symmetry. apply sum_bool_split.
    intros i _. destruct (existsb (fun l => carriesb self e l i) L); auto.
Qed.

Lemma union_and_none_partition_witness :
  exists n_some n_none,
    count Examples.labelled_net pore (LList ["top"; "front"]) "union" = Ok n_some /\
    count Examples.labelled_net pore (LList ["top"; "front"]) "none" = Ok n_none /\
    (n_some + n_none = 4)%Z.
Proof.
  destruct (@union_and_none_partition Examples.labelled_net pore 4
              ["top"; "front"])
    as (a & b & n1 & n2 & _ & _ & H1 & H2 & _ & _ & H3).
  - eexists. split; reflexivity.
  - repeat constructor; eexists; split; reflexivity.
  - exists n1, n2. auto.
Defined.

Lemma not_intersection_mask_eq self e N L :
  defined_label self e N "all" ->
  Forall (defined_label self e N) L ->
  _get_indices self e L false "not_intersection" =
    Ok (Mask (map (fun i => (carried self e L i =? 1)%Z) (seq 0 N))).
Proof.
  intros Hall Hdef.
  destruct (not_intersection_mask Hall Hdef) as (mask & Hm & _ & Hlen & Hnth).
  rewrite Hm. do 2 f_equal.
  apply RunInvariants.nth_error_ext.
  - rewrite length_map, length_seq. exact Hlen.
  - intros i x Hx.
    assert (Hi : i < N) by (rewrite <- Hlen; apply nth_error_Some; congruence).
    rewrite nth_error_map, nth_error_seq.
    destruct (Nat.ltb_spec i N) as [_|]; [|lia]. cbn.
    rewrite (Hnth i Hi) in Hx. exact Hx.
Qed.

(** X15.  For two different labels, the count of mode 'union' is the
    count of mode 'not_intersection' plus the count of mode
    'intersection': an element with one of the two labels has exactly
    one of them or both. *)
Theorem union_count_of_two_labels
  (self : t) (e : element) (N : nat) (a b : string) :
  a <> b ->
  defined_label self e N "all" ->
  defined_label self e N a ->
  defined_label self e N b ->
  exists n_any n_one n_both,
    count self e (LList [a; b]) "union" = Ok n_any /\
    count self e (LList [a; b]) "not_intersection" = Ok n_one /\
    count self e (LList [a; b]) "intersection" = Ok n_both /\
    (n_any = n_one + n_both)%Z.
Proof.
  intros Hab Hall Ha Hb.
  assert (Hdef : Forall (defined_label self e N) [a; b])
    by (repeat constructor; assumption).
  pose proof (union_mask Hall Hdef) as Hu.
  pose proof (not_intersection_mask_eq Hall Hdef) as Hx.
  pose proof (intersection_mask Hall Hdef) as Hi.
  do 3 eexists.
  split; [apply (count_of_mask _ _ _ _ Hu)|].
  split; [apply (count_of_mask _ _ _ _ Hx)|].
  split; [apply (count_of_mask _ _ _ _ Hi)|].
  apply sum_bool_split. intros i _. cbn [existsb forallb carried].
  destruct (carriesb self e a i), (carriesb self e b i); cbn; auto.
Qed.

Lemma union_count_of_two_labels_witness :
  exists n_any n_one n_both,
    count Examples.labelled_net pore (LList ["top"; "front"]) "union" = Ok n_any /\
    count Examples.labelled_net pore (LList ["top"; "front"]) "not_intersection"
      = Ok n_one /\
    count Examples.labelled_net pore (LList ["top"; "front"]) "intersection"
      = Ok n_both /\
    (n_any = n_one + n_both)%Z.
Proof.
  apply (@union_count_of_two_labels Examples.labelled_net pore 4 "top" "front").
  - discriminate.
  - eexists. split; reflexivity.
  - eexists. split; reflexivity.
  - eexists. split; reflexivity.
Defined.

(** ** A label that is not defined *)

Lemma over_labels_raises {A} self e (step : A -> list bool -> result A)
  L1 l L2 acc acc1 :
  over_labels self e step L1 acc = Ok acc1 ->
  dict_get (info_of self e) l = None ->
  over_labels self e step (L1 ++ l :: L2) acc = Raise (KeyError l).
Proof.
  intros H Hl. revert acc H. induction L1 as [|x L1 IH]; intros acc H.
  - cbn. unfold _get_info, dict_item. rewrite Hl. reflexivity.
  - cbn in *. destruct (_get_info self e x) as [info|]; [|discriminate].
    cbn in *. destruct (step acc info) as [acc'|]; [|discriminate].
    cbn in *. apply IH, H.
Qed.

(** X16.  In each of the four modes, a query whose list of labels has a
    label that is not defined raises the [KeyError] of the first such
    label, whether a mask, the indices or the count is asked for. *)
Theorem query_raises_on_undefined_label
  (self : t) (e : element) (N : nat) (L1 : list string) (l : string)
  (L2 : list string) (return_indices : bool) (mode : string) :
  In mode ["union"; "intersection"; "not_intersection"; "none"] ->
  defined_label self e N "all" ->
  Forall (defined_label self e N) L1 ->
  dict_get (info_of self e) l = None ->
  query self e (LList (L1 ++ l :: L2)) return_indices mode
    = Raise (KeyError l) /\
  count self e (LList (L1 ++ l :: L2)) mode = Raise (KeyError l).
Proof.
  intros Hmode (all & Hall & Halen) Hdef Hl.
  assert (H : _get_indices self e (L1 ++ l :: L2) return_indices mode
              = Raise (KeyError l) /\
              _get_indices self e (L1 ++ l :: L2) false mode
              = Raise (KeyError l)).
  { unfold _get_indices.
    destruct Hmode as [<-|[<-|[<-|[<-|[]]]]];
      cbn [String.eqb Ascii.eqb Bool.eqb];
      unfold _get_info at 1 2, dict_item; rewrite Hall; cbn [rbind].
    - destruct (@fold_labels self e N orb L1 (map (fun _ => false) all))
        as (acc & Hacc & _); [rewrite length_map; exact Halen | exact Hdef |].
      rewrite (@over_labels_raises _ _ _ _ _ _ L2 _ _ Hacc Hl). auto.
    - destruct (@fold_labels self e N andb L1 (map (fun _ => true) all))
        as (acc & Hacc & _); [rewrite length_map; exact Halen | exact Hdef |].
      rewrite (@over_labels_raises _ _ _ _ _ _ L2 _ _ Hacc Hl). auto.
    - destruct (@count_labels self e N L1 (map (fun _ => 0%Z) all))
        as (acc & Hacc & _); [rewrite length_map; exact Halen | exact Hdef |].
      rewrite (@over_labels_raises _ _ _ _ _ _ L2 _ _ Hacc Hl). auto.
    - destruct (@subtract_labels self e N L1 (map (fun _ => 0%Z) all))
        as (acc & Hacc & _); [rewrite length_map; exact Halen | exact Hdef |].
      rewrite (@over_labels_raises _ _ _ _ _ _ L2 _ _ Hacc Hl). auto. }
  destruct H as (H1 & H2).
  destruct e; unfold query, count, num_pores, num_throats, get_pore_indices,
    get_throat_indices, pores, throats; cbn [as_list];
    rewrite H1, H2; auto.
Qed.

Lemma query_raises_on_undefined_label_witness :
  query Examples.labelled_net pore (LList (["top"] ++ "bottom" :: ["front"]))
        true "intersection" = Raise (KeyError "bottom") /\
  count Examples.labelled_net pore (LList (["top"] ++ "bottom" :: ["front"]))
        "intersection" = Raise (KeyError "bottom").
Proof.
  apply (@query_raises_on_undefined_label Examples.labelled_net pore 4
           ["top"] "bottom" ["front"] true "intersection").
  - cbn. auto.
  - eexists. split; reflexivity.
  - repeat constructor; eexists; split; reflexivity.
  - reflexivity.
Defined.

End QueryModes.




(* ================================================================== *)
(** * [Tools]: [get_info] and the labels of given locations            *)
(* ================================================================== *)

Module LabelFacts.

Import Np Tools ToolsFacts QueryModes Labels.
Local Open Scope py_scope.

(** ** Indexing *)

Lemma compress_map {A} (f : A -> bool) l : compress l (map f l) = filter f l.
Proof.
  induction l as [|x l IH]; cbn; [reflexivity|].
  destruct (f x); rewrite IH; reflexivity.
Qed.

Lemma take_in_range {A} (a : list A) idx d :
  Forall (fun k => k < length a) idx ->
  take a idx = Ok (map (fun k => nth k a d) idx).
Proof.
  unfold take. induction 1 as [|k idx Hk _ IH]; cbn; [reflexivity|].
  destruct (nth_error a k) as [x|] eqn:E;
    [|apply nth_error_None in E; lia].
  rewrite IH. rewrite (nth_error_nth _ _ d E). reflexivity.
Qed.

Lemma take_out_of_range {A} (a : list A) idx :
  Exists (fun k => length a <= k) idx ->
  take a idx = Raise (IndexError "index is out of bounds").
Proof.
  unfold take. induction 1 as [k idx Hk|k idx _ IH]; cbn.
  - apply nth_error_None in Hk. rewrite Hk. reflexivity.
  - destruct (nth_error a k); [|reflexivity]. rewrite IH. reflexivity.
Qed.

Lemma filter_all {A} (f : A -> bool) l :
  (forall x, In x l -> f x = true) -> filter f l = l.
Proof.
  induction l as [|x l IH]; cbn; intros H; [reflexivity|].
  rewrite (H x (or_introl eq_refl)). f_equal. apply IH. auto.
Qed.

Lemma existsb_eqb i P : existsb (Nat.eqb i) P = true <-> In i P.
Proof.
  rewrite existsb_exists. split.
  - intros (x & Hx & E). apply Nat.eqb_eq in E. subst. exact Hx.
  - intros H. exists i. split; [exact H | apply Nat.eqb_refl].
Qed.

(** X17.  [get_info] with a list of pores answers for these pores only
    (the throats are not looked at): with [return_indices] the pores of
    the list that carry the label, in ascending order; without, the
    value of the label at each pore of the list, and an [IndexError]
    when a pore of the list is past the end of the label's array. *)
Theorem get_info_of_given_pores
  (self : t) (label : string) (P : list nat) (throats : Locations)
  (m : list bool) :
  P <> [] ->
  dict_get (_pore_info self) label = Some m ->
  (exists idx,
     get_info self label (At P) throats true = Ok (Some (Indices idx)) /\
     idx = filter (fun i => existsb (Nat.eqb i) P) (where_true m) /\
     forall i, In i idx <-> In i P /\ carries self pore label i) /\
  (Forall (fun k => k < length m) P ->
   get_info self label (At P) throats false
     = Ok (Some (Mask (map (fun k => nth k m false) P)))) /\
  (Exists (fun k => length m <= k) P ->
   get_info self label (At P) throats false
     = Raise (IndexError "index is out of bounds")).
Proof.
  intros HP Hm.
  assert (Hg : given (At P) = true) by (destruct P; [contradiction | reflexivity]).
  unfold get_info, get_info_of. rewrite Hg. cbn [rbind info_of].
  unfold dict_item. rewrite Hm. cbn [rbind].
  split; [|split].
  - eexists. split; [reflexivity|]. unfold in1d. rewrite compress_map.
    split; [reflexivity|].
    intros i. rewrite filter_In, where_true_In, existsb_eqb.
    unfold carries. cbn [info_of]. rewrite Hm. split.
    + intros [H1 H2]. split; [exact H2|]. exists m. auto.
    + intros [H1 (m' & E & H2)]. injection E as <-. auto.
  - intros H. rewrite (@take_in_range _ m P false H). reflexivity.
  - intros H. rewrite (@take_out_of_range _ m P H). reflexivity.
Qed.

Lemma get_info_of_given_pores_witness :
  exists idx,
    get_info Examples.labelled_net "top" (At [1; 2; 3]) All true
      = Ok (Some (Indices idx)) /\
    forall i, In i idx <->
              In i [1; 2; 3] /\ carries Examples.labelled_net pore "top" i.
Proof.
  destruct (@get_info_of_given_pores Examples.labelled_net "top" [1; 2; 3] All
              [true; true; false; false])
    as ((idx & H1 & _ & H2) & _).
  - discriminate.
  - reflexivity.
  - exists idx. split; assumption.
Defined.

Lemma single_label_mask self e N l m :
  dict_get (info_of self e) l = Some m -> length m = N ->
  map (fun i => existsb (fun l' => carriesb self e l' i) [l]) (seq 0 N) = m.
Proof.
  intros Hm Hl. apply RunInvariants.nth_error_ext.
  - rewrite length_map, length_seq. auto.
  - intros i x. rewrite nth_error_map, nth_error_seq.
    destruct (Nat.ltb_spec i N) as [Hi|]; cbn; [|discriminate].
    rewrite orb_false_r. unfold carriesb. rewrite Hm.
    intros H. injection H as <-.
    apply nth_error_nth'. lia.
Qed.

(** X18.  On a network whose label 'all' holds for every pore,
    [get_info] asked for the pores 'all' (with indices) returns what
    [pores] returns for the label: the ascending indices of the pores
    that carry it. *)
Theorem get_info_all_agrees_with_pores
  (self : t) (label : string) (N : nat) (throats : Locations)
  (m : list bool) :
  dict_get (_pore_info self) "all" = Some (repeat true N) ->
  dict_get (_pore_info self) label = Some m ->
  length m = N ->
  get_info self label All throats true = Ok (Some (Indices (where_true m))) /\
  pores self (LStr label) true "union" = Ok (Indices (where_true m)).
Proof.
  intros Hall Hm Hl.
  assert (Dall : defined_label self pore N "all")
    by (exists (repeat true N); split; [exact Hall | apply repeat_length]).
  assert (Dl : defined_label self pore N label) by (exists m; auto).
  assert (Qall : query self pore (LStr "all") true "union"
                 = Ok (Indices (where_true (repeat true N)))).
  { pose proof (@union_mask self pore N ["all"] Dall
                  (Forall_cons _ Dall (Forall_nil _))) as Hu.
    rewrite (@single_label_mask self pore N "all" (repeat true N) Hall
               (repeat_length _ _)) in Hu.
    destruct (query_forms _ _ _ _ Hu) as (_ & Q & _). exact Q. }
  assert (Ql : query self pore (LStr label) true "union"
               = Ok (Indices (where_true m))).
  { pose proof (@union_mask self pore N [label] Dall
                  (Forall_cons _ Dl (Forall_nil _))) as Hu.
    rewrite (@single_label_mask self pore N label m Hm Hl) in Hu.
    destruct (query_forms _ _ _ _ Hu) as (_ & Q & _). exact Q. }
  split; [|exact Ql].
  unfold get_info, get_info_of. cbn [given]. rewrite Qall. cbn [rbind index_array info_of].
  unfold dict_item. rewrite Hm. cbn [rbind].
  unfold in1d. rewrite compress_map, filter_all; [reflexivity|].
  intros i Hi. apply existsb_eqb, where_true_In.
  apply where_true_In in Hi.
  assert (i < N) by (rewrite <- Hl; apply nth_error_Some; congruence).
  rewrite nth_error_repeat by assumption. reflexivity.
Qed.

Lemma get_info_all_agrees_with_pores_witness :
  get_info Examples.labelled_net "front" All All true
    = Ok (Some (Indices (where_true [false; true; true; false]))) /\
  pores Examples.labelled_net (LStr "front") true "union"
    = Ok (Indices (where_true [false; true; true; false])).
Proof.
  apply (@get_info_all_agrees_with_pores Examples.labelled_net "front" 4 All
           [false; true; true; false]); reflexivity.
Defined.

(** ** The labels of given locations *)

Lemma map_r_map {A B} (f : A -> result B) (g : A -> B) xs :
  (forall x, In x xs -> f x = Ok (g x)) -> map_r f xs = Ok (map g xs).
Proof.
  induction xs as [|x xs IH]; intros H; cbn; [reflexivity|].
  rewrite (H x (or_introl eq_refl)).
  rewrite IH by (intros y Hy; apply H; right; exact Hy). reflexivity.
Qed.

Lemma dict_keys_get {V} (d : dict V) k :
  In k (dict_keys d) <-> exists v, dict_get d k = Some v.
Proof.
  unfold dict_keys. induction d as [|[k' v'] d IH]; cbn.
  - split; [contradiction | intros (v & H); discriminate].
  - destruct (String.eqb_spec k k') as [->|Hne].
    + split; [eauto | auto].
    + rewrite <- IH. split; [intros [E|H]; [congruence | exact H] | auto].
Qed.

Lemma list_labels_In self e l :
  In l (list_labels self e) <-> exists m, dict_get (info_of self e) l = Some m.
Proof.
  unfold list_labels. rewrite <- dict_keys_get. split; intros H.
  - eapply Permutation_in; [symmetry; apply RelativePermeabilityFacts.py_sort_perm | exact H].
  - eapply Permutation_in; [apply RelativePermeabilityFacts.py_sort_perm | exact H].
Qed.

Section Columns.

Variables (self : t) (e : element) (N : nat) (locations : list nat).

Hypothesis every_label_on_N :
  forall l m, dict_get (info_of self e) l = Some m -> length m = N.

Hypothesis locations_in_range : Forall (fun i => i < N) locations.

(** The columns of the array: one per label, with the value of the label
    at each location. *)
Lemma columns :
  map_r (fun item => info <~ dict_item (info_of self e) item ;;
                     take info locations) (list_labels self e)
  = Ok (map (fun item => map (carriesb self e item) locations)
            (list_labels self e)).
Proof.
  apply map_r_map. intros l Hl.
  apply list_labels_In in Hl. destruct Hl as (m & Hm).
  unfold dict_item. rewrite Hm. cbn [rbind].
  rewrite (@take_in_range _ m locations false).
  - f_equal. apply map_ext. intros i. unfold carriesb. rewrite Hm. reflexivity.
  - rewrite (every_label_on_N _ Hm). exact locations_in_range.
Qed.

Lemma row_of_columns k loc :
  nth_error locations k = Some loc ->
  row (map (fun item => map (carriesb self e item) locations)
           (list_labels self e)) k
  = map (fun item => carriesb self e item loc) (list_labels self e).
Proof.
  intros Hk. unfold row. rewrite map_map. apply map_ext. intros l.
  apply nth_error_nth.
  rewrite nth_error_map, Hk. reflexivity.
Qed.

Lemma select_row_In k loc l :
  nth_error locations k = Some loc ->
  In l (select (list_labels self e)
               (row (map (fun item => map (carriesb self e item) locations)
                         (list_labels self e)) k))
  <-> carries self e l loc.
Proof.
  intros Hk. rewrite (row_of_columns _ Hk). unfold select.
  rewrite compress_map, filter_In, list_labels_In, carriesb_carries.
  split; [tauto|]. intros H. split; [|exact H].
  destruct H as (m & Hm & _). eauto.
Qed.

End Columns.

(** X19.  When every label array has [N] entries and the locations are
    below [N], [get_labels] (not flattened, in a mode other than 'raw')
    returns one list per location, holding exactly the labels that the
    location carries; so a label is listed for a pore exactly when
    [pores] returns the pore for the label. *)
Theorem get_labels_lists_carried_labels
  (self : t) (N : nat) (P throats : list nat) (mode : string) :
  (forall l m, dict_get (_pore_info self) l = Some m -> length m = N) ->
  Forall (fun i => i < N) P ->
  P <> [] ->
  mode <> "raw" ->
  exists per_location,
    get_labels self P throats mode false = Ok (Lists per_location) /\
    length per_location = length P /\
    forall k loc names,
      nth_error P k = Some loc ->
      nth_error per_location k = Some names ->
      forall l, In l names <-> carries self pore l loc.
Proof.
  intros HN HP Hne Hmode.
  unfold get_labels. destruct P as [|p0 P']; [contradiction|].
  set (P := p0 :: P') in *.
  unfold _get_labels. cbv zeta.
  rewrite (@columns self pore N P HN HP). cbn [rbind].
  apply String.eqb_neq in Hmode. rewrite Hmode.
  eexists. split; [reflexivity|]. split.
  - rewrite !length_map, length_seq. reflexivity.
  - intros k loc names Hk Hn l.
    rewrite !nth_error_map, nth_error_seq in Hn.
    assert (Hlt : k < length P) by (apply nth_error_Some; congruence).
    destruct (Nat.ltb_spec k (length P)) as [_|]; [|lia].
    cbn in Hn. injection Hn as <-.
    apply (@select_row_In self pore P k loc l Hk).
Qed.

Lemma get_labels_lists_carried_labels_witness :
  exists per_location,
    get_labels Examples.labelled_net [1; 3] [] "union" false
      = Ok (Lists per_location) /\
    length per_location = 2.
Proof.
  destruct (@get_labels_lists_carried_labels Examples.labelled_net 4 [1; 3] []
              "union") as (pl & H1 & H2 & _).
  - intros l m. cbn.
    repeat (match goal with
            | |- context [String.eqb ?a ?b] => destruct (String.eqb a b)
            end; [intros H; injection H as <-; reflexivity|]).
    discriminate.
  - repeat constructor.
  - discriminate.
  - discriminate.
  - exists pl. split; assumption.
Defined.

Lemma sum_bool_bounds a : (0 <= sum_bool a <= Z.of_nat (length a))%Z.
Proof.
  induction a as [|b t IH]; [cbn; lia|].
  rewrite sum_bool_cons. cbn [length]. destruct b; lia.
Qed.

Lemma sum_bool_positive {A} (f : A -> bool) l :
  (0 <? sum_bool (map f l))%Z = existsb f l.
Proof.
  induction l as [|x l IH]; [reflexivity|].
  cbn [map existsb]. rewrite sum_bool_cons.
  pose proof (sum_bool_bounds (map f l)).
  destruct (f x); cbn [orb].
  - apply Z.ltb_lt. lia.
  - rewrite Z.add_0_l. exact IH.
Qed.

Lemma sum_bool_full {A} (f : A -> bool) l :
  (sum_bool (map f l) =? Z.of_nat (length l))%Z = forallb f l.
Proof.
  induction l as [|x l IH]; [reflexivity|].
  cbn [map forallb length]. rewrite sum_bool_cons.
  pose proof (sum_bool_bounds (map f l)) as Hb. rewrite length_map in Hb.
  destruct (f x); cbn [andb].
  - rewrite <- IH.
    destruct (Z.eqb_spec (sum_bool (map f l)) (Z.of_nat (length l)));
      [apply Z.eqb_eq | apply Z.eqb_neq]; lia.
  - apply Z.eqb_neq. lia.
Qed.

Lemma sum_bool_filter {A} (f : A -> bool) l :
  sum_bool (map f l) = Z.of_nat (length (filter f l)).
Proof.
  induction l as [|x l IH]; [reflexivity|].
  cbn [map filter]. rewrite sum_bool_cons, IH.
  destruct (f x); cbn [length]; lia.
Qed.

(** X20.  When every label array has [N] entries and the pores asked
    for are below [N], the flattened forms of [get_labels] answer as
    follows: mode 'union' names the labels carried by at least one of
    the pores, mode 'intersection' the labels carried by all of them,
    and mode 'count' gives for each pore the number of label names it
    carries. *)
Theorem get_labels_flattened
  (self : t) (N : nat) (P throats : list nat) :
  (forall l m, dict_get (_pore_info self) l = Some m -> length m = N) ->
  Forall (fun i => i < N) P ->
  P <> [] ->
  (exists names,
     get_labels self P throats "union" true = Ok (Names names) /\
     forall l, In l names <-> exists loc, In loc P /\ carries self pore l loc) /\
  (exists names,
     get_labels self P throats "intersection" true = Ok (Names names) /\
     forall l, In l names <-> forall loc, In loc P -> carries self pore l loc) /\
  (exists counts,
     get_labels self P throats "count" true = Ok (Counts counts) /\
     length counts = length P /\
     forall k loc,
       nth_error P k = Some loc ->
       nth_error counts k =
         Some (Z.of_nat (length (filter (fun l => carriesb self pore l loc)
                                        (list_pore_labels self))))).
Proof.
  intros HN HP Hne.
  unfold get_labels. destruct P as [|p0 P']; [contradiction|].
  set (P := p0 :: P') in *.
  unfold _get_labels. cbv zeta.
  rewrite (@columns self pore N P HN HP). cbn [rbind].
  cbn [String.eqb Ascii.eqb Bool.eqb].
  split; [|split].
  - eexists. split; [reflexivity|]. intros l.
    unfold select, column_sum. rewrite map_map.
    rewrite compress_map, filter_In, sum_bool_positive, list_labels_In.
    rewrite existsb_exists. split.
    + intros (_ & loc & H1 & H2). exists loc. split; [exact H1|].
      apply carriesb_carries, H2.
    + intros (loc & H1 & H2). split.
      * destruct H2 as (m & Hm & _). eauto.
      * exists loc. split; [exact H1 | apply carriesb_carries, H2].
  - eexists. split; [reflexivity|]. intros l.
    unfold select, column_sum. rewrite map_map.
    rewrite compress_map, filter_In, list_labels_In.
    rewrite sum_bool_full, forallb_forall. split.
    + intros (_ & H) loc Hloc. apply carriesb_carries, H, Hloc.
    + intros H. split.
      * destruct (H p0 (or_introl eq_refl)) as (m & Hm & _). eauto.
      * intros loc Hloc. apply carriesb_carries, H, Hloc.
  - eexists. split; [reflexivity|]. split.
    + rewrite !length_map, length_seq. reflexivity.
    + intros k loc Hk.
      assert (Hlt : k < length P) by (apply nth_error_Some; congruence).
      rewrite !nth_error_map, nth_error_seq.
      destruct (Nat.ltb_spec k (length P)) as [_|]; [|lia].
      cbn [option_map]. rewrite Nat.add_0_l.
      rewrite (@row_of_columns self pore P k loc Hk).
      rewrite sum_bool_filter. reflexivity.
Qed.

Lemma get_labels_flattened_witness :
  exists names,
    get_labels Examples.labelled_net [1; 3] [] "union" true = Ok (Names names) /\
    forall l, In l names <->
              exists loc, In loc [1; 3] /\
                          carries Examples.labelled_net pore l loc.
Proof.
  destruct (@get_labels_flattened Examples.labelled_net 4 [1; 3] [])
    as ((names & H1 & H2) & _).
  - intros l m. cbn.
    repeat (match goal with
            | |- context [String.eqb ?a ?b] => destruct (String.eqb a b)
            end; [intros H; injection H as <-; reflexivity|]).
    discriminate.
  - repeat constructor.
  - discriminate.
  - exists names. split; assumption.
Defined.

End LabelFacts.



(* ================================================================== *)
(** * [RelativePermeability.setup]: what a successful call leaves      *)
(* ================================================================== *)

Module SetupInvariants.

Import Np RelativePermeability RelativePermeabilityFacts.
Local Open Scope py_scope.

(** ** Flow solves and purges *)

Lemma unpurged_app l1 l2 :
  unpurged (l1 ++ l2) = (unpurged l1 + unpurged l2)%Z.
Proof.
  unfold unpurged. induction l1 as [|ev l1 IH]; cbn [app fold_right];
    [reflexivity|].
  rewrite IH. destruct ev; lia.
Qed.

Lemma shifts_ret {A} (a : A) : shifts 0 (ret a).
Proof. intros w b w' H. inversion H; subst. lia. Qed.

Lemma shifts_raise {A} e : shifts 0 (@raise state A e).
Proof. intros w b w' H. discriminate. Qed.

Lemma shifts_lift {A} (x : result A) : shifts 0 (lift x).
Proof. intros w b w' H. inversion H; subst. lia. Qed.

Lemma shifts_update f : shifts 0 (update_self f).
Proof. intros w b w' H. inversion H; subst. cbn [log]. lia. Qed.

Lemma shifts_emit e : shifts (unpurged [e]) (emit e).
Proof. intros w b w' H. inversion H; subst. cbn [log]. apply unpurged_app. Qed.

Lemma shifts_bind {A B} n1 n2 n (m : M state A) (k : A -> M state B) :
  shifts n1 m -> (forall a, shifts n2 (k a)) -> n = (n1 + n2)%Z ->
  shifts n (bind m k).
Proof.
  intros Hm Hk -> w b w' H. unfold bind in H.
  destruct (m w) as [[a|e] w1] eqn:E; [|discriminate].
  rewrite (Hk a _ _ _ H), (Hm _ _ _ E). lia.
Qed.

Lemma shifts_then {A B} (m : M state A) (k : A -> M state B) :
  shifts 0 m -> (forall a, shifts 0 (k a)) -> shifts 0 (bind m k).
Proof. intros Hm Hk. eapply shifts_bind; [exact Hm | exact Hk | reflexivity]. Qed.

Lemma shifts_get {B} n (k : state -> M state B) :
  (forall w0, shifts n (k w0)) -> shifts n (bind get k).
Proof. intros Hk w b w' H. unfold bind, get in H. apply (Hk w _ _ _ H). Qed.

Lemma shifts_for_each {A} (xs : list A) body :
  (forall x, shifts 0 (body x)) -> shifts 0 (for_each xs body).
Proof.
  intros Hb. induction xs as [|x xs IH]; cbn [for_each].
  - apply shifts_ret.
  - apply shifts_then; [apply Hb | intros _; exact IH].
Qed.

Lemma shifts_fold {A B} (xs : list A) (body : B -> A -> M state B) acc :
  (forall acc x, shifts 0 (body acc x)) -> shifts 0 (fold_m xs body acc).
Proof.
  intros Hb. revert acc. induction xs as [|x xs IH]; intros acc; cbn [fold_m].
  - apply shifts_ret.
  - apply shifts_then; [apply Hb | intros acc'; apply IH].
Qed.

Ltac balanced :=
  repeat first
    [ apply shifts_ret
    | apply shifts_raise
    | apply shifts_lift
    | apply shifts_update
    | apply shifts_get; intros ?
    | apply shifts_then; [|intros ?]
    | apply shifts_for_each; intros ?
    | match goal with
      | |- shifts _ (if ?b then _ else _) => destruct b
      | |- shifts _ (match ?x with _ => _ end) => destruct x
      end ].

Section Orchestrator.

Context {collab : Collaborators}.

Lemma shifts_register_pair pair : shifts 0 (register_pair pair).
Proof. unfold register_pair. balanced. Qed.

(** A single-phase solve is purged before the next one starts. *)
Lemma shifts_baseline_solve which v store Fi Fo dim :
  shifts 0 (baseline_solve which v store Fi Fo dim).
Proof.
  unfold baseline_solve.
  apply shifts_get; intros w0.
  apply shifts_then; [apply shifts_lift | intros ph].
  apply shifts_then; [apply shifts_lift | intros bp1].
  apply shifts_then; [apply shifts_lift | intros bp2].
  apply (@shifts_bind _ _ 1 (-1));
    [apply (@shifts_emit (FlowSolve _ _ _)) | intros _ | reflexivity].
  apply (@shifts_bind _ _ 0 (-1)); [apply shifts_lift | intros inlets | reflexivity].
  apply (@shifts_bind _ _ 0 (-1)); [apply shifts_lift | intros outlets | reflexivity].
  apply (@shifts_bind _ _ 0 (-1)); [apply shifts_update | intros _ | reflexivity].
  apply (@shifts_emit (Purge (name ph))).
Qed.

Lemma shifts_baseline Fi Fo dim : shifts 0 (baseline Fi Fo dim).
Proof.
  unfold baseline.
  apply shifts_then; [apply shifts_baseline_solve | intros _].
  apply shifts_baseline_solve.
Qed.

(** The two conduit solves of a saturation point are both purged. *)
Lemma shifts_solve_point flow Fi Fo res1 Snw c :
  shifts 0 (solve_point flow Fi Fo res1 Snw c).
Proof.
  unfold solve_point.
  apply shifts_get; intros w0.
  apply shifts_then; [apply shifts_lift | intros oil_ph].
  apply shifts_then; [apply shifts_lift | intros water_ph].
  apply shifts_then; [apply shifts_update | intros _].
  apply shifts_then; [apply shifts_update | intros _].
  apply shifts_then; [apply shifts_lift | intros bp1].
  apply shifts_then; [apply shifts_lift | intros bp2].
  apply (@shifts_bind _ _ 1 (-1));
    [apply (@shifts_emit (FlowSolve _ _ _)) | intros _ | reflexivity].
  apply (@shifts_bind _ _ 1 (-2));
    [apply (@shifts_emit (FlowSolve _ _ _)) | intros _ | reflexivity].
  apply (@shifts_bind _ _ 0 (-2)); [apply shifts_lift | intros inlets | reflexivity].
  apply (@shifts_bind _ _ 0 (-2)); [apply shifts_lift | intros outlets | reflexivity].
  apply (@shifts_bind _ _ 0 (-2)); [apply shifts_lift | intros k_wp | reflexivity].
  apply (@shifts_bind _ _ 0 (-2)); [apply shifts_lift | intros k_nwp | reflexivity].
  apply (@shifts_bind _ _ (-1) (-1));
    [apply (@shifts_emit (Purge _)) | intros _ | reflexivity].
  apply (@shifts_bind _ _ (-1) 0);
    [apply (@shifts_emit (Purge _)) | intros _ | reflexivity].
  apply shifts_ret.
Qed.

Lemma shifts_saturation_point pair flow Fi Fo inv c Snw :
  shifts 0 (saturation_point pair flow Fi Fo inv c Snw).
Proof.
  unfold saturation_point, store_curves.
  apply shifts_then.
  - destruct (any_nonzero _); [apply shifts_solve_point | apply shifts_ret].
  - intros c'. balanced.
Qed.

Lemma shifts_axis_pair Sarr Ii Fi Fo inv pair :
  shifts 0 (axis_pair Sarr Ii Fi Fo inv pair).
Proof.
  unfold axis_pair.
  apply shifts_then; [apply shifts_lift | intros invasion_dim].
  apply shifts_then; [apply shifts_lift | intros flow].
  apply shifts_then; [apply shifts_lift | intros inlets].
  apply shifts_then; [apply (@shifts_emit (InvasionRun pair)) | intros _].
  apply shifts_then; [|intros _; apply shifts_ret].
  apply shifts_fold. intros acc x. apply shifts_saturation_point.
Qed.

Lemma shifts_setup_ip_algs : shifts 0 setup_ip_algs.
Proof.
  unfold setup_ip_algs.
  apply shifts_then; [apply shifts_update | intros _].
  apply shifts_then; [apply shifts_update | intros _].
  apply shifts_get; intros w0.
  apply shifts_then; [apply shifts_for_each; intros dim; apply shifts_baseline
                     | intros _].
  apply shifts_then; [apply shifts_lift | intros Sarr].
  apply shifts_get; intros w1.
  destruct (input_vect (self w1)); [|apply shifts_raise].
  apply shifts_then; [|intros _; apply shifts_ret].
  apply shifts_fold. intros acc x. apply shifts_axis_pair.
Qed.

Lemma shifts_setup l0 : shifts 0 (setup l0).
Proof.
  unfold setup.
  apply shifts_then.
  { intros w b w' H. inversion H; subst. cbn [log]. lia. }
  intros _.
  apply shifts_then; [apply shifts_update | intros _].
  apply shifts_get; intros w0.
  apply shifts_then; [apply shifts_for_each; intros p; apply shifts_register_pair
                     | intros _].
  apply shifts_setup_ip_algs.
Qed.

End Orchestrator.

(** The toy network is set up without an exception. *)
Lemma toy_setup_returns :
  exists w',
    setup (collab := Examples.toy) 0 (Examples.orchestrator ["yx"; "xx"])
      = (Ok tt, w').
Proof.
  apply setup_returns.
  - repeat constructor; do 2 eexists;
      (split; [reflexivity|]); (split; [reflexivity|]);
      unfold axis; auto.
  - intros k [v Hv]. discriminate.
Qed.

(** X21.  When [setup] returns, every flow solve it has run has been
    purged from the project again: the number of solves that are still
    unpurged is what it was before the call (none, for an orchestrator
    that had made no call yet). *)
Theorem setup_purges_every_solver
  (collab : Collaborators) (l0 : loc) (w w' : state) :
  setup l0 w = (Ok tt, w') ->
  unpurged (log w') = unpurged (log w) /\
  (log w = [] -> unpurged (log w') = 0%Z).
Proof.
  intros H. pose proof (@shifts_setup _ l0 _ _ _ H) as E.
  rewrite Z.add_0_r in E.
  split; [exact E|]. intros Hl. rewrite E, Hl. reflexivity.
Qed.

Lemma setup_purges_every_solver_witness :
  exists w',
    setup (collab := Examples.toy) 0 (Examples.orchestrator ["yx"; "xx"])
      = (Ok tt, w') /\
    unpurged (log w') = 0%Z.
Proof.
  destruct toy_setup_returns as (w' & H).
  exists w'. split; [exact H|].
  destruct (@setup_purges_every_solver Examples.toy 0 _ _ H) as (_ & H0).
  apply H0. reflexivity.
Defined.

(** ** Properties of the settings that the steps keep *)

Lemma keeps_ret {A} I (a : A) : keeps I (ret a).
Proof. intros w b w' H HI. inversion H; subst. exact HI. Qed.

Lemma keeps_raise {A} I e : keeps I (@raise state A e).
Proof. intros w b w' H. discriminate. Qed.

Lemma keeps_lift {A} I (x : result A) : keeps I (lift x).
Proof. intros w b w' H HI. inversion H; subst. exact HI. Qed.

Lemma keeps_emit I e : keeps I (emit e).
Proof. intros w b w' H HI. inversion H; subst. exact HI. Qed.

Lemma keeps_update (I : t -> Prop) f :
  (forall o, I o -> I (f o)) -> keeps I (update_self f).
Proof. intros Hf w b w' H HI. inversion H; subst. cbn [self]. apply Hf, HI. Qed.

Lemma keeps_bind {A B} I (m : M state A) (k : A -> M state B) :
  keeps I m -> (forall a, keeps I (k a)) -> keeps I (bind m k).
Proof.
  intros Hm Hk w b w' H HI. unfold bind in H.
  destruct (m w) as [[a|e] w1] eqn:E; [|discriminate].
  eapply Hk; [exact H|]. eapply Hm; eassumption.
Qed.

Lemma keeps_get {B} I (k : state -> M state B) :
  (forall w0, keeps I (k w0)) -> keeps I (bind get k).
Proof. intros Hk w b w' H. unfold bind, get in H. apply (Hk w _ _ _ H). Qed.

Lemma keeps_for_each {A} I (xs : list A) body :
  (forall x, keeps I (body x)) -> keeps I (for_each xs body).
Proof.
  intros Hb. induction xs as [|x xs IH]; cbn [for_each].
  - apply keeps_ret.
  - apply keeps_bind; [apply Hb | intros _; exact IH].
Qed.

Lemma keeps_fold {A B} I (xs : list A) (body : B -> A -> M state B) acc :
  (forall acc x, keeps I (body acc x)) -> keeps I (fold_m xs body acc).
Proof.
  intros Hb. revert acc. induction xs as [|x xs IH]; intros acc; cbn [fold_m].
  - apply keeps_ret.
  - apply keeps_bind; [apply Hb | intros acc'; apply IH].
Qed.

(** The steps of a proof that a property is kept; what is left are the
    updates of the settings. *)
Ltac kept :=
  repeat first
    [ apply keeps_ret
    | apply keeps_raise
    | apply keeps_lift
    | apply keeps_emit
    | apply keeps_get; intros ?
    | apply keeps_bind; [|intros ?]
    | apply keeps_for_each; intros ?
    | match goal with
      | |- keeps _ (if ?b then _ else _) => destruct b
      | |- keeps _ (match ?x with _ => _ end) => destruct x
      end ].

Section Phases.

Context {collab : Collaborators}.

(** ** The occupancies of the two phases *)

Lemma complementary_perm (f : t -> t) :
  (forall o, wp (f o) = wp o /\ nwp (f o) = nwp o) ->
  forall o, complementary o -> complementary (f o).
Proof.
  intros Hf o (pw & pn & H). destruct (Hf o) as (E1 & E2).
  exists pw, pn. rewrite E1, E2. exact H.
Qed.

Lemma keeps_complementary_baseline Fi Fo dim :
  keeps complementary (baseline Fi Fo dim).
Proof.
  unfold baseline, baseline_solve. kept;
    apply keeps_update, complementary_perm; intros o; split; reflexivity.
Qed.

Lemma keeps_complementary_solve_point flow Fi Fo res1 Snw c :
  keeps complementary (solve_point flow Fi Fo res1 Snw c).
Proof.
  intros w c' w' H (pw & pn & Ew & En & Nw & Nn & _).
  revert H.
  unfold solve_point, bind, get, lift, the_phase, update_self, modify, emit, ret.
  rewrite En, Ew. cbn [self BP_1 BP_2 perm_wp perm_nwp set_wp set_nwp].
  destruct (dict_item (BP_1 (self w)) flow); [|discriminate].
  destruct (dict_item (BP_2 (self w)) flow); [|discriminate].
  destruct (dict_item Fi flow); [|discriminate].
  destruct (dict_item Fo flow); [|discriminate].
  destruct (dict_item (perm_wp (self w)) flow); [|discriminate].
  destruct (dict_item (perm_nwp (self w)) flow); [|discriminate].
  intros H. inversion H; subst w'. cbn [self].
  eexists. eexists. cbn.
  split; [reflexivity|]. split; [reflexivity|]. auto.
Qed.

Lemma keeps_complementary_saturation_point pair flow Fi Fo inv c Snw :
  keeps complementary (saturation_point pair flow Fi Fo inv c Snw).
Proof.
  unfold saturation_point, store_curves.
  apply keeps_bind.
  - destruct (any_nonzero _);
      [apply keeps_complementary_solve_point | apply keeps_ret].
  - intros c'. kept;
      apply keeps_update, complementary_perm; intros o; split; reflexivity.
Qed.

Lemma keeps_complementary_axis_pair Sarr Ii Fi Fo inv pair :
  keeps complementary (axis_pair Sarr Ii Fi Fo inv pair).
Proof.
  unfold axis_pair. kept.
  apply keeps_fold. intros acc x. apply keeps_complementary_saturation_point.
Qed.

End Phases.

(** X22.  When [setup] returns, the settings hold the two phases, water
    as wetting and oil as non-wetting phase, and they are complementary:
    the pore and throat occupancies of water are one minus those of oil
    (both are unset when no saturation point was solved), and both
    carry the conduit model in the same mode. *)
Theorem setup_leaves_complementary_phases
  (collab : Collaborators) (l0 : loc) (w w' : state) :
  setup l0 w = (Ok tt, w') ->
  complementary (self w').
Proof.
  intros H. rewrite setup_after_sort in H.
  apply OrdinaryPercolationFacts.bind_ok in H. destruct H as ([] & w1 & _ & H).
  rewrite setup_ip_algs_phases in H.
  match type of H with
  | ?m ?s = _ => assert (K : keeps complementary m)
  end.
  { apply keeps_bind.
    - apply keeps_for_each. intros dim. apply keeps_complementary_baseline.
    - intros _. apply keeps_bind; [apply keeps_lift | intros Sarr].
      apply keeps_get; intros w2.
      destruct (input_vect (self w2)); [|apply keeps_raise].
      apply keeps_bind; [|intros _; apply keeps_ret].
      apply keeps_fold. intros acc x. apply keeps_complementary_axis_pair. }
  apply (K _ _ _ H).
  unfold with_phases. cbn [self].
  exists (new_phase water), (new_phase oil). cbn. auto 10.
Qed.

Lemma setup_leaves_complementary_phases_witness :
  exists w',
    setup (collab := Examples.toy) 0 (Examples.orchestrator ["yx"; "xx"])
      = (Ok tt, w') /\
    complementary (self w').
Proof.
  destruct toy_setup_returns as (w' & H).
  exists w'. split; [exact H|].
  exact (@setup_leaves_complementary_phases Examples.toy 0 _ _ H).
Defined.

(** ** A list with a malformed axis pair *)

Lemma inlet_dict_axis k v : dict_item inlet_dict k = Ok v -> axis k.
Proof.
  unfold dict_item, inlet_dict, axis. cbn [dict_get].
  destruct (String.eqb_spec k "x"); [auto|].
  destruct (String.eqb_spec k "y"); [auto|].
  destruct (String.eqb_spec k "z"); [auto|].
  discriminate.
Qed.

Section Registration.

Context {collab : Collaborators}.

Lemma register_pair_quiet p w r w' :
  register_pair p w = (r, w') -> log w' = log w /\ lists w' = lists w.
Proof.
  unfold register_pair, bind, lift, update_self, modify.
  destruct (char_at p 0) as [a|]; [|intros H; inversion H; auto].
  destruct (char_at p 1) as [b|]; [|intros H; inversion H; auto].
  destruct (dict_item inlet_dict b); [|intros H; inversion H; auto].
  cbn. destruct (dict_item outlet_dict b); [|intros H; inversion H; auto].
  cbn. destruct (dict_item inlet_dict a); [|intros H; inversion H; auto].
  cbn. intros H; inversion H; auto.
Qed.

Lemma register_pair_axis p w w' :
  register_pair p w = (Ok tt, w') -> axis_pair_string p.
Proof.
  unfold register_pair, bind, lift, update_self, modify.
  destruct (char_at p 0) as [a|] eqn:Ea; [|discriminate].
  destruct (char_at p 1) as [b|] eqn:Eb; [|discriminate].
  destruct (dict_item inlet_dict b) eqn:Hb; [|discriminate].
  cbn. destruct (dict_item outlet_dict b); [|discriminate].
  cbn. destruct (dict_item inlet_dict a) eqn:Ha; [|discriminate].
  intros _. exists a, b.
  split; [exact Ea|]. split; [exact Eb|].
  split; eapply inlet_dict_axis; eassumption.
Qed.

Lemma registration_raises ps w :
  Exists (fun p => ~ axis_pair_string p) ps ->
  exists e w',
    for_each ps register_pair w = (Raise e, w') /\
    log w' = log w /\ lists w' = lists w.
Proof.
  revert w. induction ps as [|p ps IH]; intros w Hex.
  - inversion Hex.
  - cbn [for_each]. unfold bind.
    destruct (register_pair p w) as [[[]|e] w1] eqn:E.
    + destruct (register_pair_quiet _ _ E) as (L1 & L2).
      assert (Hrest : Exists (fun p => ~ axis_pair_string p) ps).
      { inversion Hex as [? ? Hbad|? ? Hrest]; subst; [|exact Hrest].
        exfalso. apply Hbad. eapply register_pair_axis, E. }
      destruct (IH w1 Hrest) as (e & w' & H & M1 & M2).
      exists e, w'. split; [exact H|]. split; congruence.
    + destruct (register_pair_quiet _ _ E) as (L1 & L2).
      exists e, w1. auto.
Qed.

End Registration.

(** X23.  When the list given to [setup] holds an entry that is not an
    axis pair (shorter than two characters, or with a character other
    than x, y, z among the first two), [setup] raises before any
    invasion is run or any flow is solved: the record of the calls is
    unchanged; the caller's list has been sorted all the same. *)
Theorem setup_raises_on_malformed_pair
  (collab : Collaborators) (l0 : loc) (w : state) :
  Exists (fun p => ~ axis_pair_string p) (lists w l0) ->
  exists e w',
    setup l0 w = (Raise e, w') /\
    log w' = log w /\
    lists w' l0 = py_sort (lists w l0).
Proof.
  intros Hex. rewrite setup_after_sort.
  destruct (after_sort_lists l0 w) as (Hs & _).
  assert (Hex' : Exists (fun p => ~ axis_pair_string p)
                        (lists (after_sort l0 w) l0)).
  { rewrite Hs. apply Exists_exists in Hex. destruct Hex as (p & Hp & Hbad).
    apply Exists_exists. exists p. split; [|exact Hbad].
    eapply Permutation_in; [apply py_sort_perm | exact Hp]. }
  destruct (registration_raises (after_sort l0 w) Hex')
    as (e & w' & H & L1 & L2).
  exists e, w'. unfold bind. rewrite H.
  split; [reflexivity|]. split; [rewrite L1; reflexivity|].
  rewrite L2. exact Hs.
Qed.

Lemma setup_raises_on_malformed_pair_witness :
  exists e w',
    setup (collab := Examples.toy) 0 (Examples.orchestrator ["xy"; "xw"; "x"])
      = (Raise e, w') /\
    log w' = [] /\
    lists w' 0 = ["x"; "xw"; "xy"].
Proof.
  apply (@setup_raises_on_malformed_pair Examples.toy 0
           (Examples.orchestrator ["xy"; "xw"; "x"])).
  apply Exists_cons_tl, Exists_cons_hd.
  intros (a & b & Ha & Hb & _ & [H|[H|H]]);
    cbn in Hb; injection Hb as <-; discriminate.
Defined.

(** ** The phases of a call of [setup] that returns *)

Section Curves.

Context {collab : Collaborators}.

Lemma setup_ok_phases l0 w w' :
  setup l0 w = (Ok tt, w') ->
  exists w1 w2 inv',
    for_each (py_sort (lists w l0)) register_pair (after_sort l0 w)
      = (Ok tt, w1) /\
    for_each (dict_keys (flow_inlets (self w1)))
             (baseline (pores_by_dim (flow_inlets (self w1)))
                       (pores_by_dim (flow_outlets (self w1))))
             (with_phases w1) = (Ok tt, w2) /\
    fold_m (py_sort (lists w l0))
           (axis_pair ten_saturations
              (subsample (pores_by_dim (inv_inlets (self w1))))
              (pores_by_dim (flow_inlets (self w1)))
              (pores_by_dim (flow_outlets (self w1))))
           new_invasion w2 = (Ok inv', w').
Proof.
  intros H. rewrite setup_after_sort in H.
  destruct (after_sort_lists l0 w) as (Hl0 & _). rewrite Hl0 in H.
  apply OrdinaryPercolationFacts.bind_ok in H. destruct H as ([] & w1 & E1 & H).
  destruct (@sweeps_for_each string _ register_pair sweeps_register_pair _ _ _ E1)
    as (L1 & I1 & _).
  rewrite setup_ip_algs_phases in H.
  apply OrdinaryPercolationFacts.bind_ok in H. destruct H as ([] & w2 & E2 & H).
  destruct (@sweeps_for_each string _ _
              (sweeps_baseline (pores_by_dim (flow_inlets (self w1)))
                               (pores_by_dim (flow_outlets (self w1))))
              _ _ _ E2)
    as (L2 & I2 & _).
  unfold bind at 1, lift in H. rewrite Sarr_values in H.
  unfold bind at 1, get in H.
  assert (Hiv : input_vect (self w2) = Some l0).
  { rewrite I2. unfold with_phases. cbn [self input_vect set_wp set_nwp].
    rewrite I1. reflexivity. }
  rewrite Hiv in H.
  assert (Hlist : lists w2 l0 = py_sort (lists w l0)).
  { rewrite L2. unfold with_phases. cbn [lists]. rewrite L1. exact Hl0. }
  rewrite Hlist in H.
  apply OrdinaryPercolationFacts.bind_ok in H. destruct H as (inv' & w3 & E3 & H).
  inversion H; subst w3.
  exists w1, w2, inv'. auto.
Qed.

(** ** The curves of an axis pair *)

Lemma curves_of_store pair c o :
  curves_of
    (set_sat (fun d => dict_set d pair (Snwparr c))
       (set_relperm_nwp (fun d => dict_set d pair (relperm_nwp_list c))
          (set_relperm_wp (fun d => dict_set d pair (relperm_wp_list c)) o)))
    pair = Some c /\
  forall q, q <> pair ->
    curves_of
      (set_sat (fun d => dict_set d pair (Snwparr c))
         (set_relperm_nwp (fun d => dict_set d pair (relperm_nwp_list c))
            (set_relperm_wp (fun d => dict_set d pair (relperm_wp_list c)) o)))
      q = curves_of o q.
Proof.
  unfold curves_of. cbn [relperm_wp relperm_nwp sat set_sat set_relperm_nwp
                         set_relperm_wp].
  split.
  - rewrite !dict_get_set_same. destruct c; reflexivity.
  - intros q Hq. rewrite !dict_get_set_other by exact Hq. reflexivity.
Qed.

(** One saturation: the lists grow by one entry each, or stay; they are
    stored under the axis pair, and nothing else is stored. *)
Lemma saturation_point_curves pair flow Fi Fo inv c Snw w c' w' :
  saturation_point pair flow Fi Fo inv c Snw w = (Ok c', w') ->
  (exists b : bool, Snwparr c' = Snwparr c ++ compress [Snw] [b]) /\
  (aligned c -> aligned c') /\
  curves_of (self w') pair = Some c' /\
  (forall q, q <> pair -> curves_of (self w') q = curves_of (self w) q).
Proof.
  unfold saturation_point.
  destruct (any_nonzero (res_throat_occupancy (invasion_results Snw inv))).
  - unfold solve_point, store_curves, bind, get, lift, update_self, modify,
      emit, ret.
    destruct (the_phase "nwp" (nwp (self w))); [|discriminate].
    destruct (the_phase "wp" (wp (self w))); [|discriminate].
    cbn [self BP_1 BP_2 perm_wp perm_nwp set_wp set_nwp].
    destruct (dict_item (BP_1 (self w)) flow); [|discriminate].
    destruct (dict_item (BP_2 (self w)) flow); [|discriminate].
    destruct (dict_item Fi flow); [|discriminate].
    destruct (dict_item Fo flow); [|discriminate].
    destruct (dict_item (perm_wp (self w)) flow); [|discriminate].
    destruct (dict_item (perm_nwp (self w)) flow); [|discriminate].
    intros H. inversion H; subst c' w'; clear H. cbn [self Snwparr].
    split; [exists true; reflexivity|]. split.
    + intros (A1 & A2). unfold aligned. cbn.
      rewrite !length_app, A1, A2. auto.
    + match goal with
      | |- curves_of (set_sat _ (set_relperm_nwp _ (set_relperm_wp _ ?o))) _
           = Some ?c /\ _ =>
          destruct (curves_of_store pair c o) as (S1 & S2)
      end.
      split; [exact S1|]. intros q Hq. exact (S2 q Hq).
  - unfold store_curves, bind, update_self, modify, ret.
    intros H. inversion H; subst c' w'; clear H. cbn [self].
    split; [exists false; cbn; rewrite app_nil_r; reflexivity|].
    split; [auto|].
    apply curves_of_store.
Qed.

Lemma saturation_sweep_curves pair flow Fi Fo inv Sarr c w c' w' :
  fold_m Sarr (saturation_point pair flow Fi Fo inv) c w = (Ok c', w') ->
  (exists keep, length keep = length Sarr /\
                Snwparr c' = Snwparr c ++ compress Sarr keep) /\
  (aligned c -> aligned c') /\
  (Sarr <> [] -> curves_of (self w') pair = Some c') /\
  (forall q, q <> pair -> curves_of (self w') q = curves_of (self w) q).
Proof.
  revert c w. induction Sarr as [|Snw rest IH]; intros c w H; cbn [fold_m] in H.
  - inversion H; subst. split; [exists []; cbn; rewrite app_nil_r; auto|].
    split; [auto|]. split; [intros Hne; contradiction | auto].
  - apply OrdinaryPercolationFacts.bind_ok in H. destruct H as (c1 & w1 & E1 & H).
    destruct (saturation_point_curves _ _ _ _ _ _ _ _ E1)
      as ((b & B1) & A1 & S1 & O1).
    destruct (IH _ _ H) as ((keep & K1 & K2) & A2 & S2 & O2).
    split; [|split; [auto|split]].
    + exists (b :: keep). split; [cbn; lia|].
      rewrite K2, B1, <- app_assoc. f_equal.
      destruct b; reflexivity.
    + intros _. destruct rest as [|x rest'].
      * cbn in H. inversion H; subst. exact S1.
      * apply S2. discriminate.
    + intros q Hq. rewrite (O2 q Hq). apply O1, Hq.
Qed.

Lemma axis_pair_curves Sarr Ii Fi Fo inv pair w inv' w' :
  Sarr <> [] ->
  axis_pair Sarr Ii Fi Fo inv pair w = (Ok inv', w') ->
  recorded_from Sarr (self w') pair /\
  (forall q, q <> pair -> curves_of (self w') q = curves_of (self w) q).
Proof.
  intros Hne H. unfold axis_pair in H.
  apply OrdinaryPercolationFacts.bind_ok in H. destruct H as (a & w1 & E1 & H).
  apply OrdinaryPercolationFacts.lift_ok in E1. destruct E1 as (_ & ->).
  apply OrdinaryPercolationFacts.bind_ok in H. destruct H as (b & w1 & E1 & H).
  apply OrdinaryPercolationFacts.lift_ok in E1. destruct E1 as (_ & ->).
  apply OrdinaryPercolationFacts.bind_ok in H. destruct H as (inl & w1 & E1 & H).
  apply OrdinaryPercolationFacts.lift_ok in E1. destruct E1 as (_ & ->).
  apply OrdinaryPercolationFacts.bind_ok in H. destruct H as ([] & w1 & E1 & H).
  unfold emit, modify in E1. injection E1 as <-.
  apply OrdinaryPercolationFacts.bind_ok in H. destruct H as (c' & w2 & E2 & H).
  inversion H; subst inv' w2; clear H.
  destruct (saturation_sweep_curves _ _ _ _ _ _ _ _ E2)
    as ((keep & K1 & K2) & A & S & O).
  split.
  - exists c', keep. split; [apply S, Hne|].
    split; [apply A; split; reflexivity|]. split; [exact K1 | exact K2].
  - intros q Hq. rewrite (O q Hq). reflexivity.
Qed.

Lemma axis_pairs_curves Sarr Ii Fi Fo ps inv w inv' w' :
  Sarr <> [] ->
  fold_m ps (axis_pair Sarr Ii Fi Fo) inv w = (Ok inv', w') ->
  (forall p, In p ps -> recorded_from Sarr (self w') p) /\
  (forall q, ~ In q ps -> curves_of (self w') q = curves_of (self w) q).
Proof.
  intros Hne. revert inv w.
  induction ps as [|x rest IH]; intros inv w H; cbn [fold_m] in H.
  - inversion H; subst. split; [intros p []| auto].
  - apply OrdinaryPercolationFacts.bind_ok in H. destruct H as (inv1 & w1 & E1 & H).
    assert (A1 := axis_pair_curves). specialize A1 with (1 := Hne) (2 := E1).
    destruct A1 as (R1 & O1).
    destruct (IH _ _ H) as (R2 & O2).
    split.
    + intros p Hp. destruct (in_dec string_dec p rest) as [Hin|Hnin].
      * apply R2, Hin.
      * destruct Hp as [<-|Hp]; [|contradiction].
        destruct R1 as (c & keep & C & Rest).
        exists c, keep. rewrite (O2 x Hnin). auto.
    + intros q Hq. rewrite O2 by (intros Hin; apply Hq; right; exact Hin).
      apply O1. intros ->. apply Hq. left. reflexivity.
Qed.

Lemma curves_of_perm (f : t -> t) q :
  (forall o, relperm_wp (f o) = relperm_wp o /\
             relperm_nwp (f o) = relperm_nwp o /\ sat (f o) = sat o) ->
  forall v o, curves_of o q = v -> curves_of (f o) q = v.
Proof.
  intros Hf v o H. unfold curves_of in *.
  destruct (Hf o) as (E1 & E2 & E3). rewrite E1, E2, E3. exact H.
Qed.

Lemma keeps_curves_register_pair q v pair :
  keeps (fun o => curves_of o q = v) (register_pair pair).
Proof.
  unfold register_pair. kept;
    apply keeps_update; apply curves_of_perm; intros o; repeat split.
Qed.

Lemma keeps_curves_baseline q v Fi Fo dim :
  keeps (fun o => curves_of o q = v) (baseline Fi Fo dim).
Proof.
  unfold baseline, baseline_solve. kept;
    apply keeps_update; apply curves_of_perm; intros o; repeat split.
Qed.

End Curves.

(** X24.  When [setup] returns, the settings hold, for every axis pair
    of the list, a relative permeability of either phase for each
    recorded saturation (the three lists have one length), and the
    recorded saturations are some of the ten evenly spaced values, in
    ascending order of these; the lists stored under any other key are
    left as they were. *)
Theorem setup_records_aligned_curves
  (collab : Collaborators) (l0 : loc) (w w' : state) :
  setup l0 w = (Ok tt, w') ->
  (forall p, In p (lists w l0) -> recorded_from ten_saturations (self w') p) /\
  (forall q, ~ In q (lists w l0) ->
             curves_of (self w') q = curves_of (self w) q).
Proof.
  intros H. destruct (setup_ok_phases _ _ H) as (w1 & w2 & inv' & E1 & E2 & E3).
  assert (Hne : ten_saturations <> []) by discriminate.
  assert (A1 := @axis_pairs_curves collab). specialize A1 with (1 := Hne) (2 := E3).
  destruct A1 as (R & O).
  split.
  - intros p Hp. apply R.
    eapply Permutation_in; [apply py_sort_perm | exact Hp].
  - intros q Hq. rewrite O.
    + assert (K2 : keeps (fun o => curves_of o q = curves_of (self w) q)
                         (for_each (dict_keys (flow_inlets (self w1)))
                            (baseline (pores_by_dim (flow_inlets (self w1)))
                                      (pores_by_dim (flow_outlets (self w1))))))
        by (apply keeps_for_each; intros dim; apply keeps_curves_baseline).
      apply (K2 _ _ _ E2).
      assert (K1 : keeps (fun o => curves_of o q = curves_of (self w) q)
                         (for_each (py_sort (lists w l0)) register_pair))
        by (apply keeps_for_each; intros p; apply keeps_curves_register_pair).
      apply (K1 _ _ _ E1). reflexivity.
    + intros Hin. apply Hq.
      eapply Permutation_in; [symmetry; apply py_sort_perm | exact Hin].
Qed.

Lemma setup_records_aligned_curves_witness :
  exists w',
    setup (collab := Examples.toy) 0 (Examples.orchestrator ["yx"; "xx"])
      = (Ok tt, w') /\
    recorded_from ten_saturations (self w') "xx".
Proof.
  destruct toy_setup_returns as (w' & H).
  exists w'. split; [exact H|].
  destruct (@setup_records_aligned_curves Examples.toy 0 _ _ H) as (R & _).
  apply R. cbn. auto.
Defined.

End SetupInvariants.




